(** * msparser: the mock-specification parser (parser.go, spec.go)

    A shallow embedding of [Parse] and of the builders it is made of, and
    the properties of the specification that concern them.

    Conventions of the embedding.
    - A decoded YAML value (Go's [any]) is the inductive [any]; a
      [map[string]any] is a [gmap string any], so that two maps with the same
      entries are equal, as in Go.
    - Go leaves the order of [for ... range m] over a map unspecified.  The
      order is a parameter of a run: [range] gives, for every map, the list
      of its entries in the order in which this run visits them (the order
      is a function of the map visited).
    - A Go function returning [(T, error)] returns a [result T]; a run-time
      panic is the result [Panic].  A [(T, bool, error)] triple is a
      [result (option T)].
    - The two recursive builders, [createConditions] and [createEndpoint],
      recurse on a bound [fuel] on their call depth and return [OutOfFuel]
      when it is used up; [Parse] gives them the depth of the document,
      which is enough ([Parse_terminates]).
    - A nil slice and an empty slice are both the empty list; a nil map is
      the empty map; a nil pointer to a struct is [None].
    - [definitions *Definitions] is mutated in place by the [fill...Map]
      functions; here the registry is threaded through them. *)

From Stdlib Require Import ZArith.
From stdpp Require Import base strings gmap list option fin_maps.

#[local] Set Warnings "-register-all".
#[local] Open Scope string_scope.
#[local] Open Scope list_scope.
#[local] Open Scope nat_scope.

(** ** Decoded documents *)

(** What [yaml.Unmarshal] stores in an [any]: nil, booleans, ints, strings,
    [[]any], [map[string]any]; every other dynamic type (floats, maps with a
    key that is not a string, ...) is [AOther]. Slices and maps built by the
    decoder are never nil. *)
Inductive any : Type :=
| ANil
| ABool (b : bool)
| AInt (i : Z)
| AString (s : string)
| ASlice (l : list any)
| AMap (m : gmap string any)
| AOther (tag : nat).

(** Nesting depth of a document; the call depth of the recursive builders
    is bounded by it. *)
Fixpoint depth (v : any) : nat :=
  match v with
  | ASlice l => S (foldr (λ x acc, depth x `max` acc) 0 l)
  | AMap m => S (map_fold (λ _ x acc, depth x `max` acc) 0 m)
  | _ => 0
  end.

(** ** Errors and results *)

Inductive error : Type :=
| errInvalidInput (reason : string)
| errObjectMustHaveSingleKey
| errUnknownDefinition (group ref : string)
| errYAML (msg : string).

Definition errInvalidInputReason (reason : string) : error :=
  errInvalidInput reason.

Definition errUnknownDefinitionWithName (group ref : string) : error :=
  errUnknownDefinition group ref.

Inductive result (A : Type) : Type :=
| Ok (a : A)
| Err (e : error)
| Panic
| OutOfFuel.
Arguments Ok {A} a.
Arguments Err {A} e.
Arguments Panic {A}.
Arguments OutOfFuel {A}.

#[global] Instance result_bind : MBind result := λ A B f x,
  match x with
  | Ok a => f a
  | Err e => Err e
  | Panic => Panic
  | OutOfFuel => OutOfFuel
  end.

(** [for _, x := range l { ... }] with an early [return err]: the body
    updates the loop state or stops the loop. *)
Fixpoint forRange {A S : Type} (body : S → A → result S) (s : S) (l : list A)
  : result S :=
  match l with
  | [] => Ok s
  | x :: l' => s' ← body s x; forRange body s' l'
  end.

(** ** The typed tree (spec.go) *)

Record Step : Type := mkStep {
  Step_Operation : string;
  Step_Parameters : gmap string any
}.

Record Filter : Type := mkFilter {
  Filter_Source : string;
  Filter_Target : string;
  Filter_Steps : list Step
}.

Record Check : Type := mkCheck {
  Check_Name : string;
  Check_Parameters : gmap string any
}.

Inductive Condition : Type := mkCondition {
  Condition_Any : list Condition;
  Condition_All : list Condition;
  Condition_Source : string;
  Condition_Checks : list Check
}.

Record Response : Type := mkResponse {
  Response_Status : Z;
  Response_Format : string;
  Response_Headers : gmap string (list string);
  Response_Body : string
}.

Inductive Endpoint : Type := mkEndpoint {
  Endpoint_Description : string;
  Endpoint_Host : string;
  Endpoint_Method : string;
  Endpoint_Path : string;
  Endpoint_BodyFormat : string;
  Endpoint_Filters : list Filter;
  Endpoint_Conditions : list Condition;
  Endpoint_Endpoints : list Endpoint;
  Endpoint_Response : option Response
}.

Record Definitions : Type := mkDefinitions {
  Definitions_Steps : gmap string (list Step);
  Definitions_Filters : gmap string (list Filter);
  Definitions_Conditions : gmap string (list Condition);
  Definitions_Responses : gmap string Response
}.

Record Spec : Type := mkSpec {
  Spec_Definitions : Definitions;
  Spec_Endpoints : list Endpoint
}.

(** Zero values, and assignments to one field. *)
Definition zeroFilter : Filter := mkFilter "" "" [].
Definition zeroCondition : Condition := mkCondition [] [] "" [].
Definition zeroResponse : Response := mkResponse 0 "" ∅ "".
Definition zeroEndpoint : Endpoint := mkEndpoint "" "" "" "" "" [] [] [] None.

Definition setFilterSource (v : string) (f : Filter) : Filter :=
  mkFilter v (Filter_Target f) (Filter_Steps f).
Definition setFilterTarget (v : string) (f : Filter) : Filter :=
  mkFilter (Filter_Source f) v (Filter_Steps f).
Definition setFilterSteps (v : list Step) (f : Filter) : Filter :=
  mkFilter (Filter_Source f) (Filter_Target f) v.

Definition setConditionAny (v : list Condition) (c : Condition) : Condition :=
  mkCondition v (Condition_All c) (Condition_Source c) (Condition_Checks c).
Definition setConditionAll (v : list Condition) (c : Condition) : Condition :=
  mkCondition (Condition_Any c) v (Condition_Source c) (Condition_Checks c).
Definition setConditionSource (v : string) (c : Condition) : Condition :=
  mkCondition (Condition_Any c) (Condition_All c) v (Condition_Checks c).
Definition setConditionChecks (v : list Check) (c : Condition) : Condition :=
  mkCondition (Condition_Any c) (Condition_All c) (Condition_Source c) v.

Definition setResponseStatus (v : Z) (r : Response) : Response :=
  mkResponse v (Response_Format r) (Response_Headers r) (Response_Body r).
Definition setResponseFormat (v : string) (r : Response) : Response :=
  mkResponse (Response_Status r) v (Response_Headers r) (Response_Body r).
Definition setResponseBody (v : string) (r : Response) : Response :=
  mkResponse (Response_Status r) (Response_Format r) (Response_Headers r) v.

Definition setEndpointDescription (v : string) (e : Endpoint) : Endpoint :=
  mkEndpoint v (Endpoint_Host e) (Endpoint_Method e) (Endpoint_Path e)
    (Endpoint_BodyFormat e) (Endpoint_Filters e) (Endpoint_Conditions e)
    (Endpoint_Endpoints e) (Endpoint_Response e).
Definition setEndpointHost (v : string) (e : Endpoint) : Endpoint :=
  mkEndpoint (Endpoint_Description e) v (Endpoint_Method e) (Endpoint_Path e)
    (Endpoint_BodyFormat e) (Endpoint_Filters e) (Endpoint_Conditions e)
    (Endpoint_Endpoints e) (Endpoint_Response e).
Definition setEndpointMethod (v : string) (e : Endpoint) : Endpoint :=
  mkEndpoint (Endpoint_Description e) (Endpoint_Host e) v (Endpoint_Path e)
    (Endpoint_BodyFormat e) (Endpoint_Filters e) (Endpoint_Conditions e)
    (Endpoint_Endpoints e) (Endpoint_Response e).
Definition setEndpointPath (v : string) (e : Endpoint) : Endpoint :=
  mkEndpoint (Endpoint_Description e) (Endpoint_Host e) (Endpoint_Method e) v
    (Endpoint_BodyFormat e) (Endpoint_Filters e) (Endpoint_Conditions e)
    (Endpoint_Endpoints e) (Endpoint_Response e).
Definition setEndpointBodyFormat (v : string) (e : Endpoint) : Endpoint :=
  mkEndpoint (Endpoint_Description e) (Endpoint_Host e) (Endpoint_Method e)
    (Endpoint_Path e) v (Endpoint_Filters e) (Endpoint_Conditions e)
    (Endpoint_Endpoints e) (Endpoint_Response e).
Definition setEndpointFilters (v : list Filter) (e : Endpoint) : Endpoint :=
  mkEndpoint (Endpoint_Description e) (Endpoint_Host e) (Endpoint_Method e)
    (Endpoint_Path e) (Endpoint_BodyFormat e) v (Endpoint_Conditions e)
    (Endpoint_Endpoints e) (Endpoint_Response e).
Definition setEndpointConditions (v : list Condition) (e : Endpoint) : Endpoint :=
  mkEndpoint (Endpoint_Description e) (Endpoint_Host e) (Endpoint_Method e)
    (Endpoint_Path e) (Endpoint_BodyFormat e) (Endpoint_Filters e) v
    (Endpoint_Endpoints e) (Endpoint_Response e).
Definition setEndpointEndpoints (v : list Endpoint) (e : Endpoint) : Endpoint :=
  mkEndpoint (Endpoint_Description e) (Endpoint_Host e) (Endpoint_Method e)
    (Endpoint_Path e) (Endpoint_BodyFormat e) (Endpoint_Filters e)
    (Endpoint_Conditions e) v (Endpoint_Response e).
Definition setEndpointResponse (v : option Response) (e : Endpoint) : Endpoint :=
  mkEndpoint (Endpoint_Description e) (Endpoint_Host e) (Endpoint_Method e)
    (Endpoint_Path e) (Endpoint_BodyFormat e) (Endpoint_Filters e)
    (Endpoint_Conditions e) (Endpoint_Endpoints e) v.

Definition setDefinitionsSteps (v : gmap string (list Step)) (d : Definitions)
  : Definitions :=
  mkDefinitions v (Definitions_Filters d) (Definitions_Conditions d)
    (Definitions_Responses d).
Definition setDefinitionsFilters (v : gmap string (list Filter))
  (d : Definitions) : Definitions :=
  mkDefinitions (Definitions_Steps d) v (Definitions_Conditions d)
    (Definitions_Responses d).
Definition setDefinitionsConditions (v : gmap string (list Condition))
  (d : Definitions) : Definitions :=
  mkDefinitions (Definitions_Steps d) (Definitions_Filters d) v
    (Definitions_Responses d).
Definition setDefinitionsResponses (v : gmap string Response)
  (d : Definitions) : Definitions :=
  mkDefinitions (Definitions_Steps d) (Definitions_Filters d)
    (Definitions_Conditions d) v.

Definition createEmpty : Spec :=
  mkSpec (mkDefinitions ∅ ∅ ∅ ∅) [].

(** The [map[string]*string] literals handed to [fillStrings]: field name
    to the field of the struct under construction. *)
Definition filterStrings : gmap string (string → Filter → Filter) :=
  {[ "source" := setFilterSource; "target" := setFilterTarget ]}.

Definition responseStrings : gmap string (string → Response → Response) :=
  {[ "format" := setResponseFormat; "body" := setResponseBody ]}.

Definition endpointStrings : gmap string (string → Endpoint → Endpoint) :=
  {[ "description" := setEndpointDescription;
     "host" := setEndpointHost;
     "method" := setEndpointMethod;
     "path" := setEndpointPath;
     "bodyFormat" := setEndpointBodyFormat ]}.

(** ** Structural extraction utilities *)

Definition extractString (input : gmap string any) (name : string)
  : result (option string) :=
  match input !! name with
  | None => Ok None
  | Some (AString str) => Ok (Some str)
  | Some _ =>
      Err (errInvalidInputReason ("expected '" +:+ name +:+ "' to be a string"))
  end.

Definition extractInt (input : gmap string any) (name : string)
  : result (option Z) :=
  match input !! name with
  | None => Ok None
  | Some (AInt i) => Ok (Some i)
  | Some _ =>
      Err (errInvalidInputReason ("expect '" +:+ name +:+ "' to be an integer"))
  end.

Definition extractStringMap (input : gmap string any) (name : string)
  : result (option (gmap string any)) :=
  match input !! name with
  | None => Ok None
  | Some (AMap outputMap) => Ok (Some outputMap)
  | Some _ =>
      Err (errInvalidInputReason ("expected '" +:+ name +:+ "' to be an object"))
  end.

Definition extractSliceOfAny (input : gmap string any) (name : string)
  : result (option (list any)) :=
  match input !! name with
  | None => Ok None
  | Some (ASlice outputSlice) => Ok (Some outputSlice)
  | Some _ =>
      Err (errInvalidInputReason ("expected '" +:+ name +:+ "' to be an array"))
  end.

(** [target *string] is the field it points to, given by its assignment. *)
Definition fillString {T : Type} (target : string → T → T)
  (input : gmap string any) (name : string) (t : T) : result T :=
  r ← extractString input name;
  match r with
  | None => Ok t
  | Some value => Ok (target value t)
  end.

Definition fillInt {T : Type} (target : Z → T → T)
  (input : gmap string any) (name : string) (t : T) : result T :=
  r ← extractInt input name;
  match r with
  | None => Ok t
  | Some value => Ok (target value t)
  end.

(** ** The registry *)

Definition getStepsByReference (definitions : Definitions) (refName : string)
  : result (list Step) :=
  match Definitions_Steps definitions !! refName with
  | None => Err (errUnknownDefinitionWithName "steps" refName)
  | Some steps => Ok steps
  end.

Definition getFiltersByReference (definitions : Definitions) (refName : string)
  : result (list Filter) :=
  match Definitions_Filters definitions !! refName with
  | None => Err (errUnknownDefinitionWithName "filters" refName)
  | Some filters => Ok filters
  end.

Definition getConditionsByReference (definitions : Definitions)
  (refName : string) : result (list Condition) :=
  match Definitions_Conditions definitions !! refName with
  | None => Err (errUnknownDefinitionWithName "conditions" refName)
  | Some conditions => Ok conditions
  end.

Definition getResponseByReference (definitions : Definitions)
  (refName : string) : result Response :=
  match Definitions_Responses definitions !! refName with
  | None => Err (errUnknownDefinitionWithName "responses" refName)
  | Some response => Ok response
  end.

(** The [switch rStepParams.(type)] of [createSteps] and [createChecks]: a
    mapping is the parameters, anything else is wrapped under ["value"]. *)
Definition parametersOf (rParams : any) : gmap string any :=
  match rParams with
  | AMap m => m
  | _ => {[ "value" := rParams ]}
  end.

(** ** Builders *)

Section Run.

(** The order in which this run ranges over a map. *)
Variable range : ∀ A : Type, gmap string A → list (string * A).
Arguments range {A} _.

Definition fillStrings {T : Type} (targets : gmap string (string → T → T))
  (input : gmap string any) (t : T) : result T :=
  forRange (λ t '(name, target), fillString target input name t)
    t (range targets).

Definition createSteps (rStepItem : gmap string any)
  (definitions : Definitions) : result (list Step) :=
  if bool_decide (1 < size rStepItem) then Err errObjectMustHaveSingleKey else
  r ← extractString rStepItem "$ref";
  match r with
  | Some refName => getStepsByReference definitions refName
  | None =>
      forRange (λ steps '(rStepOperation, rStepParams),
          Ok (steps ++ [mkStep rStepOperation (parametersOf rStepParams)]))
        [] (range rStepItem)
  end.

Definition createFilters (definitions : Definitions)
  (rFilterItem : gmap string any) : result (list Filter) :=
  r ← extractString rFilterItem "$ref";
  match r with
  | Some refName => getFiltersByReference definitions refName
  | None =>
      filter ← fillStrings filterStrings rFilterItem zeroFilter;
      if bool_decide (Filter_Source filter = "")
      then Err (errInvalidInputReason "filter must have a source") else
      rSteps ← extractSliceOfAny rFilterItem "steps";
      filter ← match rSteps with
        | Some rSteps =>
            forRange (λ filter rStep,
                match rStep with
                | AMap rStepMap =>
                    steps ← createSteps rStepMap definitions;
                    Ok (setFilterSteps (Filter_Steps filter ++ steps) filter)
                | _ =>
                    Err (errInvalidInputReason
                           "each step item must be an object")
                end)
              filter rSteps
        | None => Ok filter
        end;
      Ok [filter]
  end.

Definition createChecks (rChecks : list any) : result (list Check) :=
  forRange (λ checks rCheck,
      match rCheck with
      | AMap rCheckMap =>
          if bool_decide (size rCheckMap ≠ 1)
          then Err errObjectMustHaveSingleKey else
          forRange (λ checks '(rCheckName, rCheckParams),
              Ok (checks ++ [mkCheck rCheckName (parametersOf rCheckParams)]))
            checks (range rCheckMap)
      | _ => Err (errInvalidInputReason "each check item must be an object")
      end)
    [] rChecks.

(** [fillConditionsItems] and [createConditions] call each other; the
    callee is a parameter of the first two and [createConditions] ties the
    knot, on a bound on the call depth. *)
Definition fillConditionsItem
  (createConditions : Definitions → gmap string any → result (list Condition))
  (conditions : list Condition) (rConditionItem : gmap string any)
  (definitions : Definitions) : result (list Condition) :=
  newConditions ← createConditions definitions rConditionItem;
  Ok (conditions ++ newConditions).

Definition fillConditionsItems
  (createConditions : Definitions → gmap string any → result (list Condition))
  (conditions : list Condition) (rConditionItems : list any)
  (definitions : Definitions) : result (list Condition) :=
  if bool_decide (length rConditionItems = 0)
  then Err (errInvalidInputReason "each condition must have at least one item")
  else
  forRange (λ conditions rConditionItem,
      match rConditionItem with
      | AMap rConditionItemMap =>
          fillConditionsItem createConditions conditions rConditionItemMap
            definitions
      | _ =>
          Err (errInvalidInputReason "each condition item must be an object")
      end)
    conditions rConditionItems.

Fixpoint createConditions (fuel : nat) (definitions : Definitions)
  (rConditionItem : gmap string any) : result (list Condition) :=
  match fuel with
  | O => OutOfFuel
  | S fuel =>
      r ← extractString rConditionItem "$ref";
      match r with
      | Some refName => getConditionsByReference definitions refName
      | None =>
          let condition := zeroCondition in
          sliceAny ← extractSliceOfAny rConditionItem "any";
          match sliceAny with
          | Some sliceAny =>
              any ← fillConditionsItems (createConditions fuel)
                (Condition_Any condition) sliceAny definitions;
              Ok [setConditionAny any condition]
          | None =>
              sliceAll ← extractSliceOfAny rConditionItem "all";
              match sliceAll with
              | Some sliceAll =>
                  all ← fillConditionsItems (createConditions fuel)
                    (Condition_All condition) sliceAll definitions;
                  Ok [setConditionAll all condition]
              | None =>
                  condition ← fillString setConditionSource rConditionItem
                    "source" condition;
                  if bool_decide (Condition_Source condition = "")
                  then Err (errInvalidInputReason
                              "condition must have a source") else
                  rChecks ← extractSliceOfAny rConditionItem "checks";
                  match rChecks with
                  | None =>
                      Err (errInvalidInputReason "checks must be an array")
                  | Some rChecks =>
                      checks ← createChecks rChecks;
                      Ok [setConditionChecks checks condition]
                  end
              end
          end
      end
  end.

(** The local map [headers] of [createResponse], filled header by header.
    [headerValue.(string)] is the one-result form of the type assertion: it
    panics on a value that is not a string. *)
Definition fillHeaderValues (headers : gmap string (list string))
  (headerName : string) (headerValuesSlice : list any)
  : result (gmap string (list string)) :=
  forRange (λ headers headerValue,
      match headerValue with
      | AString s =>
          Ok (<[ headerName := default [] (headers !! headerName) ++ [s] ]>
                headers)
      | _ => Panic
      end)
    headers headerValuesSlice.

Definition createResponse (rResponse : gmap string any)
  (definitions : Definitions) : result Response :=
  let response := zeroResponse in
  r ← extractString rResponse "$ref";
  match r with
  | Some refName => getResponseByReference definitions refName
  | None =>
      response ← fillStrings responseStrings rResponse response;
      response ← fillInt setResponseStatus rResponse "status" response;
      rHeaders ← extractStringMap rResponse "headers";
      match rHeaders with
      | Some rHeaders =>
          headers ← forRange (λ headers '(headerName, headerValues),
              let headers := <[ headerName := [] ]> headers in
              match headerValues with
              | ASlice headerValuesSlice =>
                  fillHeaderValues headers headerName headerValuesSlice
              | _ =>
                  Err (errInvalidInputReason
                         "each header values must be an array of strings")
              end)
            (∅ : gmap string (list string)) (range rHeaders);
          (* [headers] goes out of scope here: nothing stores it *)
          Ok response
      | None => Ok response
      end
  end.

(** The [fill...] functions write through their first argument, a pointer
    to a slice or to a struct; here they return what they have written
    there (for a slice, its former contents with the new items appended). *)
Definition fillResponseItem (rResponse : gmap string any)
  (definitions : Definitions) : result Response :=
  newResponse ← createResponse rResponse definitions;
  Ok newResponse.

Definition fillStepsItem (steps : list Step) (rStepItem : gmap string any)
  (definitions : Definitions) : result (list Step) :=
  newSteps ← createSteps rStepItem definitions;
  Ok (steps ++ newSteps).

Definition fillStepsItems (steps : list Step) (rStepItems : list any)
  (definitions : Definitions) : result (list Step) :=
  if bool_decide (length rStepItems = 0)
  then Err (errInvalidInputReason "each step must have at least one item")
  else
  forRange (λ steps rStepItem,
      match rStepItem with
      | AMap rStepItemMap => fillStepsItem steps rStepItemMap definitions
      | _ => Err (errInvalidInputReason "each step item must be an object")
      end)
    steps rStepItems.

Definition fillFiltersItem (filters : list Filter)
  (rFilterItem : gmap string any) (definitions : Definitions)
  : result (list Filter) :=
  newFilters ← createFilters definitions rFilterItem;
  Ok (filters ++ newFilters).

Definition fillFiltersItems (filters : list Filter) (rFilterItems : list any)
  (definitions : Definitions) : result (list Filter) :=
  if bool_decide (length rFilterItems = 0)
  then Err (errInvalidInputReason "each filter must have at least one item")
  else
  forRange (λ filters rFilterItem,
      match rFilterItem with
      | AMap rFilterItemMap => fillFiltersItem filters rFilterItemMap definitions
      | _ => Err (errInvalidInputReason "each filter item must be an object")
      end)
    filters rFilterItems.

(** [createEndpoint] and [fillEndpoints] call each other, as above. *)
Definition fillEndpoints
  (createEndpoint : gmap string any → Definitions → result Endpoint)
  (endpoints : list Endpoint) (rEndpoints : list any)
  (definitions : Definitions) : result (list Endpoint) :=
  forRange (λ endpoints rEndpoint,
      match rEndpoint with
      | AMap rEndpointMap =>
          endpoint ← createEndpoint rEndpointMap definitions;
          Ok (endpoints ++ [endpoint])
      | _ => Err (errInvalidInputReason "each endpoint must be an object")
      end)
    endpoints rEndpoints.

Fixpoint createEndpoint (fuel : nat) (rEndpoint : gmap string any)
  (definitions : Definitions) : result Endpoint :=
  match fuel with
  | O => OutOfFuel
  | S fuel =>
      let endpoint := zeroEndpoint in
      endpoint ← fillStrings endpointStrings rEndpoint endpoint;
      rFilterItems ← extractSliceOfAny rEndpoint "filters";
      endpoint ← match rFilterItems with
        | Some rFilterItems =>
            filters ← fillFiltersItems (Endpoint_Filters endpoint)
              rFilterItems definitions;
            Ok (setEndpointFilters filters endpoint)
        | None => Ok endpoint
        end;
      rConditionItems ← extractSliceOfAny rEndpoint "conditions";
      endpoint ← match rConditionItems with
        | Some rConditionItems =>
            conditions ← fillConditionsItems (createConditions fuel)
              (Endpoint_Conditions endpoint) rConditionItems definitions;
            Ok (setEndpointConditions conditions endpoint)
        | None => Ok endpoint
        end;
      rEndpointItems ← extractSliceOfAny rEndpoint "endpoints";
      endpoint ← match rEndpointItems with
        | Some rEndpointItems =>
            endpoints ← fillEndpoints (createEndpoint fuel)
              (Endpoint_Endpoints endpoint) rEndpointItems definitions;
            Ok (setEndpointEndpoints endpoints endpoint)
        | None => Ok endpoint
        end;
      rResponse ← extractStringMap rEndpoint "response";
      endpoint ← match rResponse with
        | Some rResponse =>
            response ← fillResponseItem rResponse definitions;
            Ok (setEndpointResponse (Some response) endpoint)
        | None => Ok endpoint
        end;
      if bool_decide (length (Endpoint_Endpoints endpoint) = 0
                      ∧ Endpoint_Response endpoint = None)
      then Err (errInvalidInputReason
                  "endpoint must have either sub-endpoints or a response")
      else Ok endpoint
  end.

(** The endpoint as [createEndpoint] has built it from the fields of
    [rEndpoint] when it reaches its last check (the body of [createEndpoint]
    up to that check, at call depth [fuel] for what it calls). *)
Definition endpointFields (fuel : nat) (rEndpoint : gmap string any)
  (definitions : Definitions) : result Endpoint :=
  endpoint ← fillStrings endpointStrings rEndpoint zeroEndpoint;
  rFilterItems ← extractSliceOfAny rEndpoint "filters";
  endpoint ← match rFilterItems with
    | Some rFilterItems =>
        filters ← fillFiltersItems (Endpoint_Filters endpoint)
          rFilterItems definitions;
        Ok (setEndpointFilters filters endpoint)
    | None => Ok endpoint
    end;
  rConditionItems ← extractSliceOfAny rEndpoint "conditions";
  endpoint ← match rConditionItems with
    | Some rConditionItems =>
        conditions ← fillConditionsItems (createConditions fuel)
          (Endpoint_Conditions endpoint) rConditionItems definitions;
        Ok (setEndpointConditions conditions endpoint)
    | None => Ok endpoint
    end;
  rEndpointItems ← extractSliceOfAny rEndpoint "endpoints";
  endpoint ← match rEndpointItems with
    | Some rEndpointItems =>
        endpoints ← fillEndpoints (createEndpoint fuel)
          (Endpoint_Endpoints endpoint) rEndpointItems definitions;
        Ok (setEndpointEndpoints endpoints endpoint)
    | None => Ok endpoint
    end;
  rResponse ← extractStringMap rEndpoint "response";
  match rResponse with
  | Some rResponse =>
      response ← fillResponseItem rResponse definitions;
      Ok (setEndpointResponse (Some response) endpoint)
  | None => Ok endpoint
  end.

(** ** The definitions block

    [stepsMap] points to [definitions.Steps] itself (and likewise for the
    other three), so that an entry stored for one name is seen by the
    builders of the names ranged over after it. *)

Definition fillStepsMap (rSteps : gmap string any) (definitions : Definitions)
  : result Definitions :=
  forRange (λ definitions '(stepName, rStepItems),
      match rStepItems with
      | ASlice rStepItemsSlice =>
          stepsList ← fillStepsItems [] rStepItemsSlice definitions;
          Ok (setDefinitionsSteps
                (<[ stepName := stepsList ]> (Definitions_Steps definitions))
                definitions)
      | _ =>
          Err (errInvalidInputReason
                 ("each step must be an array if step items (" +:+ stepName
                  +:+ " is not)"))
      end)
    definitions (range rSteps).

Definition fillFiltersMap (rFilters : gmap string any)
  (definitions : Definitions) : result Definitions :=
  forRange (λ definitions '(filterName, rFilterItems),
      match rFilterItems with
      | ASlice rFilterItemsSlice =>
          filtersList ← fillFiltersItems [] rFilterItemsSlice definitions;
          Ok (setDefinitionsFilters
                (<[ filterName := filtersList ]>
                   (Definitions_Filters definitions))
                definitions)
      | _ =>
          Err (errInvalidInputReason
                 ("each filter must be an array of filter items ("
                  +:+ filterName +:+ " is not)"))
      end)
    definitions (range rFilters).

Definition fillConditionsMap (fuel : nat) (rConditions : gmap string any)
  (definitions : Definitions) : result Definitions :=
  forRange (λ definitions '(conditionName, rConditionItems),
      match rConditionItems with
      | ASlice rConditionItemsSlice =>
          conditionsList ← fillConditionsItems (createConditions fuel) []
            rConditionItemsSlice definitions;
          Ok (setDefinitionsConditions
                (<[ conditionName := conditionsList ]>
                   (Definitions_Conditions definitions))
                definitions)
      | _ =>
          Err (errInvalidInputReason
                 ("each condition must be an array of condition items ("
                  +:+ conditionName +:+ " is not)"))
      end)
    definitions (range rConditions).

Definition fillResponsesMap (rResponses : gmap string any)
  (definitions : Definitions) : result Definitions :=
  forRange (λ definitions '(responseName, rResponse),
      match rResponse with
      | AMap rResponseMap =>
          response ← fillResponseItem rResponseMap definitions;
          Ok (setDefinitionsResponses
                (<[ responseName := response ]>
                   (Definitions_Responses definitions))
                definitions)
      | _ => Err (errInvalidInputReason "each response must be an object")
      end)
    definitions (range rResponses).

Definition fillDefinitions (fuel : nat) (rDefinitions : gmap string any)
  (definitions : Definitions) : result Definitions :=
  rSteps ← extractStringMap rDefinitions "steps";
  definitions ← match rSteps with
    | Some rSteps => fillStepsMap rSteps definitions
    | None => Ok definitions
    end;
  rFilters ← extractStringMap rDefinitions "filters";
  definitions ← match rFilters with
    | Some rFilters => fillFiltersMap rFilters definitions
    | None => Ok definitions
    end;
  rConditions ← extractStringMap rDefinitions "conditions";
  definitions ← match rConditions with
    | Some rConditions => fillConditionsMap fuel rConditions definitions
    | None => Ok definitions
    end;
  rResponses ← extractStringMap rDefinitions "responses";
  match rResponses with
  | Some rResponses => fillResponsesMap rResponses definitions
  | None => Ok definitions
  end.

Definition fillSpec (fuel : nat) (rSpec : gmap string any) (spec : Spec)
  : result Spec :=
  rSpecDefinitions ← extractStringMap rSpec "definitions";
  definitions ← match rSpecDefinitions with
    | Some rSpecDefinitions =>
        fillDefinitions fuel rSpecDefinitions (Spec_Definitions spec)
    | None => Ok (Spec_Definitions spec)
    end;
  rSpecEndpoints ← extractSliceOfAny rSpec "endpoints";
  match rSpecEndpoints with
  | Some rSpecEndpoints =>
      endpoints ← fillEndpoints (createEndpoint fuel) (Spec_Endpoints spec)
        rSpecEndpoints definitions;
      Ok (mkSpec definitions endpoints)
  | None => Ok (mkSpec definitions (Spec_Endpoints spec))
  end.

(** [Parse], from the outcome [decoded] of [yaml.Unmarshal(input, &rSpec)].
    The builders recurse on sub-documents only, so the depth of the
    document bounds their call depth. *)
Definition Parse (decoded : result any) : result Spec :=
  rSpec ← decoded;
  match rSpec with
  | AMap rSpecMap => fillSpec (depth rSpec) rSpecMap createEmpty
  | _ => Err (errInvalidInputReason "spec must be an object")
  end.

End Run.

(** The order of [map_to_list], one of the orders a run may take. *)
Definition canonical : ∀ A : Type, gmap string A → list (string * A) :=
  λ A m, map_to_list m.

(** A run visits every entry of a map once, in some order. *)
Definition valid_range (range : ∀ A : Type, gmap string A → list (string * A))
  : Prop :=
  ∀ (A : Type) (m : gmap string A), range A m ≡ₚ map_to_list m.

(** ** Reference resolution, as a property of a result

    [r] is what a [$ref] to [refName] must give against [registry]: the
    stored value when the name is registered, and otherwise the error that
    names the namespace and the reference. *)
Definition resolves {A : Type} (registry : gmap string A)
  (group refName : string) (r : result A) : Prop :=
  match registry !! refName with
  | Some stored => r = Ok stored
  | None => r = Err (errUnknownDefinitionWithName group refName)
  end.

(** A check item that [createChecks] accepts: a mapping with one key. *)
Definition singleKeyObject (rCheck : any) : Prop :=
  ∃ rCheckMap, rCheck = AMap rCheckMap ∧ size rCheckMap = 1.

(** A field that [extractString] accepts: absent, or a string. *)
Definition stringOrAbsent (input : gmap string any) (name : string) : bool :=
  match input !! name with
  | None | Some (AString _) => true
  | Some _ => false
  end.

(** The five string fields of an endpoint are accepted. *)
Definition endpointStringsAccepted (rEndpoint : gmap string any) : Prop :=
  map_Forall (λ name _, stringOrAbsent rEndpoint name) endpointStrings.

(** The [filters] field of an endpoint, if there, is a sequence that
    [fillFiltersItems] builds; likewise [conditions]. *)
Definition filtersAccepted
  (range : ∀ A : Type, gmap string A → list (string * A))
  (definitions : Definitions) (rEndpoint : gmap string any) : Prop :=
  match rEndpoint !! "filters" with
  | None => True
  | Some (ASlice rFilterItems) =>
      ∃ filters, fillFiltersItems range [] rFilterItems definitions = Ok filters
  | Some _ => False
  end.

Definition conditionsAccepted
  (range : ∀ A : Type, gmap string A → list (string * A)) (fuel : nat)
  (definitions : Definitions) (rEndpoint : gmap string any) : Prop :=
  match rEndpoint !! "conditions" with
  | None => True
  | Some (ASlice rConditionItems) =>
      ∃ conditions,
        fillConditionsItems (createConditions range fuel) [] rConditionItems
          definitions = Ok conditions
  | Some _ => False
  end.

(** The error of the last check of [createEndpoint]. *)
Definition errIncompleteEndpoint : error :=
  errInvalidInputReason "endpoint must have either sub-endpoints or a response".

(** ** Sample documents *)

Definition noDefinitions : Definitions := Spec_Definitions createEmpty.

(** [{endpoints: []}] *)
Definition rEndpointNoChildren : gmap string any :=
  {[ "endpoints" := ASlice [] ]}.

(** [{path: /x, filters: []}] *)
Definition rEndpointNoFilters : gmap string any :=
  {[ "path" := AString "/x"; "filters" := ASlice [] ]}.

(** [{source: role, checks: []}] *)
Definition rConditionEmptyChecks : gmap string any :=
  {[ "source" := AString "role"; "checks" := ASlice [] ]}.

(** [{trim: null, upper: null}] *)
Definition rStepTwoKeys : gmap string any :=
  {[ "trim" := ANil; "upper" := ANil ]}.

(** [{any: [{source: a, checks: [{present: null}]}], all: 3}] *)
Definition rConditionAnyAll : gmap string any :=
  {[ "any" := ASlice [AMap {[ "source" := AString "a";
                              "checks" := ASlice [AMap {[ "present" := ANil ]}] ]}];
     "all" := AInt 3 ]}.

(** A registry with one entry in each namespace, all under the name [n]. *)
Definition sampleDefinitions : Definitions :=
  mkDefinitions
    {[ "n" := [mkStep "trim" {[ "value" := ANil ]}] ]}
    {[ "n" := [mkFilter "id" "" []] ]}
    {[ "n" := [mkCondition [] [] "role" []] ]}
    {[ "n" := mkResponse 200 "raw" ∅ "ok" ]}.

(** [{headers: {X-Count: [1]}}] *)
Definition rResponseIntHeader : gmap string any :=
  {[ "headers" := AMap {[ "X-Count" := ASlice [AInt 1] ]} ]}.

(** [{headers: {A: 1, B: [1]}}]: a header value that is not a sequence,
    and one with an element that is not a string. *)
Definition rResponseTwoHeaders : gmap string any :=
  {[ "headers" := AMap {[ "A" := AInt 1; "B" := ASlice [AInt 1] ]} ]}.

(** [{status: 200, headers: {X-Token: [a, b]}}] *)
Definition rResponseHeaders : gmap string any :=
  {[ "status" := AInt 200;
     "headers" := AMap {[ "X-Token" := ASlice [AString "a"; AString "b"] ]} ]}.

(** [endpoints: [{path: /x, response: {status: 200, headers: {X-Token: [a, b]}}}]] *)
Definition docHeaders : any :=
  AMap {[ "endpoints" :=
            ASlice [AMap {[ "path" := AString "/x";
                            "response" := AMap rResponseHeaders ]}] ]}.

(** ** Runs in different orders *)

(** The order opposite to [canonical]. *)
Definition reversed : ∀ A : Type, gmap string A → list (string * A) :=
  λ A m, reverse (map_to_list m).

(** [definitions: {steps: {a: [{trim: null}], b: [{$ref: a}]}}]: the
    definition [b] refers to its sibling [a]. *)
Definition docSiblingRef : any :=
  AMap {[ "definitions" :=
            AMap {[ "steps" :=
                      AMap {[ "a" := ASlice [AMap {[ "trim" := ANil ]}];
                              "b" := ASlice [AMap {[ "$ref" := AString "a" ]}]
                           ]} ]} ]}.

(** [definitions: {steps: {a: [{trim: null}], b: [{upper: 1}]}},
     endpoints: [{path: /x, response: {status: 200}}]] *)
Definition docTwoSteps : any :=
  AMap {[ "definitions" :=
            AMap {[ "steps" :=
                      AMap {[ "a" := ASlice [AMap {[ "trim" := ANil ]}];
                              "b" := ASlice [AMap {[ "upper" := AInt 1 ]}]
                           ]} ]};
          "endpoints" :=
            ASlice [AMap {[ "path" := AString "/x";
                            "response" := AMap {[ "status" := AInt 200 ]} ]}]
       ]}.

(** [endpoints: [{host: 1, path: 2}]]: two fields of the wrong type. *)
Definition docTwoErrors : any :=
  AMap {[ "endpoints" := ASlice [AMap {[ "host" := AInt 1; "path" := AInt 2 ]}] ]}.

(** What one iteration of [fillStrings] does when it does not fail. *)
Definition assignString {T : Type} (input : gmap string any) (t : T)
  (entry : string * (string → T → T)) : T :=
  match input !! entry.1 with
  | Some (AString value) => entry.2 value t
  | _ => t
  end.

(** Assignments to different fields can be swapped. *)
Definition commuting {T : Type} (targets : gmap string (string → T → T))
  : Prop :=
  ∀ name1 name2 target1 target2 value1 value2 t,
    name1 ≠ name2 →
    targets !! name1 = Some target1 → targets !! name2 = Some target2 →
    target1 value1 (target2 value2 t) = target2 value2 (target1 value1 t).

(** Two registries that give the same value to every name that both know. *)
Definition compatMap {A : Type} (m1 m2 : gmap string A) : Prop :=
  ∀ name v1 v2, m1 !! name = Some v1 → m2 !! name = Some v2 → v1 = v2.

Definition compat (d1 d2 : Definitions) : Prop :=
  compatMap (Definitions_Steps d1) (Definitions_Steps d2)
  ∧ compatMap (Definitions_Filters d1) (Definitions_Filters d2)
  ∧ compatMap (Definitions_Conditions d1) (Definitions_Conditions d2)
  ∧ compatMap (Definitions_Responses d1) (Definitions_Responses d2).

(** The registries that the [fill...Map] functions can go through on the
    definitions block [rDefinitions], in any run: from the empty registry,
    any entry of the block may be built against the registry so far and
    stored under its name. *)
Inductive reachable (fuel : nat) (rDefinitions : gmap string any)
  : Definitions → Prop :=
| reachable_empty :
    reachable fuel rDefinitions (Spec_Definitions createEmpty)
| reachable_steps range definitions rSteps stepName rStepItems stepsList :
    valid_range range →
    reachable fuel rDefinitions definitions →
    rDefinitions !! "steps" = Some (AMap rSteps) →
    rSteps !! stepName = Some (ASlice rStepItems) →
    fillStepsItems range [] rStepItems definitions = Ok stepsList →
    reachable fuel rDefinitions
      (setDefinitionsSteps
         (<[ stepName := stepsList ]> (Definitions_Steps definitions))
         definitions)
| reachable_filters range definitions rFilters filterName rFilterItems
    filtersList :
    valid_range range →
    reachable fuel rDefinitions definitions →
    rDefinitions !! "filters" = Some (AMap rFilters) →
    rFilters !! filterName = Some (ASlice rFilterItems) →
    fillFiltersItems range [] rFilterItems definitions = Ok filtersList →
    reachable fuel rDefinitions
      (setDefinitionsFilters
         (<[ filterName := filtersList ]> (Definitions_Filters definitions))
         definitions)
| reachable_conditions range definitions rConditions conditionName
    rConditionItems conditionsList :
    valid_range range →
    reachable fuel rDefinitions definitions →
    rDefinitions !! "conditions" = Some (AMap rConditions) →
    rConditions !! conditionName = Some (ASlice rConditionItems) →
    fillConditionsItems (createConditions range fuel) [] rConditionItems
      definitions = Ok conditionsList →
    reachable fuel rDefinitions
      (setDefinitionsConditions
         (<[ conditionName := conditionsList ]>
            (Definitions_Conditions definitions))
         definitions)
| reachable_responses range definitions rResponses responseName rResponse
    response :
    valid_range range →
    reachable fuel rDefinitions definitions →
    rDefinitions !! "responses" = Some (AMap rResponses) →
    rResponses !! responseName = Some (AMap rResponse) →
    fillResponseItem range rResponse definitions = Ok response →
    reachable fuel rDefinitions
      (setDefinitionsResponses
         (<[ responseName := response ]> (Definitions_Responses definitions))
         definitions).

(** The names that the block [group] of [rDefinitions] defines. *)
Definition blockKeys (rDefinitions : gmap string any) (group name : string)
  : Prop :=
  ∃ m, rDefinitions !! group = Some (AMap m) ∧ is_Some (m !! name).

(** Two registries that differ from compatible ones in different
    namespaces: each namespace is settled by one of the two facts. *)
Ltac compat_other Hinner Houter :=
  destruct Hinner as (? & ? & ? & ?); destruct Houter as (? & ? & ? & ?);
  repeat split; simpl in *; assumption.

(** ** Fields of a document and well-formed trees *)

(** A string field of a mapping as [fillString] leaves it in a zero
    struct: its value, or [""] when the field is absent. *)
Definition stringField (input : gmap string any) (name : string) : string :=
  match input !! name with
  | Some (AString value) => value
  | _ => ""
  end.

Definition intField (input : gmap string any) (name : string) : Z :=
  match input !! name with
  | Some (AInt value) => value
  | _ => 0%Z
  end.

(** The string targets of the three structs, as lists. *)
Definition filterStringsList : list (string * (string → Filter → Filter)) :=
  [("source", setFilterSource); ("target", setFilterTarget)].

Definition responseStringsList
  : list (string * (string → Response → Response)) :=
  [("format", setResponseFormat); ("body", setResponseBody)].

Definition endpointStringsList
  : list (string * (string → Endpoint → Endpoint)) :=
  [("description", setEndpointDescription); ("host", setEndpointHost);
   ("method", setEndpointMethod); ("path", setEndpointPath);
   ("bodyFormat", setEndpointBodyFormat)].

(** The comment on [Condition] in spec.go: only one of [Any], [All], or
    [Source] with [Checks] is set; here for a condition and for all the
    conditions nested in it, with a set [Any] or [All] holding an item. *)
Fixpoint exclusive (c : Condition) : Prop :=
  ((Condition_Any c ≠ [] ∧ Condition_All c = []
    ∧ Condition_Source c = "" ∧ Condition_Checks c = [])
   ∨ (Condition_Any c = [] ∧ Condition_All c ≠ []
      ∧ Condition_Source c = "" ∧ Condition_Checks c = [])
   ∨ (Condition_Any c = [] ∧ Condition_All c = []
      ∧ Condition_Source c ≠ ""))
  ∧ (fix each (l : list Condition) : Prop :=
       match l with
       | [] => True
       | c' :: l' => exclusive c' ∧ each l'
       end) (Condition_Any c)
  ∧ (fix each (l : list Condition) : Prop :=
       match l with
       | [] => True
       | c' :: l' => exclusive c' ∧ each l'
       end) (Condition_All c).

Definition sourced (f : Filter) : Prop := Filter_Source f ≠ "".

(** An endpoint that has a sub-endpoint or a response, whose filters have
    a source and whose conditions have one shape, and so for its
    sub-endpoints. *)
Fixpoint wellFormedEndpoint (e : Endpoint) : Prop :=
  (Endpoint_Endpoints e ≠ [] ∨ Endpoint_Response e ≠ None)
  ∧ Forall sourced (Endpoint_Filters e)
  ∧ Forall exclusive (Endpoint_Conditions e)
  ∧ (fix each (l : list Endpoint) : Prop :=
       match l with
       | [] => True
       | e' :: l' => wellFormedEndpoint e' ∧ each l'
       end) (Endpoint_Endpoints e).

(** A registry whose filter and condition lists hold at least one item
    each, all of them well formed. *)
Definition wellFormedDefinitions (d : Definitions) : Prop :=
  (∀ name filters, Definitions_Filters d !! name = Some filters →
     filters ≠ [] ∧ Forall sourced filters)
  ∧ (∀ name conditions, Definitions_Conditions d !! name = Some conditions →
       conditions ≠ [] ∧ Forall exclusive conditions).

(** A header of [rResponse] whose value is a sequence with an element
    that is not a string. *)
Definition headerWithNonString (rResponse : gmap string any) : Prop :=
  ∃ rHeaders headerName headerValuesSlice headerValue,
    rResponse !! "headers" = Some (AMap rHeaders)
    ∧ rHeaders !! headerName = Some (ASlice headerValuesSlice)
    ∧ headerValue ∈ headerValuesSlice
    ∧ ∀ s, headerValue ≠ AString s.

(** [v] is [doc] or occurs in it, at any depth. *)
Inductive occurs (v : any) : any → Prop :=
| occurs_here : occurs v v
| occurs_slice l x : x ∈ l → occurs v x → occurs v (ASlice l)
| occurs_map m k x : m !! k = Some x → occurs v x → occurs v (AMap m).

(** [endpoints: [{endpoints: [{response: {headers: {X-Count: [1]}}}]}]] *)
Definition docIntHeader : any :=
  AMap {[ "endpoints" :=
            ASlice [AMap {[ "endpoints" :=
                              ASlice [AMap {[ "response" :=
                                                AMap rResponseIntHeader ]}] ]}]
       ]}.

(** [doc] holds, somewhere, a mapping whose [$ref] is the string
    [refName]. *)
Definition refersTo (refName : string) (doc : any) : Prop :=
  ∃ m, occurs (AMap m) doc ∧ m !! "$ref" = Some (AString refName).

(** [endpoints: [{filters: [{source: q, steps: [{$ref: missing}]}],
                  response: {}}]] *)
Definition docMissingRef : any :=
  AMap {[ "endpoints" :=
            ASlice [AMap {[ "filters" :=
                              ASlice [AMap {[ "source" := AString "q";
                                              "steps" :=
                                                ASlice [AMap {[ "$ref" :=
                                                                  AString "missing" ]}]
                                           ]}];
                            "response" := AMap ∅ ]}] ]}.

(** [{source: q, target: name, steps: [{trim: null}, {$ref: n}]}] *)
Definition rFilterSample : gmap string any :=
  {[ "source" := AString "q"; "target" := AString "name";
     "steps" := ASlice [AMap {[ "trim" := ANil ]};
                        AMap {[ "$ref" := AString "n" ]}] ]}.

(** [{target: name}] *)
Definition rFilterNoSource : gmap string any :=
  {[ "target" := AString "name" ]}.

(** [{status: 404, format: json, body: "{}"}] *)
Definition rResponseSample : gmap string any :=
  {[ "status" := AInt 404; "format" := AString "json";
     "body" := AString "{}" ]}.

(** [{host: example.org, method: GET, path: /x, response: {status: 404,
      format: json, body: "{}"}}] *)
Definition rEndpointSample : gmap string any :=
  {[ "host" := AString "example.org"; "method" := AString "GET";
     "path" := AString "/x"; "response" := AMap rResponseSample ]}.

(** [definitions: {filters: {f: [{source: q}]},
                   conditions: {admin: [{source: role,
                                         checks: [{equals: admin}]}]}},
     endpoints: [{path: /a, filters: [{$ref: f}],
                  conditions: [{any: [{$ref: admin}]}],
                  endpoints: [{path: /b, response: {status: 200}}]}]] *)
Definition docNested : any :=
  AMap {[ "definitions" :=
            AMap {[ "filters" :=
                      AMap {[ "f" := ASlice [AMap {[ "source" := AString "q" ]}] ]};
                    "conditions" :=
                      AMap {[ "admin" :=
                                ASlice [AMap {[ "source" := AString "role";
                                                "checks" :=
                                                  ASlice [AMap {[ "equals" :=
                                                                    AString "admin" ]}]
                                             ]}] ]} ]};
          "endpoints" :=
            ASlice [AMap {[ "path" := AString "/a";
                            "filters" := ASlice [AMap {[ "$ref" := AString "f" ]}];
                            "conditions" :=
                              ASlice [AMap {[ "any" :=
                                                ASlice [AMap {[ "$ref" :=
                                                                  AString "admin" ]}]
                                             ]}];
                            "endpoints" :=
                              ASlice [AMap {[ "path" := AString "/b";
                                              "response" :=
                                                AMap {[ "status" := AInt 200 ]}
                                           ]}] ]}] ]}.

(** * Properties *)

(** ** Ranging over maps *)

Lemma canonical_valid : valid_range canonical.
Proof. intros A m. reflexivity. Qed.

Lemma reverse_valid : valid_range (λ A m, reverse (map_to_list m)).
Proof. intros A m. apply reverse_Permutation. Qed.

Section Ranges.

Variable range : ∀ A : Type, gmap string A → list (string * A).
Hypothesis range_valid : valid_range range.

Lemma range_empty (A : Type) : range A ∅ = [].
Proof.
  apply Permutation_nil_r. rewrite (range_valid A ∅), map_to_list_empty.
  reflexivity.
Qed.

Lemma range_singleton (A : Type) (k : string) (v : A) :
  range A {[ k := v ]} = [(k, v)].
Proof.
  apply Permutation_singleton_r.
  rewrite (range_valid A _), map_to_list_singleton. reflexivity.
Qed.

Lemma range_length (A : Type) (m : gmap string A) :
  length (range A m) = size m.
Proof. rewrite (range_valid A m). apply length_map_to_list. Qed.

Lemma elem_of_range (A : Type) (m : gmap string A) (k : string) (v : A) :
  (k, v) ∈ range A m ↔ m !! k = Some v.
Proof. rewrite (range_valid A m). apply elem_of_map_to_list. Qed.

Lemma range_NoDup (A : Type) (m : gmap string A) : NoDup (range A m).
Proof. rewrite (range_valid A m). apply NoDup_map_to_list. Qed.

Lemma range_NoDup_fst (A : Type) (m : gmap string A) :
  NoDup (range A m).*1.
Proof. rewrite (range_valid A m). apply NoDup_fst_map_to_list. Qed.

End Ranges.

(** A map with at most one entry leaves a run no choice. *)
Lemma range_small_agree (r1 r2 : ∀ A : Type, gmap string A → list (string * A))
  (A : Type) (m : gmap string A) :
  valid_range r1 → valid_range r2 → size m ≤ 1 → r1 A m = r2 A m.
Proof.
  intros H1 H2 Hsize.
  assert (Hp : r1 A m ≡ₚ r2 A m) by (rewrite (H1 A m), (H2 A m); reflexivity).
  assert (Hl : length (r1 A m) ≤ 1) by (rewrite range_length; done).
  destruct (r1 A m) as [|x [|y l]]; simpl in Hl.
  - by apply Permutation_nil_l in Hp.
  - by apply Permutation_singleton_l in Hp.
  - lia.
Qed.

(** ** Results and loops *)

Lemma bind_Ok {A B : Type} (f : A → result B) (a : A) : Ok a ≫= f = f a.
Proof. reflexivity. Qed.

Lemma bind_Ok_inv {A B : Type} (f : A → result B) (x : result A) (b : B) :
  x ≫= f = Ok b → ∃ a, x = Ok a ∧ f a = Ok b.
Proof. destruct x; simpl; intros H; try discriminate. eauto. Qed.

Lemma forRange_cons {A S : Type} (body : S → A → result S) (s : S) (x : A)
  (l : list A) :
  forRange body s (x :: l) = s' ← body s x; forRange body s' l.
Proof. reflexivity. Qed.

Lemma forRange_nil {A S : Type} (body : S → A → result S) (s : S) :
  forRange body s [] = Ok s.
Proof. reflexivity. Qed.

Lemma forRange_app {A S : Type} (body : S → A → result S) (s : S)
  (l1 l2 : list A) :
  forRange body s (l1 ++ l2) = s' ← forRange body s l1; forRange body s' l2.
Proof.
  revert s. induction l1 as [|x l1 IH]; intros s; simpl; [done|].
  destruct (body s x); simpl; auto.
Qed.

(** A loop whose body only appends to the state. *)
Lemma forRange_append {A B : Type} (f : A → B) (s : list B) (l : list A) :
  forRange (λ s x, Ok (s ++ [f x])) s l = Ok (s ++ map f l).
Proof.
  revert s. induction l as [|x l IH]; intros s; simpl.
  - by rewrite app_nil_r.
  - rewrite IH. by rewrite <- app_assoc.
Qed.

Lemma createSteps_loop (l : list (string * any)) (steps : list Step) :
  forRange (λ steps '(rStepOperation, rStepParams),
      Ok (steps ++ [mkStep rStepOperation (parametersOf rStepParams)]))
    steps l
  = Ok (steps ++ map (λ p, mkStep p.1 (parametersOf p.2)) l).
Proof.
  revert steps. induction l as [|[k v] l IH]; intros steps; simpl.
  - by rewrite app_nil_r.
  - rewrite IH. by rewrite <- app_assoc.
Qed.

Lemma createChecks_loop (l : list (string * any)) (checks : list Check) :
  forRange (λ checks '(rCheckName, rCheckParams),
      Ok (checks ++ [mkCheck rCheckName (parametersOf rCheckParams)]))
    checks l
  = Ok (checks ++ map (λ p, mkCheck p.1 (parametersOf p.2)) l).
Proof.
  revert checks. induction l as [|[k v] l IH]; intros checks; simpl.
  - by rewrite app_nil_r.
  - rewrite IH. by rewrite <- app_assoc.
Qed.

(** ** The registry and [$ref] *)

Lemma resolves_getStepsByReference definitions refName :
  resolves (Definitions_Steps definitions) "steps" refName
    (getStepsByReference definitions refName).
Proof.
  unfold resolves, getStepsByReference.
  by destruct (Definitions_Steps definitions !! refName).
Qed.

Lemma resolves_getFiltersByReference definitions refName :
  resolves (Definitions_Filters definitions) "filters" refName
    (getFiltersByReference definitions refName).
Proof.
  unfold resolves, getFiltersByReference.
  by destruct (Definitions_Filters definitions !! refName).
Qed.

Lemma resolves_getConditionsByReference definitions refName :
  resolves (Definitions_Conditions definitions) "conditions" refName
    (getConditionsByReference definitions refName).
Proof.
  unfold resolves, getConditionsByReference.
  by destruct (Definitions_Conditions definitions !! refName).
Qed.

Lemma resolves_getResponseByReference definitions refName :
  resolves (Definitions_Responses definitions) "responses" refName
    (getResponseByReference definitions refName).
Proof.
  unfold resolves, getResponseByReference.
  by destruct (Definitions_Responses definitions !! refName).
Qed.

Lemma extractString_Some input name str :
  input !! name = Some (AString str) → extractString input name = Ok (Some str).
Proof. intros H. unfold extractString. by rewrite H. Qed.

Lemma extractString_None input name :
  input !! name = None → extractString input name = Ok None.
Proof. intros H. unfold extractString. by rewrite H. Qed.

Lemma extractSliceOfAny_Some input name l :
  input !! name = Some (ASlice l) → extractSliceOfAny input name = Ok (Some l).
Proof. intros H. unfold extractSliceOfAny. by rewrite H. Qed.

Lemma extractSliceOfAny_None input name :
  input !! name = None → extractSliceOfAny input name = Ok None.
Proof. intros H. unfold extractSliceOfAny. by rewrite H. Qed.

Lemma extractStringMap_Some input name m :
  input !! name = Some (AMap m) → extractStringMap input name = Ok (Some m).
Proof. intros H. unfold extractStringMap. by rewrite H. Qed.

Lemma extractStringMap_None input name :
  input !! name = None → extractStringMap input name = Ok None.
Proof. intros H. unfold extractStringMap. by rewrite H. Qed.

(** Each builder hands a [$ref] to the lookup of its namespace. *)
Lemma createSteps_ref range rStepItem definitions refName :
  rStepItem !! "$ref" = Some (AString refName) → size rStepItem ≤ 1 →
  createSteps range rStepItem definitions
  = getStepsByReference definitions refName.
Proof.
  intros Href Hsize. unfold createSteps.
  rewrite bool_decide_eq_false_2 by lia.
  by rewrite (extractString_Some _ _ _ Href).
Qed.

Lemma createFilters_ref range rFilterItem definitions refName :
  rFilterItem !! "$ref" = Some (AString refName) →
  createFilters range definitions rFilterItem
  = getFiltersByReference definitions refName.
Proof.
  intros Href. unfold createFilters.
  by rewrite (extractString_Some _ _ _ Href).
Qed.

Lemma createConditions_ref range fuel rConditionItem definitions refName :
  rConditionItem !! "$ref" = Some (AString refName) →
  createConditions range (S fuel) definitions rConditionItem
  = getConditionsByReference definitions refName.
Proof.
  intros Href. simpl.
  by rewrite (extractString_Some _ _ _ Href).
Qed.

Lemma createResponse_ref range rResponse definitions refName :
  rResponse !! "$ref" = Some (AString refName) →
  createResponse range rResponse definitions
  = getResponseByReference definitions refName.
Proof.
  intros Href. unfold createResponse.
  by rewrite (extractString_Some _ _ _ Href).
Qed.

(** C6. A [$ref] to a name of the relevant namespace resolves to exactly
    the value(s) stored under that name, and a [$ref] to a name that the
    namespace lacks fails with the unknown-definition error carrying the
    namespace and the name: it neither panics nor yields a value.  This
    holds of the four lookups and of the four builders reading a [$ref]. *)
Theorem reference_resolution range fuel definitions rItem refName :
  rItem !! "$ref" = Some (AString refName) →
  resolves (Definitions_Steps definitions) "steps" refName
      (getStepsByReference definitions refName)
  ∧ resolves (Definitions_Filters definitions) "filters" refName
      (getFiltersByReference definitions refName)
  ∧ resolves (Definitions_Conditions definitions) "conditions" refName
      (getConditionsByReference definitions refName)
  ∧ resolves (Definitions_Responses definitions) "responses" refName
      (getResponseByReference definitions refName)
  ∧ resolves (Definitions_Steps definitions) "steps" refName
      (createSteps range {[ "$ref" := AString refName ]} definitions)
  ∧ resolves (Definitions_Filters definitions) "filters" refName
      (createFilters range definitions rItem)
  ∧ resolves (Definitions_Conditions definitions) "conditions" refName
      (createConditions range (S fuel) definitions rItem)
  ∧ resolves (Definitions_Responses definitions) "responses" refName
      (createResponse range rItem definitions).
Proof.
  intros Href.
  rewrite (createSteps_ref range _ definitions refName),
    (createFilters_ref range _ definitions refName Href),
    (createConditions_ref range fuel _ definitions refName Href),
    (createResponse_ref range _ definitions refName Href).
  - auto 10 using resolves_getStepsByReference, resolves_getFiltersByReference,
      resolves_getConditionsByReference, resolves_getResponseByReference.
  - apply lookup_singleton_eq.
  - by rewrite map_size_singleton.
Qed.

Lemma reference_resolution_witness :
  createFilters canonical sampleDefinitions {[ "$ref" := AString "n" ]}
    = Ok [mkFilter "id" "" []]
  ∧ createResponse canonical {[ "$ref" := AString "m" ]} sampleDefinitions
    = Err (errUnknownDefinition "responses" "m").
Proof.
  split.
  - apply (reference_resolution canonical 0 sampleDefinitions
             {[ "$ref" := AString "n" ]} "n"). reflexivity.
  - apply (reference_resolution canonical 0 sampleDefinitions
             {[ "$ref" := AString "m" ]} "m"). reflexivity.
Defined.

(** ** Step and check items *)

Lemma createSteps_single_key range rStepItem definitions :
  createSteps range rStepItem definitions = Err errObjectMustHaveSingleKey
  ↔ 1 < size rStepItem.
Proof.
  unfold createSteps. case_bool_decide as Hsize; [done|].
  split; [|done]. unfold extractString.
  destruct (rStepItem !! "$ref") as [[]|]; simpl; try discriminate.
  - unfold getStepsByReference.
    destruct (Definitions_Steps definitions !! s); discriminate.
  - by rewrite createSteps_loop.
Qed.

Lemma createChecks_app range (pre post : list any) :
  Forall singleKeyObject pre →
  ∃ checks,
    createChecks range pre = Ok checks
    ∧ createChecks range (pre ++ post)
      = forRange (λ checks rCheck,
            match rCheck with
            | AMap rCheckMap =>
                if bool_decide (size rCheckMap ≠ 1)
                then Err errObjectMustHaveSingleKey else
                forRange (λ checks '(rCheckName, rCheckParams),
                    Ok (checks
                        ++ [mkCheck rCheckName (parametersOf rCheckParams)]))
                  checks (range _ rCheckMap)
            | _ =>
                Err (errInvalidInputReason "each check item must be an object")
            end)
          checks post.
Proof.
  intros Hpre. unfold createChecks. rewrite forRange_app.
  match goal with |- context [forRange ?b [] pre] => set (body := b) end.
  assert (Hbody : ∀ acc m, size m = 1 →
            body acc (AMap m)
            = Ok (acc ++ map (λ p, mkCheck p.1 (parametersOf p.2)) (range _ m))).
  { intros acc m Hm. unfold body.
    rewrite bool_decide_eq_false_2 by (intros ?; done).
    apply createChecks_loop. }
  assert (Hloop : ∀ acc, ∃ checks, forRange body acc pre = Ok checks).
  { clearbody body. induction Hpre as [|x pre (m & -> & Hm) _ IH]; intros acc.
    - by exists acc.
    - rewrite forRange_cons, (Hbody _ _ Hm), bind_Ok. apply IH. }
  destruct (Hloop []) as [checks Hchecks]. exists checks.
  by rewrite Hchecks.
Qed.

(** The first item of a checks list that is an object with no key, or with
    two or more, stops [createChecks] with the single-key error. *)
Lemma createChecks_single_key range (pre post : list any) rCheckMap :
  Forall singleKeyObject pre → size rCheckMap ≠ 1 →
  createChecks range (pre ++ AMap rCheckMap :: post)
  = Err errObjectMustHaveSingleKey.
Proof.
  intros Hpre Hsize.
  destruct (createChecks_app range pre (AMap rCheckMap :: post) Hpre)
    as (checks & _ & ->).
  rewrite forRange_cons. cbv beta iota. by rewrite bool_decide_eq_true_2.
Qed.

(** C4, as the code has it.  Both builders count keys: a check item with a
    key count other than one fails with the single-key error, and a step
    item with more than one key fails with the same error inside
    [createSteps], and for no other reason. *)
Theorem single_key_objects range definitions :
  (∀ rStepItem,
     createSteps range rStepItem definitions = Err errObjectMustHaveSingleKey
     ↔ 1 < size rStepItem)
  ∧ (∀ pre rCheckMap post,
       Forall singleKeyObject pre → size rCheckMap ≠ 1 →
       createChecks range (pre ++ AMap rCheckMap :: post)
       = Err errObjectMustHaveSingleKey).
Proof.
  split.
  - intros. apply createSteps_single_key.
  - intros. by apply createChecks_single_key.
Qed.

Lemma single_key_objects_witness :
  createChecks canonical
    ([AMap {[ "equals" := AString "admin" ]}] ++ AMap ∅ :: [])
  = Err errObjectMustHaveSingleKey.
Proof.
  apply (single_key_objects canonical noDefinitions).
  - repeat constructor. eexists. split; [reflexivity|]. vm_compute. reflexivity.
  - vm_compute. lia.
Defined.

(** C4, as stated, fails: a step item with two keys is rejected by the key
    count of the step builder itself. *)
Lemma step_key_count_counterexample :
  size rStepTwoKeys = 2
  ∧ createSteps canonical rStepTwoKeys noDefinitions
    = Err errObjectMustHaveSingleKey.
Proof. split; vm_compute; reflexivity. Qed.

(** C10. A step item that is the empty mapping builds no step and no error:
    [createSteps] gives the empty list, and a definition [name: [{}]] is
    registered with an empty step list. *)
Theorem empty_step_item range definitions stepName :
  valid_range range →
  createSteps range ∅ definitions = Ok []
  ∧ fillStepsItems range [] [AMap ∅] definitions = Ok []
  ∧ fillStepsMap range {[ stepName := ASlice [AMap ∅] ]} definitions
    = Ok (setDefinitionsSteps
            (<[ stepName := [] ]> (Definitions_Steps definitions)) definitions).
Proof.
  intros Hrange.
  assert (Hcreate : createSteps range ∅ definitions = Ok []).
  { unfold createSteps. rewrite map_size_empty. simpl.
    rewrite extractString_None by apply lookup_empty. simpl.
    by rewrite range_empty. }
  assert (Hitems : fillStepsItems range [] [AMap ∅] definitions = Ok []).
  { unfold fillStepsItems, fillStepsItem. simpl. by rewrite Hcreate. }
  split; [done|]. split; [done|].
  unfold fillStepsMap. rewrite range_singleton by done. simpl.
  by rewrite Hitems.
Qed.

Lemma empty_step_item_witness :
  fillStepsMap canonical {[ "name" := ASlice [AMap ∅] ]} noDefinitions
  = Ok (setDefinitionsSteps {[ "name" := [] ]} noDefinitions).
Proof.
  apply (empty_step_item canonical noDefinitions "name").
  intros A m. reflexivity.
Defined.

(** ** Conditions *)

Lemma createConditions_unfold range fuel definitions rConditionItem :
  createConditions range (S fuel) definitions rConditionItem
  = r ← extractString rConditionItem "$ref";
    match r with
    | Some refName => getConditionsByReference definitions refName
    | None =>
        sliceAny ← extractSliceOfAny rConditionItem "any";
        match sliceAny with
        | Some sliceAny =>
            any ← fillConditionsItems (createConditions range fuel) []
              sliceAny definitions;
            Ok [mkCondition any [] "" []]
        | None =>
            sliceAll ← extractSliceOfAny rConditionItem "all";
            match sliceAll with
            | Some sliceAll =>
                all ← fillConditionsItems (createConditions range fuel) []
                  sliceAll definitions;
                Ok [mkCondition [] all "" []]
            | None =>
                condition ← fillString setConditionSource rConditionItem
                  "source" zeroCondition;
                if bool_decide (Condition_Source condition = "")
                then Err (errInvalidInputReason "condition must have a source")
                else
                rChecks ← extractSliceOfAny rConditionItem "checks";
                match rChecks with
                | None => Err (errInvalidInputReason "checks must be an array")
                | Some rChecks =>
                    checks ← createChecks range rChecks;
                    Ok [setConditionChecks checks condition]
                end
            end
        end
    end.
Proof. reflexivity. Qed.

Lemma createConditions_any range fuel definitions rConditionItem sliceAny :
  rConditionItem !! "$ref" = None →
  rConditionItem !! "any" = Some (ASlice sliceAny) →
  createConditions range (S fuel) definitions rConditionItem
  = any ← fillConditionsItems (createConditions range fuel) [] sliceAny
            definitions;
    Ok [mkCondition any [] "" []].
Proof.
  intros Href Hany. simpl.
  rewrite (extractString_None _ _ Href), bind_Ok.
  by rewrite (extractSliceOfAny_Some _ _ _ Hany), bind_Ok.
Qed.

Lemma createConditions_all range fuel definitions rConditionItem sliceAll :
  rConditionItem !! "$ref" = None →
  rConditionItem !! "any" = None →
  rConditionItem !! "all" = Some (ASlice sliceAll) →
  createConditions range (S fuel) definitions rConditionItem
  = all ← fillConditionsItems (createConditions range fuel) [] sliceAll
            definitions;
    Ok [mkCondition [] all "" []].
Proof.
  intros Href Hany Hall. simpl.
  rewrite (extractString_None _ _ Href), bind_Ok.
  rewrite (extractSliceOfAny_None _ _ Hany), bind_Ok.
  by rewrite (extractSliceOfAny_Some _ _ _ Hall), bind_Ok.
Qed.

Lemma createConditions_source range fuel definitions rConditionItem source :
  rConditionItem !! "$ref" = None →
  rConditionItem !! "any" = None →
  rConditionItem !! "all" = None →
  rConditionItem !! "source" = Some (AString source) → source ≠ "" →
  createConditions range (S fuel) definitions rConditionItem
  = rChecks ← extractSliceOfAny rConditionItem "checks";
    match rChecks with
    | None => Err (errInvalidInputReason "checks must be an array")
    | Some rChecks =>
        checks ← createChecks range rChecks;
        Ok [mkCondition [] [] source checks]
    end.
Proof.
  intros Href Hany Hall Hsource Hne. simpl.
  rewrite (extractString_None _ _ Href), bind_Ok.
  rewrite (extractSliceOfAny_None _ _ Hany), bind_Ok.
  rewrite (extractSliceOfAny_None _ _ Hall), bind_Ok.
  unfold fillString. rewrite (extractString_Some _ _ _ Hsource), !bind_Ok.
  by rewrite bool_decide_eq_false_2.
Qed.

(** C3, as the code has it.  In the [source]+[checks] shape, [checks] must
    be present: an empty [checks] sequence is accepted and builds one
    condition with that source and no check; an absent one is an error. *)
Theorem condition_checks_presence range fuel definitions rConditionItem source :
  rConditionItem !! "$ref" = None →
  rConditionItem !! "any" = None →
  rConditionItem !! "all" = None →
  rConditionItem !! "source" = Some (AString source) → source ≠ "" →
  (rConditionItem !! "checks" = Some (ASlice []) →
   createConditions range (S fuel) definitions rConditionItem
   = Ok [mkCondition [] [] source []])
  ∧ (rConditionItem !! "checks" = None →
     createConditions range (S fuel) definitions rConditionItem
     = Err (errInvalidInputReason "checks must be an array")).
Proof.
  intros Href Hany Hall Hsource Hne.
  rewrite (createConditions_source range fuel definitions _ source) by done.
  split; intros Hchecks.
  - by rewrite (extractSliceOfAny_Some _ _ _ Hchecks).
  - by rewrite (extractSliceOfAny_None _ _ Hchecks).
Qed.

Lemma condition_checks_presence_witness :
  createConditions canonical 1 noDefinitions rConditionEmptyChecks
  = Ok [mkCondition [] [] "role" []].
Proof.
  by apply (condition_checks_presence canonical 0 noDefinitions
              rConditionEmptyChecks "role").
Defined.

(** C3, as stated, fails: with a source and an empty [checks] sequence the
    condition builder returns a condition, not an error. *)
Lemma empty_checks_counterexample :
  rConditionEmptyChecks !! "$ref" = None
  ∧ rConditionEmptyChecks !! "any" = None
  ∧ rConditionEmptyChecks !! "all" = None
  ∧ rConditionEmptyChecks !! "source" = Some (AString "role")
  ∧ rConditionEmptyChecks !! "checks" = Some (ASlice [])
  ∧ ¬ ∃ e, createConditions canonical 1 noDefinitions rConditionEmptyChecks
           = Err e.
Proof.
  repeat split; try reflexivity.
  intros [e He]. vm_compute in He. discriminate.
Qed.



(** ** Responses *)

Lemma fillString_absent {T : Type} (target : string → T → T) input name t :
  input !! name = None → fillString target input name t = Ok t.
Proof. intros H. unfold fillString. by rewrite (extractString_None _ _ H). Qed.

Lemma fillString_present {T : Type} (target : string → T → T) input name t
  value :
  input !! name = Some (AString value) →
  fillString target input name t = Ok (target value t).
Proof.
  intros H. unfold fillString. by rewrite (extractString_Some _ _ _ H).
Qed.

Lemma fillInt_absent {T : Type} (target : Z → T → T) input name t :
  input !! name = None → fillInt target input name t = Ok t.
Proof. intros H. unfold fillInt, extractInt. by rewrite H. Qed.

Lemma fillStrings_absent {T : Type} range
  (targets : gmap string (string → T → T)) (input : gmap string any) (t : T) :
  valid_range range →
  (∀ name, is_Some (targets !! name) → input !! name = None) →
  fillStrings range targets input t = Ok t.
Proof.
  intros Hrange Habsent. unfold fillStrings.
  assert (Hl : ∀ name target, (name, target) ∈ range _ targets →
               input !! name = None).
  { intros name target Hin. apply Habsent.
    apply (elem_of_range range Hrange) in Hin. eauto. }
  induction (range _ targets) as [|[name target] l IH]; [done|].
  rewrite forRange_cons. cbv beta iota.
  rewrite fillString_absent, bind_Ok.
  - apply IH. intros ? ? ?. eapply Hl. by right.
  - eapply Hl. by left.
Qed.

(** What the assignments of [targets] leave alone, [fillStrings] leaves
    alone. *)
Lemma fillStrings_invariant {T : Type} (P : T → Prop) range
  (targets : gmap string (string → T → T)) (input : gmap string any) (t t' : T) :
  valid_range range →
  (∀ name target value t,
     targets !! name = Some target → P t → P (target value t)) →
  P t → fillStrings range targets input t = Ok t' → P t'.
Proof.
  intros Hrange Htargets. unfold fillStrings.
  assert (Hl : ∀ name target, (name, target) ∈ range _ targets →
               targets !! name = Some target).
  { intros name target Hin. by apply (elem_of_range range Hrange). }
  revert t. induction (range _ targets) as [|[name target] l IH]; intros t Ht.
  - simpl. by intros [= <-].
  - rewrite forRange_cons. cbv beta iota.
    intros (t1 & Hstep & Hrest)%bind_Ok_inv.
    apply (IH (λ n g Hin, Hl n g (list_elem_of_further _ _ _ Hin)) t1);
      [|done].
    unfold fillString in Hstep.
    apply bind_Ok_inv in Hstep as ([value|] & _ & [= <-]); [|done].
    eapply Htargets; [|done]. apply Hl. by left.
Qed.

(** C1 fails on the code: [createResponse] collects the headers in a local
    map that it never stores, so a response that it builds has no header,
    whatever the [headers] field of the document holds. *)
Theorem response_headers_dropped range rResponse definitions response :
  valid_range range →
  rResponse !! "$ref" = None →
  createResponse range rResponse definitions = Ok response →
  Response_Headers response = ∅.
Proof.
  intros Hrange Href. unfold createResponse.
  rewrite (extractString_None _ _ Href), bind_Ok.
  intros (r1 & Hstrings & Hrest)%bind_Ok_inv.
  apply bind_Ok_inv in Hrest as (r2 & Hstatus & Hrest).
  assert (H1 : Response_Headers r1 = ∅).
  { revert Hstrings.
    apply (fillStrings_invariant (λ r, Response_Headers r = ∅)); [done| |done].
    intros name target value t Hlookup Ht. unfold responseStrings in Hlookup.
    apply lookup_insert_Some in Hlookup as [[_ <-]|[_ Hlookup]]; [done|].
    apply lookup_singleton_Some in Hlookup as [_ <-]. done. }
  assert (H2 : Response_Headers r2 = ∅).
  { unfold fillInt in Hstatus.
    apply bind_Ok_inv in Hstatus as ([value|] & _ & [= <-]); done. }
  apply bind_Ok_inv in Hrest as ([rHeaders|] & _ & Hrest).
  - apply bind_Ok_inv in Hrest as (headers & _ & [= <-]). done.
  - by injection Hrest as <-.
Qed.

Lemma response_headers_dropped_witness :
  rResponseHeaders !! "headers"
    = Some (AMap {[ "X-Token" := ASlice [AString "a"; AString "b"] ]})
  ∧ Response_Headers (mkResponse 200 "" ∅ "") = ∅.
Proof.
  split; [reflexivity|].
  apply (response_headers_dropped canonical rResponseHeaders noDefinitions).
  - intros A m. reflexivity.
  - reflexivity.
  - vm_compute. reflexivity.
Defined.

(** The same through [Parse]: the headers of the document are not in the
    tree that it returns. *)
Example Parse_docHeaders :
  Parse canonical (Ok docHeaders)
  = Ok (mkSpec noDefinitions
          [mkEndpoint "" "" "" "/x" "" [] [] []
             (Some (mkResponse 200 "" ∅ ""))]).
Proof. vm_compute. reflexivity. Qed.

Lemma fillHeaderValues_strings headers headerName (values : list string) :
  ∃ headers', fillHeaderValues headers headerName (map AString values)
              = Ok headers'.
Proof.
  unfold fillHeaderValues. revert headers.
  induction values as [|s values IH]; intros headers; simpl; eauto.
Qed.

Lemma fillHeaderValues_panic headers headerName (pre : list string) x post :
  (∀ s, x ≠ AString s) →
  fillHeaderValues headers headerName (map AString pre ++ x :: post) = Panic.
Proof.
  intros Hx. unfold fillHeaderValues. rewrite forRange_app.
  destruct (fillHeaderValues_strings headers headerName pre) as [h' Hh'].
  unfold fillHeaderValues in Hh'. rewrite Hh', bind_Ok, forRange_cons.
  destruct x; try done. by destruct (Hx s).
Qed.

(** C2 fails on the code: a header value that is a sequence with an
    element that is not a string makes [createResponse] panic on the
    unchecked type assertion; no error is returned. *)
Theorem response_header_element_panics range definitions headerName
  (pre : list string) (x : any) (post : list any) :
  valid_range range →
  (∀ s, x ≠ AString s) →
  createResponse range
    {[ "headers" :=
         AMap {[ headerName := ASlice (map AString pre ++ x :: post) ]} ]}
    definitions
  = Panic.
Proof.
  intros Hrange Hx. unfold createResponse.
  rewrite extractString_None, bind_Ok by done.
  rewrite fillStrings_absent; [|done|].
  2:{ intros name [target Hname]. unfold responseStrings in Hname.
      apply lookup_insert_Some in Hname as [[<- _]|[_ Hname]]; [done|].
      by apply lookup_singleton_Some in Hname as [<- _]. }
  rewrite bind_Ok, fillInt_absent, bind_Ok by done.
  rewrite (extractStringMap_Some _ _ _ (lookup_singleton_eq _ _)), bind_Ok.
  rewrite range_singleton by done.
  rewrite forRange_cons. cbv beta iota.
  by rewrite fillHeaderValues_panic.
Qed.

Lemma response_header_element_panics_witness :
  createResponse canonical rResponseIntHeader noDefinitions = Panic.
Proof.
  apply (response_header_element_panics canonical noDefinitions "X-Count"
           [] (AInt 1) []).
  - intros A m. reflexivity.
  - intros s. discriminate.
Defined.

(** Which of the two a run meets first decides between the error and the
    panic. *)
Example createResponse_order :
  createResponse canonical rResponseTwoHeaders noDefinitions
  = Err (errInvalidInputReason "each header values must be an array of strings")
  ∧ createResponse reversed rResponseTwoHeaders noDefinitions = Panic.
Proof. split; vm_compute; reflexivity. Qed.

(** ** Endpoints *)

Lemma bind_assoc {A B C : Type} (x : result A) (f : A → result B)
  (g : B → result C) :
  (x ≫= f) ≫= g = x ≫= (λ a, f a ≫= g).
Proof. by destruct x. Qed.

Lemma createEndpoint_unfold range fuel rEndpoint definitions :
  createEndpoint range (S fuel) rEndpoint definitions
  = endpoint ← endpointFields range fuel rEndpoint definitions;
    if bool_decide (length (Endpoint_Endpoints endpoint) = 0
                    ∧ Endpoint_Response endpoint = None)
    then Err errIncompleteEndpoint
    else Ok endpoint.
Proof.
  unfold endpointFields. simpl.
  destruct (fillStrings range endpointStrings rEndpoint zeroEndpoint);
    simpl; try reflexivity.
  destruct (extractSliceOfAny rEndpoint "filters") as [[l|]| | |];
    simpl; try reflexivity.
  1: destruct (fillFiltersItems range (Endpoint_Filters a) l definitions);
    simpl; try reflexivity.
  all: destruct (extractSliceOfAny rEndpoint "conditions") as [[l'|]| | |];
    simpl; try reflexivity.
  all: try (destruct (fillConditionsItems _ _ l' definitions);
            simpl; try reflexivity).
  all: destruct (extractSliceOfAny rEndpoint "endpoints") as [[l''|]| | |];
    simpl; try reflexivity.
  all: try (destruct (fillEndpoints _ _ l'' definitions);
            simpl; try reflexivity).
  all: destruct (extractStringMap rEndpoint "response") as [[m|]| | |];
    simpl; try reflexivity.
  all: destruct (fillResponseItem range m definitions); reflexivity.
Qed.

Lemma fillStrings_accepted {T : Type} range
  (targets : gmap string (string → T → T)) (input : gmap string any) (t : T) :
  valid_range range →
  (∀ name, is_Some (targets !! name) → stringOrAbsent input name) →
  ∃ t', fillStrings range targets input t = Ok t'.
Proof.
  intros Hrange Hacc. unfold fillStrings.
  assert (Hl : ∀ name target, (name, target) ∈ range _ targets →
               stringOrAbsent input name).
  { intros name target Hin. apply Hacc.
    apply (elem_of_range range Hrange) in Hin. eauto. }
  revert t. induction (range _ targets) as [|[name target] l IH]; intros t.
  - by exists t.
  - rewrite forRange_cons. cbv beta iota.
    assert (Hname : stringOrAbsent input name) by (eapply Hl; by left).
    unfold stringOrAbsent in Hname.
    destruct (input !! name) as [[]|] eqn:Hlookup; try done.
    + rewrite (fillString_present _ _ _ _ _ Hlookup), bind_Ok.
      apply IH. intros ? ? ?. eapply Hl. by right.
    + rewrite (fillString_absent _ _ _ _ Hlookup), bind_Ok.
      apply IH. intros ? ? ?. eapply Hl. by right.
Qed.

(** The string fields of an endpoint are all that [fillStrings] assigns. *)
Lemma endpointStrings_lists range rEndpoint endpoint :
  valid_range range →
  fillStrings range endpointStrings rEndpoint zeroEndpoint = Ok endpoint →
  Endpoint_Filters endpoint = [] ∧ Endpoint_Conditions endpoint = []
  ∧ Endpoint_Endpoints endpoint = [] ∧ Endpoint_Response endpoint = None.
Proof.
  intros Hrange.
  apply (fillStrings_invariant
           (λ e, Endpoint_Filters e = [] ∧ Endpoint_Conditions e = []
                 ∧ Endpoint_Endpoints e = [] ∧ Endpoint_Response e = None));
    [done| |done].
  intros name target value t Hlookup Ht. unfold endpointStrings in Hlookup.
  repeat (apply lookup_insert_Some in Hlookup as [[_ <-]|[_ Hlookup]];
          [done|]).
  by apply lookup_singleton_Some in Hlookup as [_ <-].
Qed.

Lemma fillFiltersItems_empty range filters definitions :
  fillFiltersItems range filters [] definitions
  = Err (errInvalidInputReason "each filter must have at least one item").
Proof. reflexivity. Qed.

Lemma fillConditionsItems_empty createConditions conditions definitions :
  fillConditionsItems createConditions conditions [] definitions
  = Err (errInvalidInputReason "each condition must have at least one item").
Proof. reflexivity. Qed.

(** The first two list fields of an endpoint, once accepted. *)
Lemma endpointFields_filters range definitions rEndpoint endpoint :
  filtersAccepted range definitions rEndpoint →
  Endpoint_Filters endpoint = [] →
  ∃ filters,
    (rFilterItems ← extractSliceOfAny rEndpoint "filters";
     match rFilterItems with
     | Some rFilterItems =>
         filters ← fillFiltersItems range (Endpoint_Filters endpoint)
           rFilterItems definitions;
         Ok (setEndpointFilters filters endpoint)
     | None => Ok endpoint
     end) = Ok (setEndpointFilters filters endpoint).
Proof.
  unfold filtersAccepted, extractSliceOfAny. intros Hacc Hnil.
  destruct (rEndpoint !! "filters") as [[]|]; try done.
  - destruct Hacc as [filters Hfilters]. exists filters.
    by rewrite bind_Ok, Hnil, Hfilters.
  - exists []. rewrite bind_Ok. destruct endpoint. simpl in Hnil. by subst.
Qed.

Lemma endpointFields_conditions range fuel definitions rEndpoint endpoint :
  conditionsAccepted range fuel definitions rEndpoint →
  Endpoint_Conditions endpoint = [] →
  ∃ conditions,
    (rConditionItems ← extractSliceOfAny rEndpoint "conditions";
     match rConditionItems with
     | Some rConditionItems =>
         conditions ← fillConditionsItems (createConditions range fuel)
           (Endpoint_Conditions endpoint) rConditionItems definitions;
         Ok (setEndpointConditions conditions endpoint)
     | None => Ok endpoint
     end) = Ok (setEndpointConditions conditions endpoint).
Proof.
  unfold conditionsAccepted, extractSliceOfAny. intros Hacc Hnil.
  destruct (rEndpoint !! "conditions") as [[]|]; try done.
  - destruct Hacc as [conditions Hconditions]. exists conditions.
    by rewrite bind_Ok, Hnil, Hconditions.
  - exists []. rewrite bind_Ok. destruct endpoint. simpl in Hnil. by subst.
Qed.

(** An endpoint whose fields are accepted and that has no sub-endpoint:
    what is built before the last check. *)
Lemma endpointFields_leaf range fuel definitions rEndpoint :
  valid_range range →
  endpointStringsAccepted rEndpoint →
  filtersAccepted range definitions rEndpoint →
  conditionsAccepted range fuel definitions rEndpoint →
  rEndpoint !! "endpoints" = None ∨ rEndpoint !! "endpoints" = Some (ASlice []) →
  ∃ endpoint,
    Endpoint_Endpoints endpoint = [] ∧ Endpoint_Response endpoint = None
    ∧ (rEndpoint !! "filters" = None → Endpoint_Filters endpoint = [])
    ∧ (rEndpoint !! "conditions" = None → Endpoint_Conditions endpoint = [])
    ∧ endpointFields range fuel rEndpoint definitions
      = rResponse ← extractStringMap rEndpoint "response";
        match rResponse with
        | Some rResponse =>
            response ← fillResponseItem range rResponse definitions;
            Ok (setEndpointResponse (Some response) endpoint)
        | None => Ok endpoint
        end.
Proof.
  intros Hrange Hstrings Hfilters Hconditions Hendpoints.
  destruct (fillStrings_accepted range endpointStrings rEndpoint zeroEndpoint
              Hrange) as [e1 He1].
  { intros name [target Hname]. by apply (Hstrings name target). }
  destruct (endpointStrings_lists range _ _ Hrange He1) as (Hf1 & Hc1 & He & Hr).
  destruct (endpointFields_filters range definitions rEndpoint e1 Hfilters Hf1)
    as [filters Hfs].
  destruct (endpointFields_conditions range fuel definitions rEndpoint
              (setEndpointFilters filters e1) Hconditions Hc1)
    as [conditions Hcs].
  exists (setEndpointConditions conditions (setEndpointFilters filters e1)).
  split; [done|]. split; [done|]. split; [|split].
  - intros Hnone. simpl. unfold extractSliceOfAny in Hfs.
    rewrite Hnone, bind_Ok in Hfs. injection Hfs as Hfs.
    apply (f_equal Endpoint_Filters) in Hfs. simpl in Hfs. congruence.
  - intros Hnone. simpl. unfold extractSliceOfAny in Hcs.
    rewrite Hnone, bind_Ok in Hcs. injection Hcs as Hcs.
    simpl in *. congruence.
  - unfold endpointFields. rewrite He1, bind_Ok.
    rewrite <- (bind_assoc (extractSliceOfAny rEndpoint "filters")).
    rewrite Hfs, bind_Ok.
    rewrite <- (bind_assoc (extractSliceOfAny rEndpoint "conditions")).
    rewrite Hcs, bind_Ok.
    unfold extractSliceOfAny.
    destruct Hendpoints as [-> | ->]; rewrite !bind_Ok; [done|].
    unfold fillEndpoints. rewrite forRange_nil, !bind_Ok.
    clear Hfs Hcs He1. destruct e1. simpl in *. by subst.
Qed.





(** ** Two runs of the same builder

    The builders are compared between two runs, each with its own order
    over maps, and against two registries that agree where both are
    defined: when both runs return a value, it is the same value. *)

Lemma fillStrings_assign {T : Type} range
  (targets : gmap string (string → T → T)) (input : gmap string any) (t t' : T) :
  fillStrings range targets input t = Ok t' →
  t' = foldl (assignString input) t (range _ targets).
Proof.
  unfold fillStrings. revert t.
  induction (range _ targets) as [|[name target] l IH]; intros t.
  - simpl. by intros [= <-].
  - rewrite forRange_cons. cbv beta iota.
    intros (t1 & Hstep & Hrest)%bind_Ok_inv.
    simpl. rewrite (IH _ Hrest). f_equal.
    unfold fillString, extractString in Hstep. unfold assignString. simpl.
    destruct (input !! name) as [[]|]; simpl in Hstep; congruence.
Qed.

Lemma assignString_permutation {T : Type}
  (targets : gmap string (string → T → T)) (input : gmap string any)
  (l1 l2 : list (string * (string → T → T))) (t : T) :
  commuting targets →
  l1 ≡ₚ l2 → NoDup l1.*1 →
  (∀ name target, (name, target) ∈ l1 → targets !! name = Some target) →
  foldl (assignString input) t l1 = foldl (assignString input) t l2.
Proof.
  intros Hcomm Hperm. revert t.
  induction Hperm as [|x l1 l2 Hperm IH|x y l|l1 l2 l3 Hperm1 IH1 Hperm2 IH2];
    intros t Hnodup Hin.
  - done.
  - simpl. apply IH.
    + by apply NoDup_cons in Hnodup as [_ ?].
    + intros ? ? ?. apply Hin. by right.
  - simpl. f_equal. destruct x as [n1 f1], y as [n2 f2].
    unfold assignString. simpl.
    assert (n2 ≠ n1).
    { apply NoDup_cons in Hnodup as [Hn _]. intros ->. apply Hn. by left. }
    destruct (input !! n1) as [[]|], (input !! n2) as [[]|]; try done.
    apply (Hcomm n1 n2); [done| |]; apply Hin.
    + right. by left.
    + by left.
  - rewrite IH1 by done. apply IH2.
    + by rewrite <- Hperm1.
    + intros name target Hel. apply Hin. by rewrite Hperm1.
Qed.

Lemma fillStrings_agree {T : Type} r1 r2
  (targets : gmap string (string → T → T)) (input : gmap string any)
  (t t1 t2 : T) :
  valid_range r1 → valid_range r2 → commuting targets →
  fillStrings r1 targets input t = Ok t1 →
  fillStrings r2 targets input t = Ok t2 →
  t1 = t2.
Proof.
  intros H1 H2 Hcomm ->%fillStrings_assign ->%fillStrings_assign.
  apply (assignString_permutation targets); [done| | |].
  - by rewrite (H1 _ targets), (H2 _ targets).
  - by apply range_NoDup_fst.
  - intros name target. by apply elem_of_range.
Qed.

Lemma filterStrings_commuting : commuting filterStrings.
Proof.
  intros n1 n2 f1 f2 v1 v2 t Hne Hl1 Hl2. unfold filterStrings in *.
  repeat (apply lookup_insert_Some in Hl1 as [[<- <-]|[? Hl1]]);
    try apply lookup_singleton_Some in Hl1 as [<- <-];
    repeat (apply lookup_insert_Some in Hl2 as [[<- <-]|[? Hl2]]);
    try apply lookup_singleton_Some in Hl2 as [<- <-];
    done.
Qed.

Lemma responseStrings_commuting : commuting responseStrings.
Proof.
  intros n1 n2 f1 f2 v1 v2 t Hne Hl1 Hl2. unfold responseStrings in *.
  repeat (apply lookup_insert_Some in Hl1 as [[<- <-]|[? Hl1]]);
    try apply lookup_singleton_Some in Hl1 as [<- <-];
    repeat (apply lookup_insert_Some in Hl2 as [[<- <-]|[? Hl2]]);
    try apply lookup_singleton_Some in Hl2 as [<- <-];
    done.
Qed.

Lemma endpointStrings_commuting : commuting endpointStrings.
Proof.
  intros n1 n2 f1 f2 v1 v2 t Hne Hl1 Hl2. unfold endpointStrings in *.
  repeat (apply lookup_insert_Some in Hl1 as [[<- <-]|[? Hl1]]);
    try apply lookup_singleton_Some in Hl1 as [<- <-];
    repeat (apply lookup_insert_Some in Hl2 as [[<- <-]|[? Hl2]]);
    try apply lookup_singleton_Some in Hl2 as [<- <-];
    done.
Qed.

Lemma forRange_agree {A S : Type} (body1 body2 : S → A → result S)
  (l : list A) (s s1 s2 : S) :
  (∀ s x s1 s2, x ∈ l → body1 s x = Ok s1 → body2 s x = Ok s2 → s1 = s2) →
  forRange body1 s l = Ok s1 → forRange body2 s l = Ok s2 → s1 = s2.
Proof.
  revert s. induction l as [|x l IH]; intros s Hbody; simpl.
  - congruence.
  - intros (a1 & Ha1 & Hr1)%bind_Ok_inv (a2 & Ha2 & Hr2)%bind_Ok_inv.
    assert (a1 = a2) as -> by (eapply Hbody; [by left|done..]).
    eapply IH; [|done..]. intros ? ? ? ? ?. eapply Hbody. by right.
Qed.

Lemma compatMap_refl {A : Type} (m : gmap string A) : compatMap m m.
Proof. intros name v1 v2 H1 H2. congruence. Qed.

Lemma compat_refl definitions : compat definitions definitions.
Proof. repeat split; apply compatMap_refl. Qed.

Section Agree.

Variables r1 r2 : ∀ A : Type, gmap string A → list (string * A).
Hypothesis r1_valid : valid_range r1.
Hypothesis r2_valid : valid_range r2.
Variables d1 d2 : Definitions.
Hypothesis d1_d2 : compat d1 d2.

Lemma getStepsByReference_agree refName v1 v2 :
  getStepsByReference d1 refName = Ok v1 →
  getStepsByReference d2 refName = Ok v2 → v1 = v2.
Proof.
  unfold getStepsByReference.
  destruct (Definitions_Steps d1 !! refName) eqn:E1; [|done].
  destruct (Definitions_Steps d2 !! refName) eqn:E2; [|done].
  intros [= <-] [= <-]. by apply (proj1 d1_d2 refName).
Qed.

Lemma getFiltersByReference_agree refName v1 v2 :
  getFiltersByReference d1 refName = Ok v1 →
  getFiltersByReference d2 refName = Ok v2 → v1 = v2.
Proof.
  unfold getFiltersByReference.
  destruct (Definitions_Filters d1 !! refName) eqn:E1; [|done].
  destruct (Definitions_Filters d2 !! refName) eqn:E2; [|done].
  intros [= <-] [= <-]. by apply (proj1 (proj2 d1_d2) refName).
Qed.

Lemma getConditionsByReference_agree refName v1 v2 :
  getConditionsByReference d1 refName = Ok v1 →
  getConditionsByReference d2 refName = Ok v2 → v1 = v2.
Proof.
  unfold getConditionsByReference.
  destruct (Definitions_Conditions d1 !! refName) eqn:E1; [|done].
  destruct (Definitions_Conditions d2 !! refName) eqn:E2; [|done].
  intros [= <-] [= <-]. by apply (proj1 (proj2 (proj2 d1_d2)) refName).
Qed.

Lemma getResponseByReference_agree refName v1 v2 :
  getResponseByReference d1 refName = Ok v1 →
  getResponseByReference d2 refName = Ok v2 → v1 = v2.
Proof.
  unfold getResponseByReference.
  destruct (Definitions_Responses d1 !! refName) eqn:E1; [|done].
  destruct (Definitions_Responses d2 !! refName) eqn:E2; [|done].
  intros [= <-] [= <-]. by apply (proj2 (proj2 (proj2 d1_d2)) refName).
Qed.

Lemma createSteps_agree rStepItem v1 v2 :
  createSteps r1 rStepItem d1 = Ok v1 →
  createSteps r2 rStepItem d2 = Ok v2 → v1 = v2.
Proof.
  unfold createSteps. case_bool_decide as Hsize; [done|].
  destruct (extractString rStepItem "$ref") as [[refName|]| | |];
    try done; rewrite !bind_Ok.
  - apply getStepsByReference_agree.
  - rewrite !createSteps_loop.
    rewrite (range_small_agree r1 r2 _ rStepItem) by (done || lia).
    congruence.
Qed.

Lemma fillStepsItems_agree steps rStepItems v1 v2 :
  fillStepsItems r1 steps rStepItems d1 = Ok v1 →
  fillStepsItems r2 steps rStepItems d2 = Ok v2 → v1 = v2.
Proof.
  unfold fillStepsItems. case_bool_decide; [done|].
  apply forRange_agree. intros s x s1 s2 _.
  destruct x; try done. unfold fillStepsItem.
  intros (a1 & Ha1 & [= <-])%bind_Ok_inv (a2 & Ha2 & [= <-])%bind_Ok_inv.
  by rewrite (createSteps_agree _ _ _ Ha1 Ha2).
Qed.

Lemma createFilters_agree rFilterItem v1 v2 :
  createFilters r1 d1 rFilterItem = Ok v1 →
  createFilters r2 d2 rFilterItem = Ok v2 → v1 = v2.
Proof.
  unfold createFilters.
  destruct (extractString rFilterItem "$ref") as [[refName|]| | |];
    try done; rewrite !bind_Ok.
  - apply getFiltersByReference_agree.
  - intros (f1 & Hf1 & Hrest1)%bind_Ok_inv (f2 & Hf2 & Hrest2)%bind_Ok_inv.
    assert (f1 = f2) as ->
      by exact (fillStrings_agree r1 r2 _ _ _ _ _ r1_valid r2_valid
                  filterStrings_commuting Hf1 Hf2).
    case_bool_decide; [done|].
    destruct (extractSliceOfAny rFilterItem "steps") as [[rSteps|]| | |];
      try done; rewrite !bind_Ok in Hrest1, Hrest2; [|congruence].
    apply bind_Ok_inv in Hrest1 as (g1 & Hg1 & [= <-]).
    apply bind_Ok_inv in Hrest2 as (g2 & Hg2 & [= <-]).
    f_equal. revert Hg1 Hg2. apply forRange_agree.
    intros s x s1 s2 _. destruct x; try done.
    intros (a1 & Ha1 & [= <-])%bind_Ok_inv (a2 & Ha2 & [= <-])%bind_Ok_inv.
    by rewrite (createSteps_agree _ _ _ Ha1 Ha2).
Qed.

Lemma fillFiltersItems_agree filters rFilterItems v1 v2 :
  fillFiltersItems r1 filters rFilterItems d1 = Ok v1 →
  fillFiltersItems r2 filters rFilterItems d2 = Ok v2 → v1 = v2.
Proof.
  unfold fillFiltersItems. case_bool_decide; [done|].
  apply forRange_agree. intros s x s1 s2 _.
  destruct x; try done. unfold fillFiltersItem.
  intros (a1 & Ha1 & [= <-])%bind_Ok_inv (a2 & Ha2 & [= <-])%bind_Ok_inv.
  by rewrite (createFilters_agree _ _ _ Ha1 Ha2).
Qed.

Lemma createChecks_agree rChecks v1 v2 :
  createChecks r1 rChecks = Ok v1 → createChecks r2 rChecks = Ok v2 → v1 = v2.
Proof.
  unfold createChecks. apply forRange_agree. intros s x s1 s2 _.
  destruct x; try done. case_bool_decide as Hsize; [done|].
  rewrite !createChecks_loop.
  rewrite (range_small_agree r1 r2 _ m) by (done || lia). congruence.
Qed.

Lemma fillConditionsItems_agree
  (create1 create2 : Definitions → gmap string any → result (list Condition))
  conditions rConditionItems v1 v2 :
  (∀ m c1 c2, create1 d1 m = Ok c1 → create2 d2 m = Ok c2 → c1 = c2) →
  fillConditionsItems create1 conditions rConditionItems d1 = Ok v1 →
  fillConditionsItems create2 conditions rConditionItems d2 = Ok v2 →
  v1 = v2.
Proof.
  intros Hcreate. unfold fillConditionsItems. case_bool_decide; [done|].
  apply forRange_agree. intros s x s1 s2 _.
  destruct x; try done. unfold fillConditionsItem.
  intros (a1 & Ha1 & [= <-])%bind_Ok_inv (a2 & Ha2 & [= <-])%bind_Ok_inv.
  by rewrite (Hcreate _ _ _ Ha1 Ha2).
Qed.

Lemma createConditions_agree fuel rConditionItem v1 v2 :
  createConditions r1 fuel d1 rConditionItem = Ok v1 →
  createConditions r2 fuel d2 rConditionItem = Ok v2 → v1 = v2.
Proof.
  revert rConditionItem v1 v2.
  induction fuel as [|fuel IH]; intros rConditionItem v1 v2; [done|].
  rewrite !createConditions_unfold.
  destruct (extractString rConditionItem "$ref") as [[refName|]| | |];
    try done; rewrite !bind_Ok.
  { apply getConditionsByReference_agree. }
  destruct (extractSliceOfAny rConditionItem "any") as [[sliceAny|]| | |];
    try done; rewrite !bind_Ok.
  { intros (a1 & Ha1 & [= <-])%bind_Ok_inv (a2 & Ha2 & [= <-])%bind_Ok_inv.
    by rewrite (fillConditionsItems_agree _ _ _ _ _ _ IH Ha1 Ha2). }
  destruct (extractSliceOfAny rConditionItem "all") as [[sliceAll|]| | |];
    try done; rewrite !bind_Ok.
  { intros (a1 & Ha1 & [= <-])%bind_Ok_inv (a2 & Ha2 & [= <-])%bind_Ok_inv.
    by rewrite (fillConditionsItems_agree _ _ _ _ _ _ IH Ha1 Ha2). }
  destruct (fillString setConditionSource rConditionItem "source"
              zeroCondition) as [condition| | |]; try done; rewrite !bind_Ok.
  case_bool_decide; [done|].
  destruct (extractSliceOfAny rConditionItem "checks") as [[rChecks|]| | |];
    try done; rewrite !bind_Ok.
  intros (a1 & Ha1 & [= <-])%bind_Ok_inv (a2 & Ha2 & [= <-])%bind_Ok_inv.
  by rewrite (createChecks_agree _ _ _ Ha1 Ha2).
Qed.

Lemma createResponse_agree rResponse v1 v2 :
  createResponse r1 rResponse d1 = Ok v1 →
  createResponse r2 rResponse d2 = Ok v2 → v1 = v2.
Proof.
  unfold createResponse.
  destruct (extractString rResponse "$ref") as [[refName|]| | |];
    try done; rewrite !bind_Ok.
  - apply getResponseByReference_agree.
  - intros (a1 & Ha1 & Hrest1)%bind_Ok_inv (a2 & Ha2 & Hrest2)%bind_Ok_inv.
    assert (a1 = a2) as ->
      by exact (fillStrings_agree r1 r2 _ _ _ _ _ r1_valid r2_valid
                  responseStrings_commuting Ha1 Ha2).
    destruct (fillInt setResponseStatus rResponse "status" a2)
      as [response| | |]; try done; rewrite !bind_Ok in Hrest1, Hrest2.
    destruct (extractStringMap rResponse "headers") as [[rHeaders|]| | |];
      try done; rewrite !bind_Ok in Hrest1, Hrest2; [|congruence].
    apply bind_Ok_inv in Hrest1 as (h1 & _ & [= <-]).
    by apply bind_Ok_inv in Hrest2 as (h2 & _ & [= <-]).
Qed.

Lemma fillResponseItem_agree rResponse v1 v2 :
  fillResponseItem r1 rResponse d1 = Ok v1 →
  fillResponseItem r2 rResponse d2 = Ok v2 → v1 = v2.
Proof.
  unfold fillResponseItem.
  intros (a1 & Ha1 & [= <-])%bind_Ok_inv (a2 & Ha2 & [= <-])%bind_Ok_inv.
  apply (createResponse_agree _ _ _ Ha1 Ha2).
Qed.

Lemma fillEndpoints_agree
  (create1 create2 : gmap string any → Definitions → result Endpoint)
  endpoints rEndpoints v1 v2 :
  (∀ m e1 e2, create1 m d1 = Ok e1 → create2 m d2 = Ok e2 → e1 = e2) →
  fillEndpoints create1 endpoints rEndpoints d1 = Ok v1 →
  fillEndpoints create2 endpoints rEndpoints d2 = Ok v2 →
  v1 = v2.
Proof.
  intros Hcreate. unfold fillEndpoints.
  apply forRange_agree. intros s x s1 s2 _.
  destruct x; try done.
  intros (a1 & Ha1 & [= <-])%bind_Ok_inv (a2 & Ha2 & [= <-])%bind_Ok_inv.
  by rewrite (Hcreate _ _ _ Ha1 Ha2).
Qed.

Lemma createEndpoint_agree fuel rEndpoint v1 v2 :
  createEndpoint r1 fuel rEndpoint d1 = Ok v1 →
  createEndpoint r2 fuel rEndpoint d2 = Ok v2 → v1 = v2.
Proof.
  revert rEndpoint v1 v2.
  induction fuel as [|fuel IH]; intros rEndpoint v1 v2; [done|].
  rewrite !createEndpoint_unfold.
  intros (e1 & He1 & Hc1)%bind_Ok_inv (e2 & He2 & Hc2)%bind_Ok_inv.
  assert (e1 = e2) as ->; [|by repeat case_bool_decide; congruence].
  clear Hc1 Hc2. revert He1 He2. unfold endpointFields.
  intros (a1 & Ha1 & Hrest1)%bind_Ok_inv (a2 & Ha2 & Hrest2)%bind_Ok_inv.
  assert (a1 = a2) as ->
    by exact (fillStrings_agree r1 r2 _ _ _ _ _ r1_valid r2_valid
                endpointStrings_commuting Ha1 Ha2).
  clear Ha1 Ha2.
  destruct (extractSliceOfAny rEndpoint "filters") as [rFilterItems| | |];
    try done; rewrite !bind_Ok in Hrest1, Hrest2.
  apply bind_Ok_inv in Hrest1 as (b1 & Hb1 & Hrest1).
  apply bind_Ok_inv in Hrest2 as (b2 & Hb2 & Hrest2).
  assert (b1 = b2) as ->.
  { destruct rFilterItems; [|congruence].
    apply bind_Ok_inv in Hb1 as (x1 & Hx1 & [= <-]).
    apply bind_Ok_inv in Hb2 as (x2 & Hx2 & [= <-]).
    by rewrite (fillFiltersItems_agree _ _ _ _ Hx1 Hx2). }
  clear Hb1 Hb2.
  destruct (extractSliceOfAny rEndpoint "conditions") as [rConditionItems| | |];
    try done; rewrite !bind_Ok in Hrest1, Hrest2.
  apply bind_Ok_inv in Hrest1 as (c1 & Hc1 & Hrest1).
  apply bind_Ok_inv in Hrest2 as (c2 & Hc2 & Hrest2).
  assert (c1 = c2) as ->.
  { destruct rConditionItems; [|congruence].
    apply bind_Ok_inv in Hc1 as (x1 & Hx1 & [= <-]).
    apply bind_Ok_inv in Hc2 as (x2 & Hx2 & [= <-]).
    rewrite (fillConditionsItems_agree _ _ _ _ _ _
               (createConditions_agree fuel) Hx1 Hx2). done. }
  clear Hc1 Hc2.
  destruct (extractSliceOfAny rEndpoint "endpoints") as [rEndpointItems| | |];
    try done; rewrite !bind_Ok in Hrest1, Hrest2.
  apply bind_Ok_inv in Hrest1 as (n1 & Hn1 & Hrest1).
  apply bind_Ok_inv in Hrest2 as (n2 & Hn2 & Hrest2).
  assert (n1 = n2) as ->.
  { destruct rEndpointItems; [|congruence].
    apply bind_Ok_inv in Hn1 as (x1 & Hx1 & [= <-]).
    apply bind_Ok_inv in Hn2 as (x2 & Hx2 & [= <-]).
    by rewrite (fillEndpoints_agree _ _ _ _ _ _ IH Hx1 Hx2). }
  clear Hn1 Hn2.
  destruct (extractStringMap rEndpoint "response") as [rResponse| | |];
    try done; rewrite !bind_Ok in Hrest1, Hrest2.
  destruct rResponse; [|congruence].
  apply bind_Ok_inv in Hrest1 as (x1 & Hx1 & [= <-]).
  apply bind_Ok_inv in Hrest2 as (x2 & Hx2 & [= <-]).
  by rewrite (fillResponseItem_agree _ _ _ Hx1 Hx2).
Qed.

End Agree.

(** ** Registries of two runs *)

Lemma compatMap_empty_l {A : Type} (m : gmap string A) : compatMap ∅ m.
Proof. intros name v1 v2 H1. by rewrite lookup_empty in H1. Qed.

Lemma compatMap_empty_r {A : Type} (m : gmap string A) : compatMap m ∅.
Proof. intros name v1 v2 _ H2. by rewrite lookup_empty in H2. Qed.

(** Storing a value in both registries: the value stored is the same when
    the name is, and otherwise each registry already agreed with the other
    one once extended. *)
Lemma compatMap_insert {A : Type} (m1 m2 : gmap string A) n1 n2 v1 v2 :
  compatMap m1 (<[ n2 := v2 ]> m2) →
  compatMap (<[ n1 := v1 ]> m1) m2 →
  (n1 = n2 → v1 = v2) →
  compatMap (<[ n1 := v1 ]> m1) (<[ n2 := v2 ]> m2).
Proof.
  intros Hout Hin Hsame name w1 w2 Hw1 Hw2.
  destruct (decide (name = n1)) as [->|Hne1].
  - rewrite lookup_insert_eq in Hw1. injection Hw1 as <-.
    destruct (decide (n1 = n2)) as [->|Hne2].
    + rewrite lookup_insert_eq in Hw2. injection Hw2 as <-. by apply Hsame.
    + rewrite lookup_insert_ne in Hw2 by done.
      apply (Hin n1); [|done]. apply lookup_insert_eq.
  - rewrite lookup_insert_ne in Hw1 by done. by apply (Hout name).
Qed.

Section Reachable.

Variable fuel : nat.
Variable rDefinitions : gmap string any.

Lemma compat_reachable_steps range definitions rSteps stepName rStepItems
  stepsList :
  valid_range range →
  (∀ d2, reachable fuel rDefinitions d2 → compat definitions d2) →
  rDefinitions !! "steps" = Some (AMap rSteps) →
  rSteps !! stepName = Some (ASlice rStepItems) →
  fillStepsItems range [] rStepItems definitions = Ok stepsList →
  ∀ d2, reachable fuel rDefinitions d2 →
    compat (setDefinitionsSteps
              (<[ stepName := stepsList ]> (Definitions_Steps definitions))
              definitions) d2.
Proof.
  intros Hrange Houter Hblock Hname Hfill d2 Hd2.
  induction Hd2 as
    [ | range' d2 rSteps' name' items' list' Hrange' Hd2 IH Hblock' Hname' Hfill'
      | range' d2 rSteps' name' items' list' Hrange' Hd2 IH Hblock' Hname' Hfill'
      | range' d2 rSteps' name' items' list' Hrange' Hd2 IH Hblock' Hname' Hfill'
      | range' d2 rSteps' name' items' list' Hrange' Hd2 IH Hblock' Hname' Hfill' ].
  - repeat split; simpl; apply compatMap_empty_r.
  - pose proof (Houter _ (reachable_steps _ _ _ _ _ _ _ _ Hrange' Hd2 Hblock'
                            Hname' Hfill')) as Hout.
    destruct IH as (? & ? & ? & ?); destruct Hout as (? & ? & ? & ?).
    repeat split; simpl in *; try assumption.
    apply compatMap_insert; [done..|]. intros <-.
    assert (rSteps' = rSteps) as -> by congruence.
    assert (items' = rStepItems) as -> by congruence.
    exact (fillStepsItems_agree range range' Hrange Hrange' _ _
             (Houter _ Hd2) _ _ _ _ Hfill Hfill').
  - compat_other IH
      (Houter _ (reachable_filters _ _ _ _ _ _ _ _ Hrange' Hd2 Hblock'
                   Hname' Hfill')).
  - compat_other IH
      (Houter _ (reachable_conditions _ _ _ _ _ _ _ _ Hrange' Hd2 Hblock'
                   Hname' Hfill')).
  - compat_other IH
      (Houter _ (reachable_responses _ _ _ _ _ _ _ _ Hrange' Hd2 Hblock'
                   Hname' Hfill')).
Qed.

Lemma compat_reachable_filters range definitions rFilters filterName
  rFilterItems filtersList :
  valid_range range →
  (∀ d2, reachable fuel rDefinitions d2 → compat definitions d2) →
  rDefinitions !! "filters" = Some (AMap rFilters) →
  rFilters !! filterName = Some (ASlice rFilterItems) →
  fillFiltersItems range [] rFilterItems definitions = Ok filtersList →
  ∀ d2, reachable fuel rDefinitions d2 →
    compat (setDefinitionsFilters
              (<[ filterName := filtersList ]> (Definitions_Filters definitions))
              definitions) d2.
Proof.
  intros Hrange Houter Hblock Hname Hfill d2 Hd2.
  induction Hd2 as
    [ | range' d2 rSteps' name' items' list' Hrange' Hd2 IH Hblock' Hname' Hfill'
      | range' d2 rSteps' name' items' list' Hrange' Hd2 IH Hblock' Hname' Hfill'
      | range' d2 rSteps' name' items' list' Hrange' Hd2 IH Hblock' Hname' Hfill'
      | range' d2 rSteps' name' items' list' Hrange' Hd2 IH Hblock' Hname' Hfill' ].
  - repeat split; simpl; apply compatMap_empty_r.
  - compat_other IH
      (Houter _ (reachable_steps _ _ _ _ _ _ _ _ Hrange' Hd2 Hblock'
                   Hname' Hfill')).
  - pose proof (Houter _ (reachable_filters _ _ _ _ _ _ _ _ Hrange' Hd2 Hblock'
                            Hname' Hfill')) as Hout.
    destruct IH as (? & ? & ? & ?); destruct Hout as (? & ? & ? & ?).
    repeat split; simpl in *; try assumption.
    apply compatMap_insert; [done..|]. intros <-.
    assert (rSteps' = rFilters) as -> by congruence.
    assert (items' = rFilterItems) as -> by congruence.
    exact (fillFiltersItems_agree range range' Hrange Hrange' _ _
             (Houter _ Hd2) _ _ _ _ Hfill Hfill').
  - compat_other IH
      (Houter _ (reachable_conditions _ _ _ _ _ _ _ _ Hrange' Hd2 Hblock'
                   Hname' Hfill')).
  - compat_other IH
      (Houter _ (reachable_responses _ _ _ _ _ _ _ _ Hrange' Hd2 Hblock'
                   Hname' Hfill')).
Qed.

Lemma compat_reachable_conditions range definitions rConditions conditionName
  rConditionItems conditionsList :
  valid_range range →
  (∀ d2, reachable fuel rDefinitions d2 → compat definitions d2) →
  rDefinitions !! "conditions" = Some (AMap rConditions) →
  rConditions !! conditionName = Some (ASlice rConditionItems) →
  fillConditionsItems (createConditions range fuel) [] rConditionItems
    definitions = Ok conditionsList →
  ∀ d2, reachable fuel rDefinitions d2 →
    compat (setDefinitionsConditions
              (<[ conditionName := conditionsList ]>
                 (Definitions_Conditions definitions))
              definitions) d2.
Proof.
  intros Hrange Houter Hblock Hname Hfill d2 Hd2.
  induction Hd2 as
    [ | range' d2 rSteps' name' items' list' Hrange' Hd2 IH Hblock' Hname' Hfill'
      | range' d2 rSteps' name' items' list' Hrange' Hd2 IH Hblock' Hname' Hfill'
      | range' d2 rSteps' name' items' list' Hrange' Hd2 IH Hblock' Hname' Hfill'
      | range' d2 rSteps' name' items' list' Hrange' Hd2 IH Hblock' Hname' Hfill' ].
  - repeat split; simpl; apply compatMap_empty_r.
  - compat_other IH
      (Houter _ (reachable_steps _ _ _ _ _ _ _ _ Hrange' Hd2 Hblock'
                   Hname' Hfill')).
  - compat_other IH
      (Houter _ (reachable_filters _ _ _ _ _ _ _ _ Hrange' Hd2 Hblock'
                   Hname' Hfill')).
  - pose proof (Houter _ (reachable_conditions _ _ _ _ _ _ _ _ Hrange' Hd2
                            Hblock' Hname' Hfill')) as Hout.
    destruct IH as (? & ? & ? & ?); destruct Hout as (? & ? & ? & ?).
    repeat split; simpl in *; try assumption.
    apply compatMap_insert; [done..|]. intros <-.
    assert (rSteps' = rConditions) as -> by congruence.
    assert (items' = rConditionItems) as -> by congruence.
    eapply fillConditionsItems_agree; [|exact Hfill|exact Hfill'].
    exact (createConditions_agree range range' Hrange Hrange' _ _
             (Houter _ Hd2) fuel).
  - compat_other IH
      (Houter _ (reachable_responses _ _ _ _ _ _ _ _ Hrange' Hd2 Hblock'
                   Hname' Hfill')).
Qed.

Lemma compat_reachable_responses range definitions rResponses responseName
  rResponse response :
  valid_range range →
  (∀ d2, reachable fuel rDefinitions d2 → compat definitions d2) →
  rDefinitions !! "responses" = Some (AMap rResponses) →
  rResponses !! responseName = Some (AMap rResponse) →
  fillResponseItem range rResponse definitions = Ok response →
  ∀ d2, reachable fuel rDefinitions d2 →
    compat (setDefinitionsResponses
              (<[ responseName := response ]>
                 (Definitions_Responses definitions))
              definitions) d2.
Proof.
  intros Hrange Houter Hblock Hname Hfill d2 Hd2.
  induction Hd2 as
    [ | range' d2 rSteps' name' items' list' Hrange' Hd2 IH Hblock' Hname' Hfill'
      | range' d2 rSteps' name' items' list' Hrange' Hd2 IH Hblock' Hname' Hfill'
      | range' d2 rSteps' name' items' list' Hrange' Hd2 IH Hblock' Hname' Hfill'
      | range' d2 rSteps' name' items' list' Hrange' Hd2 IH Hblock' Hname' Hfill' ].
  - repeat split; simpl; apply compatMap_empty_r.
  - compat_other IH
      (Houter _ (reachable_steps _ _ _ _ _ _ _ _ Hrange' Hd2 Hblock'
                   Hname' Hfill')).
  - compat_other IH
      (Houter _ (reachable_filters _ _ _ _ _ _ _ _ Hrange' Hd2 Hblock'
                   Hname' Hfill')).
  - compat_other IH
      (Houter _ (reachable_conditions _ _ _ _ _ _ _ _ Hrange' Hd2 Hblock'
                   Hname' Hfill')).
  - pose proof (Houter _ (reachable_responses _ _ _ _ _ _ _ _ Hrange' Hd2
                            Hblock' Hname' Hfill')) as Hout.
    destruct IH as (? & ? & ? & ?); destruct Hout as (? & ? & ? & ?).
    repeat split; simpl in *; try assumption.
    apply compatMap_insert; [done..|]. intros <-.
    assert (rSteps' = rResponses) as -> by congruence.
    assert (items' = rResponse) as -> by congruence.
    exact (fillResponseItem_agree range range' Hrange Hrange' _ _
             (Houter _ Hd2) _ _ _ Hfill Hfill').
Qed.

(** Any two registries that runs can reach on the same definitions block
    agree on the names that both have. *)
Lemma reachable_compat d1 d2 :
  reachable fuel rDefinitions d1 → reachable fuel rDefinitions d2 →
  compat d1 d2.
Proof.
  intros Hd1. revert d2.
  induction Hd1 as
    [ | range d1 rSteps name items list Hrange Hd1 IH Hblock Hname Hfill
      | range d1 rSteps name items list Hrange Hd1 IH Hblock Hname Hfill
      | range d1 rSteps name items list Hrange Hd1 IH Hblock Hname Hfill
      | range d1 rSteps name items list Hrange Hd1 IH Hblock Hname Hfill ].
  - intros d2 _. repeat split; simpl; apply compatMap_empty_l.
  - by eapply compat_reachable_steps.
  - by eapply compat_reachable_filters.
  - by eapply compat_reachable_conditions.
  - by eapply compat_reachable_responses.
Qed.

End Reachable.

(** ** The registry after the definitions block *)

Lemma forRange_ind {A S : Type} (I : list A → S → Prop)
  (body : S → A → result S) (l : list A) (s s' : S) :
  I [] s →
  (∀ pre x s s', I pre s → x ∈ l → body s x = Ok s' → I (pre ++ [x]) s') →
  forRange body s l = Ok s' → I l s'.
Proof.
  intros Hinit Hstep.
  assert (Hgen : ∀ post pre s,
            (∀ x, x ∈ post → x ∈ l) → I pre s →
            forRange body s post = Ok s' → I (pre ++ post) s').
  { induction post as [|x post IH]; intros pre s0 Hsub Hpre.
    - simpl. intros [= <-]. by rewrite app_nil_r.
    - rewrite forRange_cons. intros (s1 & Hs1 & Hrest)%bind_Ok_inv.
      rewrite (cons_middle x pre post), app_assoc.
      apply (IH _ s1); [|eapply Hstep; eauto|done].
      + intros y Hy. apply Hsub. by right.
      + apply Hsub. by left. }
  apply (Hgen l [] s); auto.
Qed.

Lemma is_Some_insert_app {A B : Type} (m0 m : gmap string A) (name k : string)
  (v : A) (x : B) (pre : list (string * B)) :
  (∀ n, is_Some (m !! n) ↔ is_Some (m0 !! n) ∨ n ∈ pre.*1) →
  is_Some (<[ name := v ]> m !! k)
  ↔ is_Some (m0 !! k) ∨ k ∈ (pre ++ [(name, x)]).*1.
Proof.
  intros Hkeys. rewrite lookup_insert_is_Some, fmap_app, elem_of_app, Hkeys.
  simpl. rewrite list_elem_of_singleton.
  destruct (decide (name = k)) as [->|]; intuition congruence.
Qed.

Lemma elem_of_range_fst range (A : Type) (m : gmap string A) (k : string) :
  valid_range range → k ∈ (range A m).*1 ↔ is_Some (m !! k).
Proof.
  intros Hrange. rewrite list_elem_of_fmap. split.
  - intros ([k' v] & -> & Hin). apply (elem_of_range range Hrange) in Hin.
    eauto.
  - intros [v Hv]. exists (k, v). split; [done|].
    by apply (elem_of_range range Hrange).
Qed.

Section Blocks.

Variable range : ∀ A : Type, gmap string A → list (string * A).
Hypothesis range_valid : valid_range range.
Variable fuel : nat.
Variable rDefinitions : gmap string any.

Lemma fillStepsMap_reachable rSteps d d' :
  rDefinitions !! "steps" = Some (AMap rSteps) →
  reachable fuel rDefinitions d →
  fillStepsMap range rSteps d = Ok d' →
  reachable fuel rDefinitions d'
  ∧ Definitions_Filters d' = Definitions_Filters d
  ∧ Definitions_Conditions d' = Definitions_Conditions d
  ∧ Definitions_Responses d' = Definitions_Responses d
  ∧ ∀ n, is_Some (Definitions_Steps d' !! n)
         ↔ is_Some (Definitions_Steps d !! n) ∨ is_Some (rSteps !! n).
Proof.
  intros Hblock Hd Hfill.
  cut (reachable fuel rDefinitions d'
       ∧ Definitions_Filters d' = Definitions_Filters d
       ∧ Definitions_Conditions d' = Definitions_Conditions d
       ∧ Definitions_Responses d' = Definitions_Responses d
       ∧ ∀ n, is_Some (Definitions_Steps d' !! n)
              ↔ is_Some (Definitions_Steps d !! n)
                ∨ n ∈ (range _ rSteps).*1).
  { intros (? & ? & ? & ? & Hkeys). repeat split; try done;
      rewrite Hkeys, elem_of_range_fst by done; tauto. }
  revert Hfill. unfold fillStepsMap.
  apply (forRange_ind (λ pre d',
    reachable fuel rDefinitions d'
    ∧ Definitions_Filters d' = Definitions_Filters d
    ∧ Definitions_Conditions d' = Definitions_Conditions d
    ∧ Definitions_Responses d' = Definitions_Responses d
    ∧ ∀ n, is_Some (Definitions_Steps d' !! n)
           ↔ is_Some (Definitions_Steps d !! n) ∨ n ∈ pre.*1)).
  - repeat split; try done; [tauto|]. intros [?|Hin]; [done|]. by inversion Hin.
  - intros pre [name x] s s' (Hs & Hf & Hc & Hr & Hkeys) Hin Hbody.
    apply (elem_of_range range range_valid) in Hin.
    destruct x; try done.
    apply bind_Ok_inv in Hbody as (stepsList & Hlist & [= <-]).
    split; [by eapply reachable_steps|]. simpl.
    repeat split; try done; by apply is_Some_insert_app.
Qed.

Lemma fillFiltersMap_reachable rFilters d d' :
  rDefinitions !! "filters" = Some (AMap rFilters) →
  reachable fuel rDefinitions d →
  fillFiltersMap range rFilters d = Ok d' →
  reachable fuel rDefinitions d'
  ∧ Definitions_Steps d' = Definitions_Steps d
  ∧ Definitions_Conditions d' = Definitions_Conditions d
  ∧ Definitions_Responses d' = Definitions_Responses d
  ∧ ∀ n, is_Some (Definitions_Filters d' !! n)
         ↔ is_Some (Definitions_Filters d !! n) ∨ is_Some (rFilters !! n).
Proof.
  intros Hblock Hd Hfill.
  cut (reachable fuel rDefinitions d'
       ∧ Definitions_Steps d' = Definitions_Steps d
       ∧ Definitions_Conditions d' = Definitions_Conditions d
       ∧ Definitions_Responses d' = Definitions_Responses d
       ∧ ∀ n, is_Some (Definitions_Filters d' !! n)
              ↔ is_Some (Definitions_Filters d !! n)
                ∨ n ∈ (range _ rFilters).*1).
  { intros (? & ? & ? & ? & Hkeys). repeat split; try done;
      rewrite Hkeys, elem_of_range_fst by done; tauto. }
  revert Hfill. unfold fillFiltersMap.
  apply (forRange_ind (λ pre d',
    reachable fuel rDefinitions d'
    ∧ Definitions_Steps d' = Definitions_Steps d
    ∧ Definitions_Conditions d' = Definitions_Conditions d
    ∧ Definitions_Responses d' = Definitions_Responses d
    ∧ ∀ n, is_Some (Definitions_Filters d' !! n)
           ↔ is_Some (Definitions_Filters d !! n) ∨ n ∈ pre.*1)).
  - repeat split; try done; [tauto|]. intros [?|Hin]; [done|]. by inversion Hin.
  - intros pre [name x] s s' (Hs & Hf & Hc & Hr & Hkeys) Hin Hbody.
    apply (elem_of_range range range_valid) in Hin.
    destruct x; try done.
    apply bind_Ok_inv in Hbody as (filtersList & Hlist & [= <-]).
    split; [by eapply reachable_filters|]. simpl.
    repeat split; try done; by apply is_Some_insert_app.
Qed.

Lemma fillConditionsMap_reachable rConditions d d' :
  rDefinitions !! "conditions" = Some (AMap rConditions) →
  reachable fuel rDefinitions d →
  fillConditionsMap range fuel rConditions d = Ok d' →
  reachable fuel rDefinitions d'
  ∧ Definitions_Steps d' = Definitions_Steps d
  ∧ Definitions_Filters d' = Definitions_Filters d
  ∧ Definitions_Responses d' = Definitions_Responses d
  ∧ ∀ n, is_Some (Definitions_Conditions d' !! n)
         ↔ is_Some (Definitions_Conditions d !! n)
           ∨ is_Some (rConditions !! n).
Proof.
  intros Hblock Hd Hfill.
  cut (reachable fuel rDefinitions d'
       ∧ Definitions_Steps d' = Definitions_Steps d
       ∧ Definitions_Filters d' = Definitions_Filters d
       ∧ Definitions_Responses d' = Definitions_Responses d
       ∧ ∀ n, is_Some (Definitions_Conditions d' !! n)
              ↔ is_Some (Definitions_Conditions d !! n)
                ∨ n ∈ (range _ rConditions).*1).
  { intros (? & ? & ? & ? & Hkeys). repeat split; try done;
      rewrite Hkeys, elem_of_range_fst by done; tauto. }
  revert Hfill. unfold fillConditionsMap.
  apply (forRange_ind (λ pre d',
    reachable fuel rDefinitions d'
    ∧ Definitions_Steps d' = Definitions_Steps d
    ∧ Definitions_Filters d' = Definitions_Filters d
    ∧ Definitions_Responses d' = Definitions_Responses d
    ∧ ∀ n, is_Some (Definitions_Conditions d' !! n)
           ↔ is_Some (Definitions_Conditions d !! n) ∨ n ∈ pre.*1)).
  - repeat split; try done; [tauto|]. intros [?|Hin]; [done|]. by inversion Hin.
  - intros pre [name x] s s' (Hs & Hf & Hc & Hr & Hkeys) Hin Hbody.
    apply (elem_of_range range range_valid) in Hin.
    destruct x; try done.
    apply bind_Ok_inv in Hbody as (conditionsList & Hlist & [= <-]).
    split; [by eapply reachable_conditions|]. simpl.
    repeat split; try done; by apply is_Some_insert_app.
Qed.

Lemma fillResponsesMap_reachable rResponses d d' :
  rDefinitions !! "responses" = Some (AMap rResponses) →
  reachable fuel rDefinitions d →
  fillResponsesMap range rResponses d = Ok d' →
  reachable fuel rDefinitions d'
  ∧ Definitions_Steps d' = Definitions_Steps d
  ∧ Definitions_Filters d' = Definitions_Filters d
  ∧ Definitions_Conditions d' = Definitions_Conditions d
  ∧ ∀ n, is_Some (Definitions_Responses d' !! n)
         ↔ is_Some (Definitions_Responses d !! n)
           ∨ is_Some (rResponses !! n).
Proof.
  intros Hblock Hd Hfill.
  cut (reachable fuel rDefinitions d'
       ∧ Definitions_Steps d' = Definitions_Steps d
       ∧ Definitions_Filters d' = Definitions_Filters d
       ∧ Definitions_Conditions d' = Definitions_Conditions d
       ∧ ∀ n, is_Some (Definitions_Responses d' !! n)
              ↔ is_Some (Definitions_Responses d !! n)
                ∨ n ∈ (range _ rResponses).*1).
  { intros (? & ? & ? & ? & Hkeys). repeat split; try done;
      rewrite Hkeys, elem_of_range_fst by done; tauto. }
  revert Hfill. unfold fillResponsesMap.
  apply (forRange_ind (λ pre d',
    reachable fuel rDefinitions d'
    ∧ Definitions_Steps d' = Definitions_Steps d
    ∧ Definitions_Filters d' = Definitions_Filters d
    ∧ Definitions_Conditions d' = Definitions_Conditions d
    ∧ ∀ n, is_Some (Definitions_Responses d' !! n)
           ↔ is_Some (Definitions_Responses d !! n) ∨ n ∈ pre.*1)).
  - repeat split; try done; [tauto|]. intros [?|Hin]; [done|]. by inversion Hin.
  - intros pre [name x] s s' (Hs & Hf & Hc & Hr & Hkeys) Hin Hbody.
    apply (elem_of_range range range_valid) in Hin.
    destruct x; try done.
    apply bind_Ok_inv in Hbody as (response & Hresp & [= <-]).
    split; [by eapply reachable_responses|]. simpl.
    repeat split; try done; by apply is_Some_insert_app.
Qed.

Lemma extractStringMap_block group o :
  extractStringMap rDefinitions group = Ok o →
  match o with
  | Some m => rDefinitions !! group = Some (AMap m)
  | None => ∀ n, ¬ blockKeys rDefinitions group n
  end.
Proof.
  unfold extractStringMap, blockKeys.
  destruct (rDefinitions !! group) as [[]|]; try done; intros [= <-]; [done|].
  by intros n (m & ? & _).
Qed.

Lemma blockKeys_lookup group m n :
  rDefinitions !! group = Some (AMap m) →
  is_Some (m !! n) ↔ blockKeys rDefinitions group n.
Proof.
  intros Hblock. unfold blockKeys. split; [eauto|].
  intros (m' & Hm' & Hn). congruence.
Qed.

Lemma fillDefinitions_reachable d :
  fillDefinitions range fuel rDefinitions (Spec_Definitions createEmpty) = Ok d →
  reachable fuel rDefinitions d
  ∧ (∀ n, is_Some (Definitions_Steps d !! n)
          ↔ blockKeys rDefinitions "steps" n)
  ∧ (∀ n, is_Some (Definitions_Filters d !! n)
          ↔ blockKeys rDefinitions "filters" n)
  ∧ (∀ n, is_Some (Definitions_Conditions d !! n)
          ↔ blockKeys rDefinitions "conditions" n)
  ∧ (∀ n, is_Some (Definitions_Responses d !! n)
          ↔ blockKeys rDefinitions "responses" n).
Proof.
  unfold fillDefinitions.
  intros (oS & HoS%extractStringMap_block & Hfill)%bind_Ok_inv.
  apply bind_Ok_inv in Hfill as (dS & HdS & Hfill).
  apply bind_Ok_inv in Hfill as (oF & HoF%extractStringMap_block & Hfill).
  apply bind_Ok_inv in Hfill as (dF & HdF & Hfill).
  apply bind_Ok_inv in Hfill as (oC & HoC%extractStringMap_block & Hfill).
  apply bind_Ok_inv in Hfill as (dC & HdC & Hfill).
  apply bind_Ok_inv in Hfill as (oR & HoR%extractStringMap_block & Hfill).
  assert (HS : reachable fuel rDefinitions dS
               ∧ Definitions_Filters dS = ∅
               ∧ Definitions_Conditions dS = ∅
               ∧ Definitions_Responses dS = ∅
               ∧ ∀ n, is_Some (Definitions_Steps dS !! n)
                      ↔ blockKeys rDefinitions "steps" n).
  { destruct oS as [m|].
    - destruct (fillStepsMap_reachable m _ _ HoS (reachable_empty _ _) HdS)
        as (? & ? & ? & ? & Hkeys).
      repeat split; try done; rewrite Hkeys, (blockKeys_lookup "steps" m) by done;
        simpl; rewrite lookup_empty, is_Some_alt; tauto.
    - injection HdS as <-. split; [constructor|]. repeat split; try done.
      + simpl. rewrite lookup_empty, is_Some_alt. done.
      + intros ?. by destruct (HoS n). }
  destruct HS as (HrS & HSf & HSc & HSr & HSk).
  assert (HF : reachable fuel rDefinitions dF
               ∧ Definitions_Steps dF = Definitions_Steps dS
               ∧ Definitions_Conditions dF = ∅
               ∧ Definitions_Responses dF = ∅
               ∧ ∀ n, is_Some (Definitions_Filters dF !! n)
                      ↔ blockKeys rDefinitions "filters" n).
  { destruct oF as [m|].
    - destruct (fillFiltersMap_reachable m _ _ HoF HrS HdF)
        as (? & ? & ? & ? & Hkeys).
      repeat split; try congruence;
        rewrite Hkeys, (blockKeys_lookup "filters" m), HSf by done;
        rewrite lookup_empty, is_Some_alt; tauto.
    - injection HdF as <-. repeat split; try done.
      + rewrite HSf, lookup_empty, is_Some_alt. done.
      + intros ?. by destruct (HoF n). }
  destruct HF as (HrF & HFs & HFc & HFr & HFk).
  assert (HC : reachable fuel rDefinitions dC
               ∧ Definitions_Steps dC = Definitions_Steps dS
               ∧ Definitions_Filters dC = Definitions_Filters dF
               ∧ Definitions_Responses dC = ∅
               ∧ ∀ n, is_Some (Definitions_Conditions dC !! n)
                      ↔ blockKeys rDefinitions "conditions" n).
  { destruct oC as [m|].
    - destruct (fillConditionsMap_reachable m _ _ HoC HrF HdC)
        as (? & ? & ? & ? & Hkeys).
      repeat split; try congruence;
        rewrite Hkeys, (blockKeys_lookup "conditions" m), HFc by done;
        rewrite lookup_empty, is_Some_alt; tauto.
    - injection HdC as <-. repeat split; try done.
      + rewrite HFc, lookup_empty, is_Some_alt. done.
      + intros ?. by destruct (HoC n). }
  destruct HC as (HrC & HCs & HCf & HCr & HCk).
  destruct oR as [m|].
  - destruct (fillResponsesMap_reachable m _ _ HoR HrC Hfill)
      as (? & Hs & Hf & Hc & Hkeys).
    split; [done|]. rewrite Hs, Hf, Hc, HCs, HCf.
    repeat split; try (by apply HSk || by apply HFk || by apply HCk);
      rewrite Hkeys, (blockKeys_lookup "responses" m), HCr by done;
      rewrite lookup_empty, is_Some_alt; tauto.
  - injection Hfill as <-. split; [done|]. rewrite HCs, HCf.
    repeat split; try (by apply HSk || by apply HFk || by apply HCk).
    + rewrite HCr, lookup_empty, is_Some_alt. done.
    + intros ?. by destruct (HoR n).
Qed.

End Blocks.

Lemma compatMap_eq {A : Type} (m1 m2 : gmap string A) :
  compatMap m1 m2 →
  (∀ n, is_Some (m1 !! n) ↔ is_Some (m2 !! n)) →
  m1 = m2.
Proof.
  intros Hcompat Hkeys. apply map_eq. intros n.
  destruct (m1 !! n) as [v1|] eqn:E1, (m2 !! n) as [v2|] eqn:E2.
  - f_equal. by apply (Hcompat n).
  - assert (is_Some (m2 !! n)) as [? ?] by (apply Hkeys; eauto). congruence.
  - assert (is_Some (m1 !! n)) as [? ?] by (apply Hkeys; eauto). congruence.
  - done.
Qed.

(** The definitions block gives the same registry in every run that gets
    through it. *)
Lemma fillDefinitions_agree r1 r2 fuel rDefinitions d1 d2 :
  valid_range r1 → valid_range r2 →
  fillDefinitions r1 fuel rDefinitions (Spec_Definitions createEmpty) = Ok d1 →
  fillDefinitions r2 fuel rDefinitions (Spec_Definitions createEmpty) = Ok d2 →
  d1 = d2.
Proof.
  intros H1 H2
    (Hr1 & Hs1 & Hf1 & Hc1 & Hp1)%fillDefinitions_reachable
    (Hr2 & Hs2 & Hf2 & Hc2 & Hp2)%fillDefinitions_reachable; [|done..].
  destruct (reachable_compat _ _ _ _ Hr1 Hr2) as (Hs & Hf & Hc & Hp).
  destruct d1, d2. simpl in *. f_equal; apply compatMap_eq; try done.
  - intros n. by rewrite Hs1, Hs2.
  - intros n. by rewrite Hf1, Hf2.
  - intros n. by rewrite Hc1, Hc2.
  - intros n. by rewrite Hp1, Hp2.
Qed.




(** ** Termination: the depth of the document is fuel enough *)

Lemma depth_foldr_le {A : Type} (f : A → nat) (l : list A) (x : A) :
  x ∈ l → f x ≤ foldr (λ y acc, f y `max` acc) 0 l.
Proof.
  induction l as [|y l IH]; [by inversion 1|].
  intros [->|Hin]%elem_of_cons; simpl; [lia|]. specialize (IH Hin). lia.
Qed.

Lemma depth_elem (l : list any) (x : any) :
  x ∈ l → depth x < depth (ASlice l).
Proof.
  intros Hin. simpl. apply Nat.lt_succ_r. by apply (depth_foldr_le depth).
Qed.

Lemma depth_lookup (m : gmap string any) (k : string) (v : any) :
  m !! k = Some v → depth v < depth (AMap m).
Proof.
  intros Hlookup. simpl. apply Nat.lt_succ_r. rewrite map_fold_foldr.
  apply elem_of_map_to_list in Hlookup.
  apply (depth_foldr_le (λ p, depth p.2) _ (k, v)) in Hlookup. simpl in Hlookup.
  etransitivity; [exact Hlookup|]. apply Nat.eq_le_incl. clear Hlookup.
  induction (map_to_list m) as [|[k' v'] l IH]; simpl; [done|]. by rewrite IH.
Qed.

Lemma bind_fuel {A B : Type} (x : result A) (f : A → result B) :
  x ≠ OutOfFuel → (∀ a, x = Ok a → f a ≠ OutOfFuel) → x ≫= f ≠ OutOfFuel.
Proof. destruct x; simpl; auto. Qed.

Lemma forRange_fuel {A S : Type} (body : S → A → result S) (l : list A) (s : S) :
  (∀ s x, x ∈ l → body s x ≠ OutOfFuel) → forRange body s l ≠ OutOfFuel.
Proof.
  revert s. induction l as [|x l IH]; intros s Hbody; [done|].
  rewrite forRange_cons. apply bind_fuel.
  - apply Hbody. by left.
  - intros s' _. apply IH. intros ? ? ?. apply Hbody. by right.
Qed.

Lemma extractString_fuel input name : extractString input name ≠ OutOfFuel.
Proof. unfold extractString. by destruct (input !! name) as [[]|]. Qed.

Lemma extractInt_fuel input name : extractInt input name ≠ OutOfFuel.
Proof. unfold extractInt. by destruct (input !! name) as [[]|]. Qed.

Lemma extractStringMap_fuel input name : extractStringMap input name ≠ OutOfFuel.
Proof. unfold extractStringMap. by destruct (input !! name) as [[]|]. Qed.

Lemma extractSliceOfAny_fuel input name :
  extractSliceOfAny input name ≠ OutOfFuel.
Proof. unfold extractSliceOfAny. by destruct (input !! name) as [[]|]. Qed.

Lemma extractStringMap_inv input name m :
  extractStringMap input name = Ok (Some m) → input !! name = Some (AMap m).
Proof.
  unfold extractStringMap. destruct (input !! name) as [[]|]; congruence.
Qed.

Lemma extractSliceOfAny_inv input name l :
  extractSliceOfAny input name = Ok (Some l) → input !! name = Some (ASlice l).
Proof.
  unfold extractSliceOfAny. destruct (input !! name) as [[]|]; congruence.
Qed.

Lemma fillString_fuel {T : Type} (target : string → T → T) input name t :
  fillString target input name t ≠ OutOfFuel.
Proof.
  unfold fillString. apply bind_fuel; [apply extractString_fuel|].
  by intros [].
Qed.

Lemma fillInt_fuel {T : Type} (target : Z → T → T) input name t :
  fillInt target input name t ≠ OutOfFuel.
Proof.
  unfold fillInt. apply bind_fuel; [apply extractInt_fuel|]. by intros [].
Qed.

Lemma fillStrings_fuel {T : Type} range
  (targets : gmap string (string → T → T)) input t :
  fillStrings range targets input t ≠ OutOfFuel.
Proof.
  unfold fillStrings. apply forRange_fuel. intros s [name target] _.
  apply fillString_fuel.
Qed.

Lemma createSteps_fuel range rStepItem definitions :
  createSteps range rStepItem definitions ≠ OutOfFuel.
Proof.
  unfold createSteps. case_bool_decide; [done|].
  apply bind_fuel; [apply extractString_fuel|]. intros [refName|] _.
  - unfold getStepsByReference. by destruct (_ !! refName).
  - by rewrite createSteps_loop.
Qed.

Lemma fillStepsItems_fuel range steps rStepItems definitions :
  fillStepsItems range steps rStepItems definitions ≠ OutOfFuel.
Proof.
  unfold fillStepsItems. case_bool_decide; [done|].
  apply forRange_fuel. intros s x _. destruct x; try done.
  unfold fillStepsItem. apply bind_fuel; [apply createSteps_fuel|done].
Qed.

Lemma createFilters_fuel range definitions rFilterItem :
  createFilters range definitions rFilterItem ≠ OutOfFuel.
Proof.
  unfold createFilters.
  apply bind_fuel; [apply extractString_fuel|]. intros [refName|] _.
  - unfold getFiltersByReference. by destruct (_ !! refName).
  - apply bind_fuel; [apply fillStrings_fuel|]. intros filter _.
    case_bool_decide; [done|].
    apply bind_fuel; [apply extractSliceOfAny_fuel|]. intros rSteps _.
    apply bind_fuel; [|done]. destruct rSteps; [|done].
    apply forRange_fuel. intros s x _. destruct x; try done.
    apply bind_fuel; [apply createSteps_fuel|done].
Qed.

Lemma fillFiltersItems_fuel range filters rFilterItems definitions :
  fillFiltersItems range filters rFilterItems definitions ≠ OutOfFuel.
Proof.
  unfold fillFiltersItems. case_bool_decide; [done|].
  apply forRange_fuel. intros s x _. destruct x; try done.
  unfold fillFiltersItem. apply bind_fuel; [apply createFilters_fuel|done].
Qed.

Lemma createChecks_fuel range rChecks : createChecks range rChecks ≠ OutOfFuel.
Proof.
  unfold createChecks. apply forRange_fuel. intros s x _.
  destruct x; try done. case_bool_decide; [done|]. by rewrite createChecks_loop.
Qed.

Lemma createResponse_fuel range rResponse definitions :
  createResponse range rResponse definitions ≠ OutOfFuel.
Proof.
  unfold createResponse.
  apply bind_fuel; [apply extractString_fuel|]. intros [refName|] _.
  - unfold getResponseByReference. by destruct (_ !! refName).
  - apply bind_fuel; [apply fillStrings_fuel|]. intros response _.
    apply bind_fuel; [apply fillInt_fuel|]. intros response' _.
    apply bind_fuel; [apply extractStringMap_fuel|]. intros [rHeaders|] _;
      [|done].
    apply bind_fuel; [|done]. apply forRange_fuel.
    intros headers [headerName headerValues] _. destruct headerValues; try done.
    unfold fillHeaderValues. apply forRange_fuel. intros h x _. by destruct x.
Qed.

Lemma fillConditionsItems_fuel
  (create : Definitions → gmap string any → result (list Condition))
  conditions rConditionItems definitions :
  (∀ m, AMap m ∈ rConditionItems → create definitions m ≠ OutOfFuel) →
  fillConditionsItems create conditions rConditionItems definitions ≠ OutOfFuel.
Proof.
  intros Hcreate. unfold fillConditionsItems. case_bool_decide; [done|].
  apply forRange_fuel. intros s x Hin. destruct x; try done.
  unfold fillConditionsItem. apply bind_fuel; [by apply Hcreate|done].
Qed.

Lemma createConditions_fuel range fuel definitions rConditionItem :
  depth (AMap rConditionItem) ≤ fuel →
  createConditions range fuel definitions rConditionItem ≠ OutOfFuel.
Proof.
  revert rConditionItem.
  induction fuel as [|fuel IH]; intros rConditionItem Hdepth.
  { simpl in Hdepth. lia. }
  assert (Hitems : ∀ name l m,
            extractSliceOfAny rConditionItem name = Ok (Some l) →
            AMap m ∈ l →
            createConditions range fuel definitions m ≠ OutOfFuel).
  { intros name l m Hl%extractSliceOfAny_inv%depth_lookup Hm%depth_elem.
    apply IH. lia. }
  rewrite createConditions_unfold.
  apply bind_fuel; [apply extractString_fuel|]. intros [refName|] _.
  { unfold getConditionsByReference. by destruct (_ !! refName). }
  apply bind_fuel; [apply extractSliceOfAny_fuel|]. intros [sliceAny|] Hany.
  { apply bind_fuel; [|done]. apply fillConditionsItems_fuel. eauto. }
  apply bind_fuel; [apply extractSliceOfAny_fuel|]. intros [sliceAll|] Hall.
  { apply bind_fuel; [|done]. apply fillConditionsItems_fuel. eauto. }
  apply bind_fuel; [apply fillString_fuel|]. intros condition _.
  case_bool_decide; [done|].
  apply bind_fuel; [apply extractSliceOfAny_fuel|]. intros [rChecks|] _; [|done].
  apply bind_fuel; [apply createChecks_fuel|done].
Qed.

Lemma fillEndpoints_fuel
  (create : gmap string any → Definitions → result Endpoint)
  endpoints rEndpoints definitions :
  (∀ m, AMap m ∈ rEndpoints → create m definitions ≠ OutOfFuel) →
  fillEndpoints create endpoints rEndpoints definitions ≠ OutOfFuel.
Proof.
  intros Hcreate. unfold fillEndpoints.
  apply forRange_fuel. intros s x Hin. destruct x; try done.
  apply bind_fuel; [by apply Hcreate|done].
Qed.

Lemma createEndpoint_fuel range fuel rEndpoint definitions :
  depth (AMap rEndpoint) ≤ fuel →
  createEndpoint range fuel rEndpoint definitions ≠ OutOfFuel.
Proof.
  revert rEndpoint.
  induction fuel as [|fuel IH]; intros rEndpoint Hdepth.
  { simpl in Hdepth. lia. }
  assert (Hitems : ∀ name l m,
            extractSliceOfAny rEndpoint name = Ok (Some l) →
            AMap m ∈ l → depth (AMap m) ≤ fuel).
  { intros name l m Hl%extractSliceOfAny_inv%depth_lookup Hm%depth_elem. lia. }
  rewrite createEndpoint_unfold. apply bind_fuel;
    [|intros endpoint _; by case_bool_decide].
  unfold endpointFields.
  apply bind_fuel; [apply fillStrings_fuel|]. intros e1 _.
  apply bind_fuel; [apply extractSliceOfAny_fuel|]. intros rFilterItems _.
  apply bind_fuel.
  { destruct rFilterItems; [|done].
    apply bind_fuel; [apply fillFiltersItems_fuel|done]. }
  intros e2 _.
  apply bind_fuel; [apply extractSliceOfAny_fuel|]. intros rConditionItems Hc.
  apply bind_fuel.
  { destruct rConditionItems; [|done]. apply bind_fuel; [|done].
    apply fillConditionsItems_fuel. intros m Hm.
    apply createConditions_fuel. eauto. }
  intros e3 _.
  apply bind_fuel; [apply extractSliceOfAny_fuel|]. intros rEndpointItems He.
  apply bind_fuel.
  { destruct rEndpointItems; [|done]. apply bind_fuel; [|done].
    apply fillEndpoints_fuel. intros m Hm. apply IH. eauto. }
  intros e4 _.
  apply bind_fuel; [apply extractStringMap_fuel|]. intros [rResponse|] _; [|done].
  apply bind_fuel; [|done]. unfold fillResponseItem.
  apply bind_fuel; [apply createResponse_fuel|done].
Qed.


(** * Further properties of the builders *)

(** ** Steps, checks and lists of items *)

Lemma range_small_canonical range (A : Type) (m : gmap string A) :
  valid_range range → size m ≤ 1 → range A m = map_to_list m.
Proof.
  intros Hrange Hsize.
  apply (range_small_agree range canonical A m Hrange canonical_valid Hsize).
Qed.

(** A step item without [$ref] gives one step per key, and has at most one
    key: the key is the operation, a mapping value is the parameters, any
    other value is wrapped under ["value"], and the registry is not used. *)
Theorem createSteps_operation range definitions :
  valid_range range →
  (∀ rStepItem steps,
     rStepItem !! "$ref" = None →
     createSteps range rStepItem definitions = Ok steps →
     size rStepItem ≤ 1
     ∧ steps = map (λ p, mkStep p.1 (parametersOf p.2)) (map_to_list rStepItem))
  ∧ (∀ rStepOperation rStepParams,
       rStepOperation ≠ "$ref" →
       createSteps range {[ rStepOperation := rStepParams ]} definitions
       = Ok [mkStep rStepOperation (parametersOf rStepParams)]).
Proof.
  intros Hrange. split.
  - intros rStepItem steps Href. unfold createSteps.
    case_bool_decide as Hsize; [done|].
    rewrite (extractString_None _ _ Href), bind_Ok, createSteps_loop.
    intros [= <-]. split; [lia|].
    by rewrite (range_small_canonical range) by (done || lia).
  - intros op params Hop. unfold createSteps.
    rewrite map_size_singleton, bool_decide_eq_false_2 by lia.
    rewrite extractString_None by by rewrite lookup_singleton_ne.
    by rewrite bind_Ok, createSteps_loop, range_singleton.
Qed.

Lemma createSteps_operation_witness :
  createSteps canonical {[ "uppercase" := ANil ]} sampleDefinitions
  = Ok [mkStep "uppercase" {[ "value" := ANil ]}].
Proof.
  apply (createSteps_operation canonical sampleDefinitions).
  - intros A m. reflexivity.
  - discriminate.
Defined.

Lemma map_size_1_singleton {A : Type} (m : gmap string A) :
  size m = 1 → ∃ k v, m = {[ k := v ]}.
Proof.
  intros Hsize. rewrite <- length_map_to_list in Hsize.
  destruct (map_to_list m) as [|[k v] [|]] eqn:Hl; try done.
  exists k, v. rewrite <- (list_to_map_to_list m), Hl. simpl.
  by rewrite insert_empty.
Qed.

Lemma createChecks_item range checks rCheckMap :
  valid_range range → size rCheckMap = 1 →
  ∃ rCheckName rCheckParams,
    rCheckMap = {[ rCheckName := rCheckParams ]}
    ∧ forRange (λ checks '(rCheckName, rCheckParams),
          Ok (checks ++ [mkCheck rCheckName (parametersOf rCheckParams)]))
        checks (range _ rCheckMap)
      = Ok (checks ++ [mkCheck rCheckName (parametersOf rCheckParams)]).
Proof.
  intros Hrange Hsize.
  apply map_size_1_singleton in Hsize as (k & v & ->).
  exists k, v. split; [done|]. by rewrite createChecks_loop, range_singleton.
Qed.

(** [createChecks] succeeds exactly on a sequence of one-key objects, and
    then gives one check per item, in order: the key is the name (no key is
    special, not even [$ref]) and the value is normalised as for a step. *)
Theorem createChecks_objects range rChecks checks :
  valid_range range →
  createChecks range rChecks = Ok checks
  ↔ ∃ l : list (string * any),
      rChecks = map (λ p, AMap {[ p.1 := p.2 ]}) l
      ∧ checks = map (λ p, mkCheck p.1 (parametersOf p.2)) l.
Proof.
  intros Hrange. unfold createChecks. split.
  - apply (forRange_ind (λ pre checks, ∃ l : list (string * any),
             pre = map (λ p, AMap {[ p.1 := p.2 ]}) l
             ∧ checks = map (λ p, mkCheck p.1 (parametersOf p.2)) l)).
    + by exists [].
    + intros pre x s s' (l & -> & ->) _ Hbody. destruct x; try done.
      case_bool_decide as Hsize; [done|].
      destruct (createChecks_item range
                  (map (λ p, mkCheck p.1 (parametersOf p.2)) l) m Hrange Hsize)
        as (k & v & -> & Hloop).
      rewrite Hloop in Hbody. injection Hbody as <-.
      exists (l ++ [(k, v)]). by rewrite !map_app.
  - intros (l & -> & ->).
    assert (Hgen : ∀ acc,
              forRange (λ checks rCheck,
                  match rCheck with
                  | AMap rCheckMap =>
                      if bool_decide (size rCheckMap ≠ 1)
                      then Err errObjectMustHaveSingleKey else
                      forRange (λ checks '(rCheckName, rCheckParams),
                          Ok (checks ++ [mkCheck rCheckName
                                           (parametersOf rCheckParams)]))
                        checks (range _ rCheckMap)
                  | _ => Err (errInvalidInputReason
                                "each check item must be an object")
                  end)
                acc (map (λ p, AMap {[ p.1 := p.2 ]}) l)
              = Ok (acc ++ map (λ p, mkCheck p.1 (parametersOf p.2)) l)).
    { induction l as [|[k v] l IH]; intros acc; simpl.
      - by rewrite app_nil_r.
      - rewrite map_size_singleton, bool_decide_eq_false_2 by (intros ?; done).
        rewrite createChecks_loop, range_singleton by done.
        simpl. rewrite IH. by rewrite <- app_assoc. }
    apply (Hgen []).
Qed.

Lemma createChecks_objects_witness :
  createChecks canonical
    [AMap {[ "equals" := AString "admin" ]}; AMap {[ "$ref" := AString "n" ]}]
  = Ok [mkCheck "equals" {[ "value" := AString "admin" ]};
        mkCheck "$ref" {[ "value" := AString "n" ]}].
Proof.
  apply (createChecks_objects canonical).
  - intros A m. reflexivity.
  - exists [("equals", AString "admin"); ("$ref", AString "n")].
    split; reflexivity.
Defined.

(** A loop that appends to its state what [g] gives for each item:
    it succeeds when [g] does on every item, with the concatenation. *)
Lemma forRange_concat {A B : Type} (g : A → result (list B))
  (body : list B → A → result (list B)) :
  (∀ s x, body s x = new ← g x; Ok (s ++ new)) →
  ∀ l s v,
    forRange body s l = Ok v
    ↔ ∃ parts, Forall2 (λ x part, g x = Ok part) l parts
               ∧ v = s ++ concat parts.
Proof.
  intros Hbody. induction l as [|x l IH]; intros s v.
  - simpl. split.
    + intros [= <-]. exists []. split; [constructor|]. by rewrite app_nil_r.
    + intros (parts & Hparts & ->). inversion Hparts. simpl.
      by rewrite app_nil_r.
  - rewrite forRange_cons, Hbody. split.
    + intros (s1 & (new & Hnew & [= <-])%bind_Ok_inv & Hrest)%bind_Ok_inv.
      apply IH in Hrest as (parts & Hparts & ->).
      exists (new :: parts). split; [by constructor|].
      simpl. by rewrite app_assoc.
    + intros (parts & Hparts & ->).
      inversion Hparts as [|? new ? parts' Hnew Hparts']; subst.
      rewrite Hnew, !bind_Ok. apply IH. exists parts'. split; [done|].
      simpl. by rewrite app_assoc.
Qed.

(** Lists of items are flattened in order.  [fillStepsItems],
    [fillFiltersItems] and [fillConditionsItems] succeed exactly on a
    sequence that is not empty, of objects that all build, and append to
    what is there the values built for each item, item after item: what a
    [$ref] item expands to takes the place of the item. *)
Theorem items_flattened range
  (createConditions : Definitions → gmap string any → result (list Condition))
  definitions :
  (∀ steps rStepItems v,
     fillStepsItems range steps rStepItems definitions = Ok v
     ↔ rStepItems ≠ []
       ∧ ∃ parts,
           Forall2 (λ item part, ∃ m, item = AMap m
                      ∧ createSteps range m definitions = Ok part)
             rStepItems parts
           ∧ v = steps ++ concat parts)
  ∧ (∀ filters rFilterItems v,
       fillFiltersItems range filters rFilterItems definitions = Ok v
       ↔ rFilterItems ≠ []
         ∧ ∃ parts,
             Forall2 (λ item part, ∃ m, item = AMap m
                        ∧ createFilters range definitions m = Ok part)
               rFilterItems parts
             ∧ v = filters ++ concat parts)
  ∧ (∀ conditions rConditionItems v,
       fillConditionsItems createConditions conditions rConditionItems
         definitions = Ok v
       ↔ rConditionItems ≠ []
         ∧ ∃ parts,
             Forall2 (λ item part, ∃ m, item = AMap m
                        ∧ createConditions definitions m = Ok part)
               rConditionItems parts
             ∧ v = conditions ++ concat parts).
Proof.
  split; [|split].
  - intros steps items v. unfold fillStepsItems.
    case_bool_decide as Hlen.
    + apply length_zero_iff_nil in Hlen as ->. split; [done|]. by intros [? _].
    + assert (items ≠ []) by (by intros ->).
      rewrite (forRange_concat
                 (λ x, match x with
                       | AMap m => createSteps range m definitions
                       | _ => Err (errInvalidInputReason
                                     "each step item must be an object")
                       end)) by (by intros s []).
      split.
      * intros (parts & Hparts & ->). split; [done|]. exists parts.
        split; [|done]. eapply Forall2_impl; [exact Hparts|].
        intros [] part Hx; try done. eauto.
      * intros (_ & parts & Hparts & ->). exists parts. split; [|done].
        eapply Forall2_impl; [exact Hparts|]. by intros x part (m & -> & ?).
  - intros filters items v. unfold fillFiltersItems.
    case_bool_decide as Hlen.
    + apply length_zero_iff_nil in Hlen as ->. split; [done|]. by intros [? _].
    + assert (items ≠ []) by (by intros ->).
      rewrite (forRange_concat
                 (λ x, match x with
                       | AMap m => createFilters range definitions m
                       | _ => Err (errInvalidInputReason
                                     "each filter item must be an object")
                       end)) by (by intros s []).
      split.
      * intros (parts & Hparts & ->). split; [done|]. exists parts.
        split; [|done]. eapply Forall2_impl; [exact Hparts|].
        intros [] part Hx; try done. eauto.
      * intros (_ & parts & Hparts & ->). exists parts. split; [|done].
        eapply Forall2_impl; [exact Hparts|]. by intros x part (m & -> & ?).
  - intros conditions items v. unfold fillConditionsItems.
    case_bool_decide as Hlen.
    + apply length_zero_iff_nil in Hlen as ->. split; [done|]. by intros [? _].
    + assert (items ≠ []) by (by intros ->).
      rewrite (forRange_concat
                 (λ x, match x with
                       | AMap m => createConditions definitions m
                       | _ => Err (errInvalidInputReason
                                     "each condition item must be an object")
                       end)) by (by intros s []).
      split.
      * intros (parts & Hparts & ->). split; [done|]. exists parts.
        split; [|done]. eapply Forall2_impl; [exact Hparts|].
        intros [] part Hx; try done. eauto.
      * intros (_ & parts & Hparts & ->). exists parts. split; [|done].
        eapply Forall2_impl; [exact Hparts|]. by intros x part (m & -> & ?).
Qed.

Lemma items_flattened_witness :
  fillStepsItems canonical [mkStep "lower" ∅]
    [AMap {[ "$ref" := AString "n" ]}; AMap {[ "upper" := ANil ]}]
    sampleDefinitions
  = Ok ([mkStep "lower" ∅]
        ++ concat [[mkStep "trim" {[ "value" := ANil ]}];
                   [mkStep "upper" {[ "value" := ANil ]}]]).
Proof.
  apply (items_flattened canonical (createConditions canonical 0)
           sampleDefinitions).
  split; [discriminate|]. eexists. split; [|reflexivity].
  repeat constructor; eexists; (split; [reflexivity|]); vm_compute; reflexivity.
Defined.

(** ** String fields *)

Lemma filterStrings_list : map_to_list filterStrings ≡ₚ filterStringsList.
Proof.
  unfold filterStrings, filterStringsList.
  rewrite map_to_list_insert by done. by rewrite map_to_list_singleton.
Qed.

Lemma responseStrings_list : map_to_list responseStrings ≡ₚ responseStringsList.
Proof.
  unfold responseStrings, responseStringsList.
  rewrite map_to_list_insert by done. by rewrite map_to_list_singleton.
Qed.

Lemma endpointStrings_list : map_to_list endpointStrings ≡ₚ endpointStringsList.
Proof.
  unfold endpointStrings, endpointStringsList.
  do 4 (rewrite map_to_list_insert by (vm_compute; reflexivity)).
  by rewrite map_to_list_singleton.
Qed.

(** When the assignments commute, [fillStrings] does, in any order, what
    it does in the order of any list of its targets. *)
Lemma fillStrings_list {T : Type} range
  (targets : gmap string (string → T → T))
  (l : list (string * (string → T → T))) (input : gmap string any) (t t' : T) :
  valid_range range → commuting targets → map_to_list targets ≡ₚ l →
  fillStrings range targets input t = Ok t' →
  t' = foldl (assignString input) t l.
Proof.
  intros Hrange Hcomm Hl ->%fillStrings_assign.
  apply (assignString_permutation targets); [done| | |].
  - by rewrite (Hrange _ targets).
  - by apply range_NoDup_fst.
  - intros name target. by apply elem_of_range.
Qed.

(** [fillStrings] fails on the targets exactly when one of the fields is
    there and is not a string. *)
Lemma fillStrings_rejected {T : Type} range
  (targets : gmap string (string → T → T)) (input : gmap string any) (t t' : T)
  name :
  valid_range range → is_Some (targets !! name) →
  stringOrAbsent input name = false →
  fillStrings range targets input t ≠ Ok t'.
Proof.
  intros Hrange [target Hname] Hbad. unfold fillStrings.
  apply (elem_of_range range Hrange) in Hname. revert t.
  induction (range _ targets) as [|[n g] l IH]; intros t; [by inversion Hname|].
  rewrite forRange_cons.
  intros (t1 & Hstep & Hrest)%bind_Ok_inv.
  apply elem_of_cons in Hname as [[= <- <-]|Hin].
  - unfold fillString, extractString in Hstep. unfold stringOrAbsent in Hbad.
    by destruct (input !! name) as [[]|].
  - by apply (IH Hin t1).
Qed.

Lemma fillStrings_filter range rFilterItem filter :
  valid_range range →
  fillStrings range filterStrings rFilterItem zeroFilter = Ok filter →
  filter = mkFilter (stringField rFilterItem "source")
             (stringField rFilterItem "target") [].
Proof.
  intros Hrange Hfill.
  rewrite (fillStrings_list range _ _ _ _ _ Hrange filterStrings_commuting
             filterStrings_list Hfill).
  unfold filterStringsList, assignString, stringField. simpl.
  by destruct (rFilterItem !! "source") as [[]|],
              (rFilterItem !! "target") as [[]|].
Qed.

Lemma createFilters_steps_loop range definitions rSteps filter filter' :
  forRange (λ filter rStep,
      match rStep with
      | AMap rStepMap =>
          steps ← createSteps range rStepMap definitions;
          Ok (setFilterSteps (Filter_Steps filter ++ steps) filter)
      | _ => Err (errInvalidInputReason "each step item must be an object")
      end)
    filter rSteps = Ok filter' →
  ∃ parts,
    Forall2 (λ item part, ∃ m, item = AMap m
               ∧ createSteps range m definitions = Ok part) rSteps parts
    ∧ filter' = mkFilter (Filter_Source filter) (Filter_Target filter)
                  (Filter_Steps filter ++ concat parts).
Proof.
  apply (forRange_ind (λ pre filter', ∃ parts,
    Forall2 (λ item part, ∃ m, item = AMap m
               ∧ createSteps range m definitions = Ok part) pre parts
    ∧ filter' = mkFilter (Filter_Source filter) (Filter_Target filter)
                  (Filter_Steps filter ++ concat parts))).
  - exists []. split; [constructor|]. simpl. rewrite app_nil_r. by destruct filter.
  - intros pre x s s' (parts & Hparts & ->) _ Hbody. destruct x; try done.
    apply bind_Ok_inv in Hbody as (steps & Hsteps & [= <-]).
    exists (parts ++ [steps]). split.
    + apply Forall2_app; [done|]. repeat constructor. eauto.
    + unfold setFilterSteps. simpl.
      by rewrite concat_app, app_assoc; simpl; rewrite app_nil_r.
Qed.

(** A filter item without [$ref] builds exactly one filter: its source
    and target are the fields of the item, the source is not empty, and its
    steps are those of the items of [steps], flattened in order.  An item
    whose source is absent or empty builds nothing (the error says so when
    the two string fields are accepted), while an absent or empty [steps]
    is accepted and gives a filter without steps. *)
Theorem createFilters_inline range definitions rFilterItem :
  valid_range range →
  rFilterItem !! "$ref" = None →
  (∀ filters,
     createFilters range definitions rFilterItem = Ok filters →
     stringField rFilterItem "source" ≠ ""
     ∧ ∃ steps,
         filters = [mkFilter (stringField rFilterItem "source")
                      (stringField rFilterItem "target") steps]
         ∧ match rFilterItem !! "steps" with
           | None => steps = []
           | Some (ASlice rSteps) =>
               ∃ parts,
                 Forall2 (λ item part, ∃ m, item = AMap m
                            ∧ createSteps range m definitions = Ok part)
                   rSteps parts
                 ∧ steps = concat parts
           | Some _ => False
           end)
  ∧ (stringOrAbsent rFilterItem "source" →
     stringOrAbsent rFilterItem "target" →
     stringField rFilterItem "source" = "" →
     createFilters range definitions rFilterItem
     = Err (errInvalidInputReason "filter must have a source"))
  ∧ (stringOrAbsent rFilterItem "source" →
     stringOrAbsent rFilterItem "target" →
     stringField rFilterItem "source" ≠ "" →
     rFilterItem !! "steps" = None ∨ rFilterItem !! "steps" = Some (ASlice []) →
     createFilters range definitions rFilterItem
     = Ok [mkFilter (stringField rFilterItem "source")
             (stringField rFilterItem "target") []]).
Proof.
  intros Hrange Href.
  assert (Hacc : stringOrAbsent rFilterItem "source" →
                 stringOrAbsent rFilterItem "target" →
                 fillStrings range filterStrings rFilterItem zeroFilter
                 = Ok (mkFilter (stringField rFilterItem "source")
                         (stringField rFilterItem "target") [])).
  { intros Hs Ht.
    destruct (fillStrings_accepted range filterStrings rFilterItem zeroFilter
                Hrange) as [f Hf].
    - intros name [target Hname]. unfold filterStrings in Hname.
      apply lookup_insert_Some in Hname as [[<- _]|[_ Hname]]; [done|].
      by apply lookup_singleton_Some in Hname as [<- _].
    - by rewrite Hf, (fillStrings_filter range _ _ Hrange Hf). }
  unfold createFilters. rewrite (extractString_None _ _ Href), bind_Ok.
  split; [|split].
  - intros filters (f & Hf & Hrest)%bind_Ok_inv.
    apply (fillStrings_filter range _ _ Hrange) in Hf as ->. simpl in Hrest.
    case_bool_decide as Hsource; [done|]. split; [done|].
    apply bind_Ok_inv in Hrest as (rSteps & Hsteps & Hrest).
    apply bind_Ok_inv in Hrest as (f' & Hloop & [= <-]).
    unfold extractSliceOfAny in Hsteps.
    destruct (rFilterItem !! "steps") as [[]|]; try done;
      injection Hsteps as <-.
    + apply createFilters_steps_loop in Hloop as (parts & Hparts & ->).
      simpl. eauto.
    + injection Hloop as <-. eauto.
  - intros Hs Ht Hempty. rewrite (Hacc Hs Ht), bind_Ok. simpl.
    by rewrite bool_decide_eq_true_2.
  - intros Hs Ht Hsource Hsteps. rewrite (Hacc Hs Ht), bind_Ok. simpl.
    rewrite bool_decide_eq_false_2 by done.
    unfold extractSliceOfAny. by destruct Hsteps as [-> | ->].
Qed.

Lemma createFilters_inline_witness :
  createFilters canonical sampleDefinitions rFilterNoSource
  = Err (errInvalidInputReason "filter must have a source").
Proof.
  apply (createFilters_inline canonical sampleDefinitions rFilterNoSource).
  - intros A m. reflexivity.
  - reflexivity.
  - vm_compute. exact I.
  - vm_compute. exact I.
  - reflexivity.
Defined.

(** A response built from a mapping without [$ref] is the translation of
    its [status], [format] and [body] fields, each at its zero value when
    absent (and without headers). *)
Theorem createResponse_fields range rResponse definitions response :
  valid_range range →
  rResponse !! "$ref" = None →
  createResponse range rResponse definitions = Ok response →
  response = mkResponse (intField rResponse "status")
               (stringField rResponse "format") ∅
               (stringField rResponse "body").
Proof.
  intros Hrange Href. unfold createResponse.
  rewrite (extractString_None _ _ Href), bind_Ok.
  intros (r1 & Hstrings & Hrest)%bind_Ok_inv.
  apply bind_Ok_inv in Hrest as (r2 & Hstatus & Hrest).
  assert (response = r2) as ->.
  { apply bind_Ok_inv in Hrest as ([rHeaders|] & _ & Hrest).
    - by apply bind_Ok_inv in Hrest as (headers & _ & [= <-]).
    - by injection Hrest as <-. }
  rewrite (fillStrings_list range _ _ _ _ _ Hrange responseStrings_commuting
             responseStrings_list Hstrings) in Hstatus.
  revert Hstatus.
  unfold fillInt, extractInt, responseStringsList, assignString, stringField,
    intField. simpl.
  destruct (rResponse !! "status") as [[]|]; try done;
    destruct (rResponse !! "format") as [[]|],
             (rResponse !! "body") as [[]|]; by intros [= <-].
Qed.

Lemma createResponse_fields_witness :
  mkResponse 404 "json" ∅ "{}"
  = mkResponse (intField rResponseSample "status")
      (stringField rResponseSample "format") ∅
      (stringField rResponseSample "body").
Proof.
  apply (createResponse_fields canonical rResponseSample noDefinitions).
  - intros A m. reflexivity.
  - reflexivity.
  - vm_compute. reflexivity.
Defined.

Lemma fillStrings_endpoint range rEndpoint endpoint :
  valid_range range →
  fillStrings range endpointStrings rEndpoint zeroEndpoint = Ok endpoint →
  endpoint = mkEndpoint (stringField rEndpoint "description")
               (stringField rEndpoint "host") (stringField rEndpoint "method")
               (stringField rEndpoint "path")
               (stringField rEndpoint "bodyFormat") [] [] [] None.
Proof.
  intros Hrange Hfill.
  rewrite (fillStrings_list range _ _ _ _ _ Hrange endpointStrings_commuting
             endpointStrings_list Hfill).
  unfold endpointStringsList, assignString, stringField. simpl.
  by destruct (rEndpoint !! "description") as [[]|],
              (rEndpoint !! "host") as [[]|],
              (rEndpoint !! "method") as [[]|],
              (rEndpoint !! "path") as [[]|],
              (rEndpoint !! "bodyFormat") as [[]|].
Qed.

(** An endpoint that [createEndpoint] returns is the translation of its
    mapping, field by field: the five strings (empty when absent), the
    filters, conditions and sub-endpoints built from the items of their
    sequences into an empty list (none when the field is absent), and the
    response built from [response] (none when absent). *)
Theorem createEndpoint_fields range fuel rEndpoint definitions endpoint :
  valid_range range →
  createEndpoint range (S fuel) rEndpoint definitions = Ok endpoint →
  Endpoint_Description endpoint = stringField rEndpoint "description"
  ∧ Endpoint_Host endpoint = stringField rEndpoint "host"
  ∧ Endpoint_Method endpoint = stringField rEndpoint "method"
  ∧ Endpoint_Path endpoint = stringField rEndpoint "path"
  ∧ Endpoint_BodyFormat endpoint = stringField rEndpoint "bodyFormat"
  ∧ match rEndpoint !! "filters" with
    | None => Endpoint_Filters endpoint = []
    | Some (ASlice rFilterItems) =>
        fillFiltersItems range [] rFilterItems definitions
        = Ok (Endpoint_Filters endpoint)
    | Some _ => False
    end
  ∧ match rEndpoint !! "conditions" with
    | None => Endpoint_Conditions endpoint = []
    | Some (ASlice rConditionItems) =>
        fillConditionsItems (createConditions range fuel) [] rConditionItems
          definitions = Ok (Endpoint_Conditions endpoint)
    | Some _ => False
    end
  ∧ match rEndpoint !! "endpoints" with
    | None => Endpoint_Endpoints endpoint = []
    | Some (ASlice rEndpointItems) =>
        fillEndpoints (createEndpoint range fuel) [] rEndpointItems definitions
        = Ok (Endpoint_Endpoints endpoint)
    | Some _ => False
    end
  ∧ match rEndpoint !! "response" with
    | None => Endpoint_Response endpoint = None
    | Some (AMap rResponse) =>
        ∃ response,
          createResponse range rResponse definitions = Ok response
          ∧ Endpoint_Response endpoint = Some response
    | Some _ => False
    end.
Proof.
  intros Hrange. rewrite createEndpoint_unfold.
  intros (e & Hfields & Hcheck)%bind_Ok_inv.
  case_bool_decide; [done|]. injection Hcheck as <-.
  revert Hfields. unfold endpointFields.
  intros (e1 & He1 & Hrest)%bind_Ok_inv.
  apply (fillStrings_endpoint range _ _ Hrange) in He1 as ->.
  apply bind_Ok_inv in Hrest as (oF & HoF & Hrest).
  apply bind_Ok_inv in Hrest as (e2 & He2 & Hrest).
  apply bind_Ok_inv in Hrest as (oC & HoC & Hrest).
  apply bind_Ok_inv in Hrest as (e3 & He3 & Hrest).
  apply bind_Ok_inv in Hrest as (oE & HoE & Hrest).
  apply bind_Ok_inv in Hrest as (e4 & He4 & Hrest).
  apply bind_Ok_inv in Hrest as (oR & HoR & Hrest).
  unfold extractSliceOfAny in HoF, HoC, HoE. unfold extractStringMap in HoR.
  destruct (rEndpoint !! "filters") as [[]|]; try done; injection HoF as <-;
    [apply bind_Ok_inv in He2 as (filters & Hfilters & [= <-])
    |injection He2 as <-];
    (destruct (rEndpoint !! "conditions") as [[]|]; try done;
     injection HoC as <-;
     [apply bind_Ok_inv in He3 as (conditions & Hconditions & [= <-])
     |injection He3 as <-]);
    (destruct (rEndpoint !! "endpoints") as [[]|]; try done;
     injection HoE as <-;
     [apply bind_Ok_inv in He4 as (endpoints & Hendpoints & [= <-])
     |injection He4 as <-]);
    (destruct (rEndpoint !! "response") as [[]|]; try done;
     injection HoR as <-;
     [unfold fillResponseItem in Hrest;
      apply bind_Ok_inv in Hrest as (r & (r' & Hr & [= <-])%bind_Ok_inv & [= <-])
     |injection Hrest as <-]);
    simpl in *; repeat split; eauto.
Qed.

Lemma createEndpoint_fields_witness :
  "GET" = stringField rEndpointSample "method".
Proof.
  refine (proj1 (proj2 (proj2
    (createEndpoint_fields canonical 0 rEndpointSample noDefinitions
       (mkEndpoint "" "example.org" "GET" "/x" "" [] [] []
          (Some (mkResponse 404 "json" ∅ "{}"))) _ _)))).
  - intros A m. reflexivity.
  - vm_compute. reflexivity.
Defined.

(** ** The registry and the endpoints of a parsed document *)



Lemma forRange_rejected {A S : Type} (body : S → A → result S) (l : list A)
  (x : A) (s s' : S) :
  x ∈ l → (∀ s s', body s x ≠ Ok s') → forRange body s l ≠ Ok s'.
Proof.
  intros Hin Hbody. revert s.
  induction l as [|y l IH]; intros s; [by inversion Hin|].
  rewrite forRange_cons. intros (s1 & Hs1 & Hrest)%bind_Ok_inv.
  apply elem_of_cons in Hin as [->|Hin].
  - by apply (Hbody s s1).
  - by apply (IH Hin s1).
Qed.

(** One bad entry spoils its block: a step, filter or condition
    definition that is an empty sequence or not a sequence, or a response
    definition that is not an object, makes the [fill...Map] function fail,
    wherever the run meets it. *)
Theorem definitions_entry_rejected range fuel definitions block name entry :
  valid_range range →
  block !! name = Some entry →
  (entry = ASlice [] ∨ (∀ l, entry ≠ ASlice l) →
   (∀ d, fillStepsMap range block definitions ≠ Ok d)
   ∧ (∀ d, fillFiltersMap range block definitions ≠ Ok d)
   ∧ (∀ d, fillConditionsMap range fuel block definitions ≠ Ok d))
  ∧ ((∀ m, entry ≠ AMap m) →
     ∀ d, fillResponsesMap range block definitions ≠ Ok d).
Proof.
  intros Hrange Hentry%(elem_of_range range Hrange).
  split; [intros Hbad; split; [|split]|intros Hbad]; intros d;
    apply (forRange_rejected _ _ _ _ _ Hentry); intros s s'.
  - destruct Hbad as [->|Hbad]; [done|]. destruct entry; try done.
    by destruct (Hbad l).
  - destruct Hbad as [->|Hbad]; [done|]. destruct entry; try done.
    by destruct (Hbad l).
  - destruct Hbad as [->|Hbad]; [done|]. destruct entry; try done.
    by destruct (Hbad l).
  - destruct entry; try done. by destruct (Hbad m).
Qed.

Lemma definitions_entry_rejected_witness :
  ¬ ∃ d, fillFiltersMap canonical
           {[ "a" := ASlice [AMap {[ "source" := AString "q" ]}];
              "b" := ASlice [] ]} noDefinitions = Ok d.
Proof.
  destruct (definitions_entry_rejected canonical 0 noDefinitions
              {[ "a" := ASlice [AMap {[ "source" := AString "q" ]}];
                 "b" := ASlice [] ]} "b" (ASlice [])) as [Hsequence _].
  - intros A m. reflexivity.
  - reflexivity.
  - destruct Hsequence as (_ & Hfilters & _); [by left|].
    intros [d Hd]. exact (Hfilters d Hd).
Defined.

(** [fillEndpoints] gives one endpoint per item, in order, after those
    that are there; every item is an object. *)
Lemma fillEndpoints_items
  (createEndpoint : gmap string any → Definitions → result Endpoint)
  endpoints rEndpoints definitions v :
  fillEndpoints createEndpoint endpoints rEndpoints definitions = Ok v →
  ∃ new,
    Forall2 (λ item endpoint, ∃ m, item = AMap m
               ∧ createEndpoint m definitions = Ok endpoint) rEndpoints new
    ∧ v = endpoints ++ new.
Proof.
  unfold fillEndpoints.
  apply (forRange_ind (λ pre v, ∃ new,
    Forall2 (λ item endpoint, ∃ m, item = AMap m
               ∧ createEndpoint m definitions = Ok endpoint) pre new
    ∧ v = endpoints ++ new)).
  - exists []. split; [constructor|]. by rewrite app_nil_r.
  - intros pre x s s' (new & Hnew & ->) _ Hbody. destruct x; try done.
    apply bind_Ok_inv in Hbody as (e & He & [= <-]).
    exists (new ++ [e]). split; [|by rewrite app_assoc].
    apply Forall2_app; [done|]. repeat constructor. eauto.
Qed.



(** ** Panics *)

Lemma bind_no_panic {A B : Type} (x : result A) (f : A → result B) :
  x ≠ Panic → (∀ a, x = Ok a → f a ≠ Panic) → x ≫= f ≠ Panic.
Proof. destruct x; simpl; auto. Qed.

Lemma forRange_no_panic {A S : Type} (body : S → A → result S) (l : list A)
  (s : S) :
  (∀ s x, x ∈ l → body s x ≠ Panic) → forRange body s l ≠ Panic.
Proof.
  revert s. induction l as [|x l IH]; intros s Hbody; [done|].
  rewrite forRange_cons. apply bind_no_panic.
  - apply Hbody. by left.
  - intros s' _. apply IH. intros ? ? ?. apply Hbody. by right.
Qed.

Lemma bind_Panic_inv {A B : Type} (x : result A) (f : A → result B) :
  x ≫= f = Panic → x = Panic ∨ ∃ a, x = Ok a ∧ f a = Panic.
Proof. destruct x; simpl; eauto; discriminate. Qed.

Lemma forRange_Panic_inv {A S : Type} (body : S → A → result S) (l : list A)
  (s : S) :
  forRange body s l = Panic → ∃ s0 x, x ∈ l ∧ body s0 x = Panic.
Proof.
  revert s. induction l as [|x l IH]; intros s; [done|].
  rewrite forRange_cons. intros [Hx|(s1 & _ & Hrest)]%bind_Panic_inv.
  - exists s, x. split; [by left|done].
  - destruct (IH _ Hrest) as (s0 & y & Hy & Hbody).
    exists s0, y. split; [by right|done].
Qed.

Lemma extractString_no_panic input name : extractString input name ≠ Panic.
Proof. unfold extractString. by destruct (input !! name) as [[]|]. Qed.

Lemma extractInt_no_panic input name : extractInt input name ≠ Panic.
Proof. unfold extractInt. by destruct (input !! name) as [[]|]. Qed.

Lemma extractStringMap_no_panic input name :
  extractStringMap input name ≠ Panic.
Proof. unfold extractStringMap. by destruct (input !! name) as [[]|]. Qed.

Lemma extractSliceOfAny_no_panic input name :
  extractSliceOfAny input name ≠ Panic.
Proof. unfold extractSliceOfAny. by destruct (input !! name) as [[]|]. Qed.

Lemma fillStrings_no_panic {T : Type} range
  (targets : gmap string (string → T → T)) input t :
  fillStrings range targets input t ≠ Panic.
Proof.
  unfold fillStrings. apply forRange_no_panic. intros s [name target] _.
  unfold fillString. apply bind_no_panic; [apply extractString_no_panic|].
  by intros [].
Qed.

Lemma fillInt_no_panic {T : Type} (target : Z → T → T) input name t :
  fillInt target input name t ≠ Panic.
Proof.
  unfold fillInt. apply bind_no_panic; [apply extractInt_no_panic|].
  by intros [].
Qed.

Lemma createSteps_no_panic range rStepItem definitions :
  createSteps range rStepItem definitions ≠ Panic.
Proof.
  unfold createSteps. case_bool_decide; [done|].
  apply bind_no_panic; [apply extractString_no_panic|]. intros [refName|] _.
  - unfold getStepsByReference. by destruct (_ !! refName).
  - by rewrite createSteps_loop.
Qed.

Lemma fillStepsItems_no_panic range steps rStepItems definitions :
  fillStepsItems range steps rStepItems definitions ≠ Panic.
Proof.
  unfold fillStepsItems. case_bool_decide; [done|].
  apply forRange_no_panic. intros s x _. destruct x; try done.
  unfold fillStepsItem. apply bind_no_panic; [apply createSteps_no_panic|done].
Qed.

Lemma createFilters_no_panic range definitions rFilterItem :
  createFilters range definitions rFilterItem ≠ Panic.
Proof.
  unfold createFilters.
  apply bind_no_panic; [apply extractString_no_panic|]. intros [refName|] _.
  - unfold getFiltersByReference. by destruct (_ !! refName).
  - apply bind_no_panic; [apply fillStrings_no_panic|]. intros filter _.
    case_bool_decide; [done|].
    apply bind_no_panic; [apply extractSliceOfAny_no_panic|]. intros rSteps _.
    apply bind_no_panic; [|done]. destruct rSteps; [|done].
    apply forRange_no_panic. intros s x _. destruct x; try done.
    apply bind_no_panic; [apply createSteps_no_panic|done].
Qed.

Lemma fillFiltersItems_no_panic range filters rFilterItems definitions :
  fillFiltersItems range filters rFilterItems definitions ≠ Panic.
Proof.
  unfold fillFiltersItems. case_bool_decide; [done|].
  apply forRange_no_panic. intros s x _. destruct x; try done.
  unfold fillFiltersItem.
  apply bind_no_panic; [apply createFilters_no_panic|done].
Qed.

Lemma createChecks_no_panic range rChecks : createChecks range rChecks ≠ Panic.
Proof.
  unfold createChecks. apply forRange_no_panic. intros s x _.
  destruct x; try done. case_bool_decide; [done|]. by rewrite createChecks_loop.
Qed.

Lemma fillConditionsItems_no_panic
  (create : Definitions → gmap string any → result (list Condition))
  conditions rConditionItems definitions :
  (∀ m, create definitions m ≠ Panic) →
  fillConditionsItems create conditions rConditionItems definitions ≠ Panic.
Proof.
  intros Hcreate. unfold fillConditionsItems. case_bool_decide; [done|].
  apply forRange_no_panic. intros s x Hin. destruct x; try done.
  unfold fillConditionsItem. apply bind_no_panic; [by apply Hcreate|done].
Qed.

Lemma createConditions_no_panic range fuel definitions rConditionItem :
  createConditions range fuel definitions rConditionItem ≠ Panic.
Proof.
  revert rConditionItem.
  induction fuel as [|fuel IH]; intros rConditionItem; [done|].
  rewrite createConditions_unfold.
  apply bind_no_panic; [apply extractString_no_panic|]. intros [refName|] _.
  { unfold getConditionsByReference. by destruct (_ !! refName). }
  apply bind_no_panic; [apply extractSliceOfAny_no_panic|].
  intros [sliceAny|] _.
  { apply bind_no_panic; [|done]. by apply fillConditionsItems_no_panic. }
  apply bind_no_panic; [apply extractSliceOfAny_no_panic|].
  intros [sliceAll|] _.
  { apply bind_no_panic; [|done]. by apply fillConditionsItems_no_panic. }
  apply bind_no_panic.
  { unfold fillString. apply bind_no_panic; [apply extractString_no_panic|].
    by intros []. }
  intros condition _. case_bool_decide; [done|].
  apply bind_no_panic; [apply extractSliceOfAny_no_panic|].
  intros [rChecks|] _; [|done].
  apply bind_no_panic; [apply createChecks_no_panic|done].
Qed.

Lemma fillStepsMap_no_panic range rSteps definitions :
  fillStepsMap range rSteps definitions ≠ Panic.
Proof.
  apply forRange_no_panic. intros d [name x] _. destruct x; try done.
  apply bind_no_panic; [apply fillStepsItems_no_panic|done].
Qed.

Lemma fillFiltersMap_no_panic range rFilters definitions :
  fillFiltersMap range rFilters definitions ≠ Panic.
Proof.
  apply forRange_no_panic. intros d [name x] _. destruct x; try done.
  apply bind_no_panic; [apply fillFiltersItems_no_panic|done].
Qed.

Lemma fillConditionsMap_no_panic range fuel rConditions definitions :
  fillConditionsMap range fuel rConditions definitions ≠ Panic.
Proof.
  apply forRange_no_panic. intros d [name x] _. destruct x; try done.
  apply bind_no_panic; [|done]. apply fillConditionsItems_no_panic.
  intros m. apply createConditions_no_panic.
Qed.

(** Steps, filters, checks and conditions are built without any panic,
    whatever the document holds, and so are their blocks of definitions. *)
Theorem builders_never_panic range fuel definitions :
  (∀ rStepItem, createSteps range rStepItem definitions ≠ Panic)
  ∧ (∀ rFilterItem, createFilters range definitions rFilterItem ≠ Panic)
  ∧ (∀ rChecks, createChecks range rChecks ≠ Panic)
  ∧ (∀ rConditionItem,
       createConditions range fuel definitions rConditionItem ≠ Panic)
  ∧ (∀ rSteps, fillStepsMap range rSteps definitions ≠ Panic)
  ∧ (∀ rFilters, fillFiltersMap range rFilters definitions ≠ Panic)
  ∧ (∀ rConditions,
       fillConditionsMap range fuel rConditions definitions ≠ Panic).
Proof.
  split; [intros; apply createSteps_no_panic|].
  split; [intros; apply createFilters_no_panic|].
  split; [intros; apply createChecks_no_panic|].
  split; [intros; apply createConditions_no_panic|].
  split; [intros; apply fillStepsMap_no_panic|].
  split; [intros; apply fillFiltersMap_no_panic|].
  intros; apply fillConditionsMap_no_panic.
Qed.

Lemma createResponse_Panic_inv range rResponse definitions :
  valid_range range →
  createResponse range rResponse definitions = Panic →
  headerWithNonString rResponse.
Proof.
  intros Hrange. unfold createResponse.
  intros [H|(r & _ & H)]%bind_Panic_inv; [by apply extractString_no_panic in H|].
  destruct r as [refName|].
  { unfold getResponseByReference in H. by destruct (_ !! refName). }
  apply bind_Panic_inv in H as [H|(r1 & _ & H)];
    [by apply fillStrings_no_panic in H|].
  apply bind_Panic_inv in H as [H|(r2 & _ & H)];
    [by apply fillInt_no_panic in H|].
  apply bind_Panic_inv in H as [H|(o & Ho & H)];
    [by apply extractStringMap_no_panic in H|].
  destruct o as [rHeaders|]; [|done].
  apply extractStringMap_inv in Ho.
  apply bind_Panic_inv in H as [H|(? & _ & ?)]; [|done].
  apply forRange_Panic_inv in H as (headers & [headerName x] & Hin & Hbody).
  apply (elem_of_range range Hrange) in Hin.
  destruct x; try done.
  apply forRange_Panic_inv in Hbody as (h & y & Hy & Hpanic).
  exists rHeaders, headerName, l, y. repeat split; try done.
  intros s ->. done.
Qed.


Lemma fillEndpoints_Panic_inv
  (createEndpoint : gmap string any → Definitions → result Endpoint)
  endpoints rEndpoints definitions :
  fillEndpoints createEndpoint endpoints rEndpoints definitions = Panic →
  ∃ m, AMap m ∈ rEndpoints ∧ createEndpoint m definitions = Panic.
Proof.
  unfold fillEndpoints.
  intros (s & x & Hin & Hbody)%forRange_Panic_inv. destruct x; try done.
  apply bind_Panic_inv in Hbody as [?|(? & _ & ?)]; [eauto|done].
Qed.

Lemma createEndpoint_Panic_inv range fuel rEndpoint definitions :
  valid_range range →
  createEndpoint range fuel rEndpoint definitions = Panic →
  ∃ rResponse,
    occurs (AMap rResponse) (AMap rEndpoint) ∧ headerWithNonString rResponse.
Proof.
  intros Hrange. revert rEndpoint.
  induction fuel as [|fuel IH]; intros rEndpoint; [done|].
  rewrite createEndpoint_unfold.
  intros [H|(e & _ & H)]%bind_Panic_inv; [|by case_bool_decide].
  revert H. unfold endpointFields.
  intros [H|(e1 & _ & H)]%bind_Panic_inv;
    [by apply fillStrings_no_panic in H|].
  apply bind_Panic_inv in H as [H|(oF & _ & H)];
    [by apply extractSliceOfAny_no_panic in H|].
  apply bind_Panic_inv in H as [H|(e2 & _ & H)].
  { destruct oF; [|done].
    apply bind_Panic_inv in H as [H|(? & _ & ?)]; [|done].
    by apply fillFiltersItems_no_panic in H. }
  apply bind_Panic_inv in H as [H|(oC & _ & H)];
    [by apply extractSliceOfAny_no_panic in H|].
  apply bind_Panic_inv in H as [H|(e3 & _ & H)].
  { destruct oC; [|done].
    apply bind_Panic_inv in H as [H|(? & _ & ?)]; [|done].
    apply fillConditionsItems_no_panic in H; [done|].
    intros m. apply createConditions_no_panic. }
  apply bind_Panic_inv in H as [H|(oE & HoE & H)];
    [by apply extractSliceOfAny_no_panic in H|].
  apply bind_Panic_inv in H as [H|(e4 & _ & H)].
  { destruct oE as [l|]; [|done]. apply extractSliceOfAny_inv in HoE.
    apply bind_Panic_inv in H as [H|(? & _ & ?)]; [|done].
    apply fillEndpoints_Panic_inv in H as (m & Hm & Hpanic).
    destruct (IH _ Hpanic) as (r & Hoccurs & Hr).
    exists r. split; [|done].
    eapply occurs_map; [exact HoE|]. eapply occurs_slice; [exact Hm|done]. }
  apply bind_Panic_inv in H as [H|(oR & HoR & H)];
    [by apply extractStringMap_no_panic in H|].
  destruct oR as [r|]; [|done]. apply extractStringMap_inv in HoR.
  apply bind_Panic_inv in H as [H|(? & _ & ?)]; [|done].
  unfold fillResponseItem in H.
  apply bind_Panic_inv in H as [H|(? & _ & ?)]; [|done].
  exists r. split; [|by eapply createResponse_Panic_inv].
  eapply occurs_map; [exact HoR|constructor].
Qed.



(** ** Keys that the parser does not read *)

Lemma bind_ext {A B : Type} (x : result A) (f g : A → result B) :
  (∀ a, x = Ok a → f a = g a) → x ≫= f = x ≫= g.
Proof. destruct x; simpl; auto. Qed.

Lemma forRange_ext {A S : Type} (body1 body2 : S → A → result S)
  (l : list A) (s : S) :
  (∀ s x, x ∈ l → body1 s x = body2 s x) →
  forRange body1 s l = forRange body2 s l.
Proof.
  revert s. induction l as [|x l IH]; intros s Hbody; [done|].
  rewrite !forRange_cons, (Hbody s x) by by left.
  apply bind_ext. intros s' _. apply IH. intros ? ? ?. apply Hbody. by right.
Qed.

Lemma fillConditionsItems_ext
  (create1 create2 : Definitions → gmap string any → result (list Condition))
  conditions rConditionItems definitions :
  (∀ m, AMap m ∈ rConditionItems → create1 definitions m = create2 definitions m) →
  fillConditionsItems create1 conditions rConditionItems definitions
  = fillConditionsItems create2 conditions rConditionItems definitions.
Proof.
  intros Hcreate. unfold fillConditionsItems. case_bool_decide; [done|].
  apply forRange_ext. intros s x Hin. destruct x; try done.
  unfold fillConditionsItem. by rewrite Hcreate.
Qed.

Lemma fillEndpoints_ext
  (create1 create2 : gmap string any → Definitions → result Endpoint)
  endpoints rEndpoints definitions :
  (∀ m, AMap m ∈ rEndpoints → create1 m definitions = create2 m definitions) →
  fillEndpoints create1 endpoints rEndpoints definitions
  = fillEndpoints create2 endpoints rEndpoints definitions.
Proof.
  intros Hcreate. unfold fillEndpoints.
  apply forRange_ext. intros s x Hin. destruct x; try done.
  by rewrite Hcreate.
Qed.

(** Fuel beyond the depth of the document changes nothing. *)
Lemma createConditions_fuel_irrelevant range fuel1 fuel2 definitions
  rConditionItem :
  depth (AMap rConditionItem) ≤ fuel1 →
  depth (AMap rConditionItem) ≤ fuel2 →
  createConditions range fuel1 definitions rConditionItem
  = createConditions range fuel2 definitions rConditionItem.
Proof.
  revert fuel2 rConditionItem.
  induction fuel1 as [|fuel1 IH]; intros fuel2 rConditionItem H1 H2.
  { simpl in H1. lia. }
  destruct fuel2 as [|fuel2]; [simpl in H2; lia|].
  assert (Hitems : ∀ name l,
            extractSliceOfAny rConditionItem name = Ok (Some l) →
            ∀ acc,
              fillConditionsItems (createConditions range fuel1) acc l
                definitions
              = fillConditionsItems (createConditions range fuel2) acc l
                  definitions).
  { intros name l Hl%extractSliceOfAny_inv%depth_lookup acc.
    apply fillConditionsItems_ext. intros m Hm%depth_elem. apply IH; lia. }
  rewrite !createConditions_unfold.
  apply bind_ext. intros [refName|] _; [done|].
  apply bind_ext. intros [sliceAny|] Hany.
  { by rewrite (Hitems _ _ Hany). }
  apply bind_ext. intros [sliceAll|] Hall; [|done].
  by rewrite (Hitems _ _ Hall).
Qed.

Lemma createEndpoint_fuel_irrelevant range fuel1 fuel2 definitions rEndpoint :
  depth (AMap rEndpoint) ≤ fuel1 →
  depth (AMap rEndpoint) ≤ fuel2 →
  createEndpoint range fuel1 rEndpoint definitions
  = createEndpoint range fuel2 rEndpoint definitions.
Proof.
  revert fuel2 rEndpoint.
  induction fuel1 as [|fuel1 IH]; intros fuel2 rEndpoint H1 H2.
  { simpl in H1. lia. }
  destruct fuel2 as [|fuel2]; [simpl in H2; lia|].
  assert (Hitems : ∀ name l m,
            extractSliceOfAny rEndpoint name = Ok (Some l) →
            AMap m ∈ l → depth (AMap m) ≤ fuel1 ∧ depth (AMap m) ≤ fuel2).
  { intros name l m Hl%extractSliceOfAny_inv%depth_lookup Hm%depth_elem. lia. }
  rewrite !createEndpoint_unfold. f_equal. unfold endpointFields.
  apply bind_ext. intros e1 _.
  apply bind_ext. intros oF _.
  apply bind_ext. intros e2 _.
  apply bind_ext. intros oC HoC.
  assert (HC : match oC with
               | Some rConditionItems =>
                   conditions ← fillConditionsItems
                     (createConditions range fuel1)
                     (Endpoint_Conditions e2) rConditionItems definitions;
                   Ok (setEndpointConditions conditions e2)
               | None => Ok e2
               end
               = match oC with
                 | Some rConditionItems =>
                     conditions ← fillConditionsItems
                       (createConditions range fuel2)
                       (Endpoint_Conditions e2) rConditionItems definitions;
                     Ok (setEndpointConditions conditions e2)
                 | None => Ok e2
                 end).
  { destruct oC as [l|]; [|done]. f_equal.
    apply fillConditionsItems_ext. intros m Hm.
    destruct (Hitems _ _ _ HoC Hm).
    by apply createConditions_fuel_irrelevant. }
  rewrite HC. apply bind_ext. intros e3 _.
  apply bind_ext. intros oE HoE.
  assert (HE : match oE with
               | Some rEndpointItems =>
                   endpoints ← fillEndpoints (createEndpoint range fuel1)
                     (Endpoint_Endpoints e3) rEndpointItems definitions;
                   Ok (setEndpointEndpoints endpoints e3)
               | None => Ok e3
               end
               = match oE with
                 | Some rEndpointItems =>
                     endpoints ← fillEndpoints (createEndpoint range fuel2)
                       (Endpoint_Endpoints e3) rEndpointItems definitions;
                     Ok (setEndpointEndpoints endpoints e3)
                 | None => Ok e3
                 end).
  { destruct oE as [l|]; [|done]. f_equal.
    apply fillEndpoints_ext. intros m Hm.
    destruct (Hitems _ _ _ HoE Hm). by apply IH. }
  by rewrite HE.
Qed.

Lemma fillDefinitions_fuel_irrelevant range fuel1 fuel2 rDefinitions
  definitions :
  valid_range range →
  depth (AMap rDefinitions) < fuel1 →
  depth (AMap rDefinitions) < fuel2 →
  fillDefinitions range fuel1 rDefinitions definitions
  = fillDefinitions range fuel2 rDefinitions definitions.
Proof.
  intros Hrange H1 H2. unfold fillDefinitions.
  apply bind_ext. intros oS _.
  apply bind_ext. intros d1 _.
  apply bind_ext. intros oF _.
  apply bind_ext. intros d2 _.
  apply bind_ext. intros oC HoC.
  assert (HC : match oC with
               | Some rConditions => fillConditionsMap range fuel1 rConditions d2
               | None => Ok d2
               end
               = match oC with
                 | Some rConditions =>
                     fillConditionsMap range fuel2 rConditions d2
                 | None => Ok d2
                 end).
  { destruct oC as [rConditions|]; [|done].
    apply extractStringMap_inv, depth_lookup in HoC.
    unfold fillConditionsMap. apply forRange_ext.
    intros d [name x] Hin%(elem_of_range range Hrange)%depth_lookup.
    destruct x; try done. f_equal.
    apply fillConditionsItems_ext. intros m Hm%depth_elem.
    apply createConditions_fuel_irrelevant; lia. }
  by rewrite HC.
Qed.



Lemma fillStrings_inputs {T : Type} range
  (targets : gmap string (string → T → T)) (input input' : gmap string any)
  (t : T) :
  valid_range range →
  (∀ name, is_Some (targets !! name) → input !! name = input' !! name) →
  fillStrings range targets input t = fillStrings range targets input' t.
Proof.
  intros Hrange Hsame. unfold fillStrings. apply forRange_ext.
  intros s [name target] Hin%(elem_of_range range Hrange).
  unfold fillString, extractString. by rewrite Hsame by eauto.
Qed.

Lemma extractString_inputs input input' name :
  input !! name = input' !! name →
  extractString input name = extractString input' name.
Proof. unfold extractString. by intros ->. Qed.

Lemma extractInt_inputs input input' name :
  input !! name = input' !! name →
  extractInt input name = extractInt input' name.
Proof. unfold extractInt. by intros ->. Qed.

Lemma extractStringMap_inputs input input' name :
  input !! name = input' !! name →
  extractStringMap input name = extractStringMap input' name.
Proof. unfold extractStringMap. by intros ->. Qed.

Lemma extractSliceOfAny_inputs input input' name :
  input !! name = input' !! name →
  extractSliceOfAny input name = extractSliceOfAny input' name.
Proof. unfold extractSliceOfAny. by intros ->. Qed.

(** Each builder of a struct reads a fixed set of keys of its mapping
    and nothing else: two mappings that agree on these keys build the same
    (an endpoint, in particular, has no [$ref]). *)
Theorem builders_read_keys range fuel definitions (m m' : gmap string any) :
  valid_range range →
  ((∀ k, k ∈ ["$ref"; "source"; "target"; "steps"] → m !! k = m' !! k) →
   createFilters range definitions m = createFilters range definitions m')
  ∧ ((∀ k, k ∈ ["$ref"; "any"; "all"; "source"; "checks"] →
      m !! k = m' !! k) →
     createConditions range fuel definitions m
     = createConditions range fuel definitions m')
  ∧ ((∀ k, k ∈ ["$ref"; "format"; "body"; "status"; "headers"] →
      m !! k = m' !! k) →
     createResponse range m definitions = createResponse range m' definitions)
  ∧ ((∀ k, k ∈ ["description"; "host"; "method"; "path"; "bodyFormat";
                "filters"; "conditions"; "endpoints"; "response"] →
      m !! k = m' !! k) →
     createEndpoint range fuel m definitions
     = createEndpoint range fuel m' definitions).
Proof.
  intros Hrange. split; [|split; [|split]]; intros Hkeys.
  - unfold createFilters.
    rewrite (extractString_inputs m m' "$ref"),
      (extractSliceOfAny_inputs m m' "steps"),
      (fillStrings_inputs range filterStrings m m'); try done;
      try (apply Hkeys; set_solver).
    intros name [target Hname]. unfold filterStrings in Hname.
    apply Hkeys.
    apply lookup_insert_Some in Hname as [[<- _]|[_ Hname]]; [set_solver|].
    apply lookup_singleton_Some in Hname as [<- _]. set_solver.
  - destruct fuel as [|fuel]; [done|]. rewrite !createConditions_unfold.
    unfold fillString.
    rewrite (extractString_inputs m m' "$ref"),
      (extractSliceOfAny_inputs m m' "any"),
      (extractSliceOfAny_inputs m m' "all"),
      (extractString_inputs m m' "source"),
      (extractSliceOfAny_inputs m m' "checks"); try done;
      apply Hkeys; set_solver.
  - unfold createResponse, fillInt.
    rewrite (extractString_inputs m m' "$ref"),
      (extractInt_inputs m m' "status"),
      (extractStringMap_inputs m m' "headers"),
      (fillStrings_inputs range responseStrings m m'); try done;
      try (apply Hkeys; set_solver).
    intros name [target Hname]. unfold responseStrings in Hname.
    apply Hkeys.
    apply lookup_insert_Some in Hname as [[<- _]|[_ Hname]]; [set_solver|].
    apply lookup_singleton_Some in Hname as [<- _]. set_solver.
  - destruct fuel as [|fuel]; [done|]. rewrite !createEndpoint_unfold.
    unfold endpointFields.
    rewrite (extractSliceOfAny_inputs m m' "filters"),
      (extractSliceOfAny_inputs m m' "conditions"),
      (extractSliceOfAny_inputs m m' "endpoints"),
      (extractStringMap_inputs m m' "response"),
      (fillStrings_inputs range endpointStrings m m'); try done;
      try (apply Hkeys; set_solver).
    intros name [target Hname]. unfold endpointStrings in Hname.
    apply Hkeys.
    repeat (apply lookup_insert_Some in Hname as [[<- _]|[_ Hname]];
            [set_solver|]).
    apply lookup_singleton_Some in Hname as [<- _]. set_solver.
Qed.

Lemma builders_read_keys_witness :
  createEndpoint canonical 1
    {[ "$ref" := AString "n"; "response" := AMap ∅ ]} noDefinitions
  = createEndpoint canonical 1 {[ "response" := AMap ∅ ]} noDefinitions.
Proof.
  apply (builders_read_keys canonical 1 noDefinitions).
  - intros A m. reflexivity.
  - intros k Hk.
    repeat (apply elem_of_cons in Hk as [->|Hk]; [reflexivity|]).
    by inversion Hk.
Defined.

(** ** Well-formed trees *)

Lemma exclusive_unfold (c : Condition) :
  exclusive c
  ↔ ((Condition_Any c ≠ [] ∧ Condition_All c = []
      ∧ Condition_Source c = "" ∧ Condition_Checks c = [])
     ∨ (Condition_Any c = [] ∧ Condition_All c ≠ []
        ∧ Condition_Source c = "" ∧ Condition_Checks c = [])
     ∨ (Condition_Any c = [] ∧ Condition_All c = []
        ∧ Condition_Source c ≠ ""))
    ∧ Forall exclusive (Condition_Any c)
    ∧ Forall exclusive (Condition_All c).
Proof.
  assert (Heach : ∀ l,
            (fix each (l : list Condition) : Prop :=
               match l with
               | [] => True
               | c' :: l' => exclusive c' ∧ each l'
               end) l ↔ Forall exclusive l).
  { induction l as [|c' l IH]; [by split; [constructor|]|].
    rewrite Forall_cons, <- IH. done. }
  destruct c as [any all source checks]. simpl. by rewrite !Heach.
Qed.

Lemma wellFormedEndpoint_unfold (e : Endpoint) :
  wellFormedEndpoint e
  ↔ (Endpoint_Endpoints e ≠ [] ∨ Endpoint_Response e ≠ None)
    ∧ Forall sourced (Endpoint_Filters e)
    ∧ Forall exclusive (Endpoint_Conditions e)
    ∧ Forall wellFormedEndpoint (Endpoint_Endpoints e).
Proof.
  assert (Heach : ∀ l,
            (fix each (l : list Endpoint) : Prop :=
               match l with
               | [] => True
               | e' :: l' => wellFormedEndpoint e' ∧ each l'
               end) l ↔ Forall wellFormedEndpoint l).
  { induction l as [|e' l IH]; [by split; [constructor|]|].
    rewrite Forall_cons, <- IH. done. }
  destruct e. simpl. by rewrite Heach.
Qed.

(** A loop that appends, for every item, a list that is not empty and
    whose elements satisfy [P]. *)
Lemma forRange_nonempty {A B : Type} (P : B → Prop)
  (body : list B → A → result (list B)) (l : list A) (s v : list B) :
  (∀ s x s', x ∈ l → body s x = Ok s' →
     ∃ new, s' = s ++ new ∧ new ≠ [] ∧ Forall P new) →
  Forall P s →
  forRange body s l = Ok v →
  Forall P v ∧ (l ≠ [] → v ≠ []).
Proof.
  intros Hbody Hs.
  apply (forRange_ind (λ pre v, Forall P v ∧ (pre ≠ [] → v ≠ []))).
  - done.
  - intros pre x s0 s' [Hs0 _] Hin (new & -> & Hnew & HP)%Hbody; [|done].
    split; [by apply Forall_app|]. intros _.
    intros [_ ?]%app_eq_nil. done.
Qed.

Lemma createFilters_wellFormed range definitions rFilterItem filters :
  wellFormedDefinitions definitions →
  createFilters range definitions rFilterItem = Ok filters →
  filters ≠ [] ∧ Forall sourced filters.
Proof.
  intros [Hwf _]. unfold createFilters.
  intros ([refName|] & _ & H)%bind_Ok_inv.
  - unfold getFiltersByReference in H.
    destruct (Definitions_Filters definitions !! refName) eqn:E; [|done].
    injection H as <-. by apply (Hwf refName).
  - apply bind_Ok_inv in H as (f & _ & H).
    case_bool_decide as Hsource; [done|].
    apply bind_Ok_inv in H as (rSteps & _ & H).
    apply bind_Ok_inv in H as (f' & Hloop & [= <-]).
    split; [done|]. apply Forall_singleton. unfold sourced.
    destruct rSteps as [rSteps|].
    + by apply createFilters_steps_loop in Hloop as (parts & _ & ->).
    + by injection Hloop as <-.
Qed.

Lemma fillFiltersItems_wellFormed range definitions filters rFilterItems v :
  wellFormedDefinitions definitions →
  Forall sourced filters →
  fillFiltersItems range filters rFilterItems definitions = Ok v →
  Forall sourced v ∧ v ≠ [].
Proof.
  intros Hwf Hfilters. unfold fillFiltersItems.
  case_bool_decide as Hlen; [done|]. intros Hloop.
  apply (forRange_nonempty sourced) in Hloop as [? Hne]; [| |done].
  - split; [done|]. apply Hne. by intros ->.
  - intros s x s' _ Hbody. destruct x; try done.
    apply bind_Ok_inv in Hbody as (new & Hnew & [= <-]).
    apply (createFilters_wellFormed _ _ _ _ Hwf) in Hnew as [? ?]. eauto.
Qed.

Lemma fillConditionsItems_wellFormed
  (create : Definitions → gmap string any → result (list Condition))
  definitions conditions rConditionItems v :
  (∀ m cs, create definitions m = Ok cs → cs ≠ [] ∧ Forall exclusive cs) →
  Forall exclusive conditions →
  fillConditionsItems create conditions rConditionItems definitions = Ok v →
  Forall exclusive v ∧ v ≠ [].
Proof.
  intros Hcreate Hconditions. unfold fillConditionsItems.
  case_bool_decide as Hlen; [done|]. intros Hloop.
  apply (forRange_nonempty exclusive) in Hloop as [? Hne]; [| |done].
  - split; [done|]. apply Hne. by intros ->.
  - intros s x s' _ Hbody. destruct x; try done.
    apply bind_Ok_inv in Hbody as (new & Hnew & [= <-]).
    apply Hcreate in Hnew as [? ?]. eauto.
Qed.

Lemma createConditions_wellFormed range fuel definitions rConditionItem
  conditions :
  wellFormedDefinitions definitions →
  createConditions range fuel definitions rConditionItem = Ok conditions →
  conditions ≠ [] ∧ Forall exclusive conditions.
Proof.
  intros Hwf. revert rConditionItem conditions.
  induction fuel as [|fuel IH]; intros rConditionItem conditions; [done|].
  rewrite createConditions_unfold.
  intros ([refName|] & _ & H)%bind_Ok_inv.
  { unfold getConditionsByReference in H.
    destruct (Definitions_Conditions definitions !! refName) eqn:E; [|done].
    injection H as <-. by apply (proj2 Hwf refName). }
  apply bind_Ok_inv in H as ([sliceAny|] & _ & H).
  { apply bind_Ok_inv in H as (any & Hany & [= <-]).
    apply (fillConditionsItems_wellFormed _ _ _ _ _ IH) in Hany as [? ?];
      [|constructor].
    split; [done|]. apply Forall_singleton, exclusive_unfold. simpl.
    split; [by left|]. split; [done|constructor]. }
  apply bind_Ok_inv in H as ([sliceAll|] & _ & H).
  { apply bind_Ok_inv in H as (all & Hall & [= <-]).
    apply (fillConditionsItems_wellFormed _ _ _ _ _ IH) in Hall as [? ?];
      [|constructor].
    split; [done|]. apply Forall_singleton, exclusive_unfold. simpl.
    split; [right; by left|]. split; [constructor|done]. }
  apply bind_Ok_inv in H as (condition & Hsource & H).
  case_bool_decide as Hne; [done|].
  apply bind_Ok_inv in H as ([rChecks|] & _ & H); [|done].
  apply bind_Ok_inv in H as (checks & _ & [= <-]).
  split; [done|]. apply Forall_singleton, exclusive_unfold.
  unfold fillString in Hsource.
  apply bind_Ok_inv in Hsource as ([value|] & _ & [= <-]); simpl in *;
    (split; [right; right; done|]); split; constructor.
Qed.

Lemma fillDefinitions_wellFormed range fuel rDefinitions definitions d :
  wellFormedDefinitions definitions →
  fillDefinitions range fuel rDefinitions definitions = Ok d →
  wellFormedDefinitions d.
Proof.
  intros Hwf. unfold fillDefinitions.
  intros (oS & _ & H)%bind_Ok_inv.
  apply bind_Ok_inv in H as (d1 & Hd1 & H).
  assert (Hwf1 : wellFormedDefinitions d1).
  { destruct oS as [rSteps|]; [|by injection Hd1 as <-].
    revert Hd1. unfold fillStepsMap.
    apply (forRange_ind (λ _ d, wellFormedDefinitions d)); [done|].
    intros pre [name x] s s' Hs _ Hbody. destruct x; try done.
    by apply bind_Ok_inv in Hbody as (v & _ & [= <-]). }
  apply bind_Ok_inv in H as (oF & _ & H).
  apply bind_Ok_inv in H as (d2 & Hd2 & H).
  assert (Hwf2 : wellFormedDefinitions d2).
  { destruct oF as [rFilters|]; [|by injection Hd2 as <-].
    revert Hd2. unfold fillFiltersMap.
    apply (forRange_ind (λ _ d, wellFormedDefinitions d)); [done|].
    intros pre [name x] s s' Hs _ Hbody. destruct x; try done.
    apply bind_Ok_inv in Hbody as (v & Hv & [= <-]).
    apply (fillFiltersItems_wellFormed _ _ _ _ _ Hs) in Hv as [? ?];
      [|constructor].
    split; [|apply Hs]. simpl. intros n filters.
    intros [[_ <-]|[_ Hn]]%lookup_insert_Some; [done|].
    by apply (proj1 Hs n). }
  apply bind_Ok_inv in H as (oC & _ & H).
  apply bind_Ok_inv in H as (d3 & Hd3 & H).
  assert (Hwf3 : wellFormedDefinitions d3).
  { destruct oC as [rConditions|]; [|by injection Hd3 as <-].
    revert Hd3. unfold fillConditionsMap.
    apply (forRange_ind (λ _ d, wellFormedDefinitions d)); [done|].
    intros pre [name x] s s' Hs _ Hbody. destruct x; try done.
    apply bind_Ok_inv in Hbody as (v & Hv & [= <-]).
    apply (fillConditionsItems_wellFormed _ _ _ _ _
             (λ m cs, createConditions_wellFormed range fuel s m cs Hs))
      in Hv as [? ?]; [|constructor].
    split; [apply Hs|]. simpl. intros n conditions.
    intros [[_ <-]|[_ Hn]]%lookup_insert_Some; [done|].
    by apply (proj2 Hs n). }
  apply bind_Ok_inv in H as (oR & _ & H).
  destruct oR as [rResponses|]; [|by injection H as <-].
  revert H. unfold fillResponsesMap.
  apply (forRange_ind (λ _ d, wellFormedDefinitions d)); [done|].
  intros pre [name x] s s' Hs _ Hbody. destruct x; try done.
  by apply bind_Ok_inv in Hbody as (v & _ & [= <-]).
Qed.

Lemma createEndpoint_wellFormed range fuel rEndpoint definitions endpoint :
  valid_range range →
  wellFormedDefinitions definitions →
  createEndpoint range fuel rEndpoint definitions = Ok endpoint →
  wellFormedEndpoint endpoint.
Proof.
  intros Hrange Hwf. revert rEndpoint endpoint.
  induction fuel as [|fuel IH]; intros rEndpoint endpoint; [done|].
  rewrite createEndpoint_unfold.
  intros (e & Hfields & Hcheck)%bind_Ok_inv.
  case_bool_decide as Hcomplete; [done|]. injection Hcheck as <-.
  apply wellFormedEndpoint_unfold. split.
  { destruct (Endpoint_Endpoints e) eqn:E1; [|by left].
    destruct (Endpoint_Response e) eqn:E2; [by right|].
    by destruct Hcomplete. }
  clear Hcomplete. revert Hfields. unfold endpointFields.
  intros (e1 & He1 & Hrest)%bind_Ok_inv.
  apply (fillStrings_endpoint range _ _ Hrange) in He1 as ->.
  apply bind_Ok_inv in Hrest as (oF & _ & Hrest).
  apply bind_Ok_inv in Hrest as (e2 & He2 & Hrest).
  apply bind_Ok_inv in Hrest as (oC & _ & Hrest).
  apply bind_Ok_inv in Hrest as (e3 & He3 & Hrest).
  apply bind_Ok_inv in Hrest as (oE & _ & Hrest).
  apply bind_Ok_inv in Hrest as (e4 & He4 & Hrest).
  apply bind_Ok_inv in Hrest as (oR & _ & Hrest).
  assert (H2 : Forall sourced (Endpoint_Filters e2)
               ∧ Endpoint_Conditions e2 = [] ∧ Endpoint_Endpoints e2 = []).
  { destruct oF; [|by injection He2 as <-].
    apply bind_Ok_inv in He2 as (v & Hv & [= <-]).
    by apply (fillFiltersItems_wellFormed _ _ _ _ _ Hwf) in Hv as [? _]. }
  destruct H2 as (Hf2 & Hc2 & Hn2).
  assert (H3 : Endpoint_Filters e3 = Endpoint_Filters e2
               ∧ Forall exclusive (Endpoint_Conditions e3)
               ∧ Endpoint_Endpoints e3 = []).
  { destruct oC; [|injection He3 as <-; by rewrite Hc2].
    apply bind_Ok_inv in He3 as (v & Hv & [= <-]).
    rewrite Hc2 in Hv.
    apply (fillConditionsItems_wellFormed _ _ _ _ _
             (λ m cs, createConditions_wellFormed range fuel _ m cs Hwf))
      in Hv as [? _]; [|constructor].
    by destruct e2. }
  destruct H3 as (Hf3 & Hc3 & Hn3).
  assert (H4 : Endpoint_Filters e4 = Endpoint_Filters e3
               ∧ Endpoint_Conditions e4 = Endpoint_Conditions e3
               ∧ Forall wellFormedEndpoint (Endpoint_Endpoints e4)).
  { destruct oE; [|injection He4 as <-; by rewrite Hn3].
    apply bind_Ok_inv in He4 as (v & Hv & [= <-]).
    rewrite Hn3 in Hv.
    apply fillEndpoints_items in Hv as (new & Hnew & ->).
    destruct e3; simpl. repeat split.
    clear -Hnew IH. induction Hnew as [|x y l l' (m & -> & Hy) _ IHl];
      constructor; eauto. }
  destruct H4 as (Hf4 & Hc4 & Hn4).
  assert (Endpoint_Filters e = Endpoint_Filters e4
          ∧ Endpoint_Conditions e = Endpoint_Conditions e4
          ∧ Endpoint_Endpoints e = Endpoint_Endpoints e4) as (-> & -> & ->).
  { destruct oR; [|by injection Hrest as <-].
    apply bind_Ok_inv in Hrest as (r & _ & [= <-]). by destruct e4. }
  by rewrite Hf4, Hf3, Hc4.
Qed.



(** ** Where an unknown-definition error comes from *)

Lemma bind_Err_inv {A B : Type} (x : result A) (f : A → result B) (e : error) :
  x ≫= f = Err e → x = Err e ∨ ∃ a, x = Ok a ∧ f a = Err e.
Proof. destruct x; simpl; eauto; try discriminate. intros [= <-]. by left. Qed.

Lemma forRange_Err_inv {A S : Type} (body : S → A → result S) (l : list A)
  (s : S) (e : error) :
  forRange body s l = Err e → ∃ s0 x, x ∈ l ∧ body s0 x = Err e.
Proof.
  revert s. induction l as [|x l IH]; intros s; [done|].
  rewrite forRange_cons. intros [Hx|(s1 & _ & Hrest)]%bind_Err_inv.
  - exists s, x. split; [by left|done].
  - destruct (IH _ Hrest) as (s0 & y & Hy & Hbody).
    exists s0, y. split; [by right|done].
Qed.

Lemma extractString_known input name group refName :
  extractString input name ≠ Err (errUnknownDefinition group refName).
Proof. unfold extractString. by destruct (input !! name) as [[]|]. Qed.

Lemma extractInt_known input name group refName :
  extractInt input name ≠ Err (errUnknownDefinition group refName).
Proof. unfold extractInt. by destruct (input !! name) as [[]|]. Qed.

Lemma extractStringMap_known input name group refName :
  extractStringMap input name ≠ Err (errUnknownDefinition group refName).
Proof. unfold extractStringMap. by destruct (input !! name) as [[]|]. Qed.

Lemma extractSliceOfAny_known input name group refName :
  extractSliceOfAny input name ≠ Err (errUnknownDefinition group refName).
Proof. unfold extractSliceOfAny. by destruct (input !! name) as [[]|]. Qed.

Lemma extractString_ref input refName :
  extractString input "$ref" = Ok (Some refName) →
  input !! "$ref" = Some (AString refName).
Proof.
  unfold extractString. destruct (input !! "$ref") as [[]|]; congruence.
Qed.

Lemma fillStrings_known {T : Type} range
  (targets : gmap string (string → T → T)) input t group refName :
  fillStrings range targets input t ≠ Err (errUnknownDefinition group refName).
Proof.
  unfold fillStrings.
  intros (s & [name target] & _ & Hbody)%forRange_Err_inv.
  unfold fillString in Hbody.
  apply bind_Err_inv in Hbody as [H|([] & _ & ?)]; try done.
  by apply extractString_known in H.
Qed.

Lemma refersTo_here (m : gmap string any) refName :
  m !! "$ref" = Some (AString refName) → refersTo refName (AMap m).
Proof. intros H. exists m. split; [constructor|done]. Qed.

Lemma refersTo_item refName (m : gmap string any) key l x :
  m !! key = Some (ASlice l) → x ∈ l → refersTo refName x →
  refersTo refName (AMap m).
Proof.
  intros Hkey Hx (m' & Hoccurs & Href). exists m'. split; [|done].
  eapply occurs_map; [exact Hkey|]. by eapply occurs_slice.
Qed.

Lemma refersTo_field refName (m : gmap string any) key x :
  m !! key = Some x → refersTo refName x → refersTo refName (AMap m).
Proof.
  intros Hkey (m' & Hoccurs & Href). exists m'. split; [|done].
  by eapply occurs_map.
Qed.

Lemma createSteps_unknown range rStepItem definitions group refName :
  createSteps range rStepItem definitions
  = Err (errUnknownDefinition group refName) →
  refersTo refName (AMap rStepItem).
Proof.
  unfold createSteps. case_bool_decide as Hguard; [done|].
  intros [H|(r & Hr & H)]%bind_Err_inv; [by apply extractString_known in H|].
  destruct r as [name|]; [|by rewrite createSteps_loop in H].
  apply extractString_ref in Hr. unfold getStepsByReference in H.
  destruct (_ !! name); [done|]. injection H as _ <-.
  by apply refersTo_here.
Qed.

Lemma fillStepsItems_unknown range steps rStepItems definitions group refName :
  fillStepsItems range steps rStepItems definitions
  = Err (errUnknownDefinition group refName) →
  refersTo refName (ASlice rStepItems).
Proof.
  unfold fillStepsItems. case_bool_decide as Hguard; [done|].
  intros (s & x & Hx & Hbody)%forRange_Err_inv. destruct x; try done.
  unfold fillStepsItem in Hbody.
  apply bind_Err_inv in Hbody as [H|(? & _ & ?)]; [|done].
  apply createSteps_unknown in H as (m' & ? & ?).
  exists m'. split; [|done]. by eapply occurs_slice.
Qed.

Lemma createFilters_unknown range definitions rFilterItem group refName :
  createFilters range definitions rFilterItem
  = Err (errUnknownDefinition group refName) →
  refersTo refName (AMap rFilterItem).
Proof.
  unfold createFilters.
  intros [H|(r & Hr & H)]%bind_Err_inv; [by apply extractString_known in H|].
  destruct r as [name|].
  { apply extractString_ref in Hr. unfold getFiltersByReference in H.
    destruct (_ !! name); [done|]. injection H as _ <-.
    by apply refersTo_here. }
  apply bind_Err_inv in H; destruct H as [H|(f & _ & H)]; [by apply fillStrings_known in H|].
  case_bool_decide as Hguard; [done|].
  apply bind_Err_inv in H; destruct H as [H|(o & Ho & H)];
    [by apply extractSliceOfAny_known in H|].
  apply bind_Err_inv in H; destruct H as [H|(? & _ & ?)]; [|done].
  destruct o as [l|]; [|done]. apply extractSliceOfAny_inv in Ho.
  apply forRange_Err_inv in H as (s & x & Hx & Hbody). destruct x; try done.
  apply bind_Err_inv in Hbody as [H|(? & _ & ?)]; [|done].
  apply createSteps_unknown in H. by eapply refersTo_item.
Qed.

Lemma fillFiltersItems_unknown range filters rFilterItems definitions group
  refName :
  fillFiltersItems range filters rFilterItems definitions
  = Err (errUnknownDefinition group refName) →
  refersTo refName (ASlice rFilterItems).
Proof.
  unfold fillFiltersItems. case_bool_decide as Hguard; [done|].
  intros (s & x & Hx & Hbody)%forRange_Err_inv. destruct x; try done.
  unfold fillFiltersItem in Hbody.
  apply bind_Err_inv in Hbody as [H|(? & _ & ?)]; [|done].
  apply createFilters_unknown in H as (m' & ? & ?).
  exists m'. split; [|done]. by eapply occurs_slice.
Qed.

Lemma createChecks_known range rChecks group refName :
  createChecks range rChecks ≠ Err (errUnknownDefinition group refName).
Proof.
  unfold createChecks.
  intros (s & x & _ & Hbody)%forRange_Err_inv. destruct x; try done.
  case_bool_decide as Hguard; [done|]. by rewrite createChecks_loop in Hbody.
Qed.

Lemma fillConditionsItems_unknown
  (create : Definitions → gmap string any → result (list Condition))
  conditions rConditionItems definitions group refName :
  (∀ m, AMap m ∈ rConditionItems →
     create definitions m = Err (errUnknownDefinition group refName) →
     refersTo refName (AMap m)) →
  fillConditionsItems create conditions rConditionItems definitions
  = Err (errUnknownDefinition group refName) →
  refersTo refName (ASlice rConditionItems).
Proof.
  intros Hcreate. unfold fillConditionsItems. case_bool_decide as Hguard; [done|].
  intros (s & x & Hx & Hbody)%forRange_Err_inv. destruct x; try done.
  unfold fillConditionsItem in Hbody.
  apply bind_Err_inv in Hbody as [H|(? & _ & ?)]; [|done].
  apply (Hcreate _ Hx) in H as (m' & ? & ?).
  exists m'. split; [|done]. by eapply occurs_slice.
Qed.

Lemma createConditions_unknown range fuel definitions rConditionItem group
  refName :
  createConditions range fuel definitions rConditionItem
  = Err (errUnknownDefinition group refName) →
  refersTo refName (AMap rConditionItem).
Proof.
  revert rConditionItem.
  induction fuel as [|fuel IH]; intros rConditionItem; [done|].
  rewrite createConditions_unfold.
  intros [H|(r & Hr & H)]%bind_Err_inv; [by apply extractString_known in H|].
  destruct r as [name|].
  { apply extractString_ref in Hr. unfold getConditionsByReference in H.
    destruct (_ !! name); [done|]. injection H as _ <-.
    by apply refersTo_here. }
  apply bind_Err_inv in H; destruct H as [H|(oAny & Hany & H)];
    [by apply extractSliceOfAny_known in H|].
  destruct oAny as [l|].
  { apply extractSliceOfAny_inv in Hany.
    apply bind_Err_inv in H; destruct H as [H|(? & _ & ?)]; [|done].
    apply fillConditionsItems_unknown in H; [|by intros m _; apply IH].
    by eapply refersTo_field. }
  apply bind_Err_inv in H; destruct H as [H|(oAll & Hall & H)];
    [by apply extractSliceOfAny_known in H|].
  destruct oAll as [l|].
  { apply extractSliceOfAny_inv in Hall.
    apply bind_Err_inv in H; destruct H as [H|(? & _ & ?)]; [|done].
    apply fillConditionsItems_unknown in H; [|by intros m _; apply IH].
    by eapply refersTo_field. }
  apply bind_Err_inv in H; destruct H as [H|(c & _ & H)].
  { unfold fillString in H.
    apply bind_Err_inv in H; destruct H as [H|([] & _ & ?)]; try done.
    by apply extractString_known in H. }
  case_bool_decide as Hguard; [done|].
  apply bind_Err_inv in H; destruct H as [H|(o & _ & H)];
    [by apply extractSliceOfAny_known in H|].
  destruct o; [|done].
  apply bind_Err_inv in H; destruct H as [H|(? & _ & ?)]; [|done].
  by apply createChecks_known in H.
Qed.

Lemma createResponse_unknown range rResponse definitions group refName :
  createResponse range rResponse definitions
  = Err (errUnknownDefinition group refName) →
  refersTo refName (AMap rResponse).
Proof.
  unfold createResponse.
  intros [H|(r & Hr & H)]%bind_Err_inv; [by apply extractString_known in H|].
  destruct r as [name|].
  { apply extractString_ref in Hr. unfold getResponseByReference in H.
    destruct (_ !! name); [done|]. injection H as _ <-.
    by apply refersTo_here. }
  apply bind_Err_inv in H; destruct H as [H|(r1 & _ & H)];
    [by apply fillStrings_known in H|].
  apply bind_Err_inv in H; destruct H as [H|(r2 & _ & H)].
  { unfold fillInt in H.
    apply bind_Err_inv in H; destruct H as [H|([] & _ & ?)]; try done.
    by apply extractInt_known in H. }
  apply bind_Err_inv in H; destruct H as [H|(o & _ & H)];
    [by apply extractStringMap_known in H|].
  destruct o; [|done].
  apply bind_Err_inv in H; destruct H as [H|(? & _ & ?)]; [|done].
  apply forRange_Err_inv in H as (h & [headerName x] & _ & Hbody).
  destruct x; try done. unfold fillHeaderValues in Hbody.
  apply forRange_Err_inv in Hbody as (h' & y & _ & Hy). by destruct y.
Qed.

Lemma createEndpoint_unknown range fuel rEndpoint definitions group refName :
  createEndpoint range fuel rEndpoint definitions
  = Err (errUnknownDefinition group refName) →
  refersTo refName (AMap rEndpoint).
Proof.
  revert rEndpoint.
  induction fuel as [|fuel IH]; intros rEndpoint; [done|].
  rewrite createEndpoint_unfold.
  intros [H|(e & _ & H)]%bind_Err_inv; [|by case_bool_decide].
  revert H. unfold endpointFields.
  intros [H|(e1 & _ & H)]%bind_Err_inv; [by apply fillStrings_known in H|].
  apply bind_Err_inv in H; destruct H as [H|(oF & HoF & H)];
    [by apply extractSliceOfAny_known in H|].
  apply bind_Err_inv in H; destruct H as [H|(e2 & _ & H)].
  { destruct oF as [l|]; [|done]. apply extractSliceOfAny_inv in HoF.
    apply bind_Err_inv in H; destruct H as [H|(? & _ & ?)]; [|done].
    apply fillFiltersItems_unknown in H. by eapply refersTo_field. }
  apply bind_Err_inv in H; destruct H as [H|(oC & HoC & H)];
    [by apply extractSliceOfAny_known in H|].
  apply bind_Err_inv in H; destruct H as [H|(e3 & _ & H)].
  { destruct oC as [l|]; [|done]. apply extractSliceOfAny_inv in HoC.
    apply bind_Err_inv in H; destruct H as [H|(? & _ & ?)]; [|done].
    apply fillConditionsItems_unknown in H;
      [|by intros m _; apply createConditions_unknown].
    by eapply refersTo_field. }
  apply bind_Err_inv in H; destruct H as [H|(oE & HoE & H)];
    [by apply extractSliceOfAny_known in H|].
  apply bind_Err_inv in H; destruct H as [H|(e4 & _ & H)].
  { destruct oE as [l|]; [|done]. apply extractSliceOfAny_inv in HoE.
    apply bind_Err_inv in H; destruct H as [H|(? & _ & ?)]; [|done].
    unfold fillEndpoints in H.
    apply forRange_Err_inv in H as (s & x & Hx & Hbody). destruct x; try done.
    apply bind_Err_inv in Hbody as [H|(? & _ & ?)]; [|done].
    apply IH in H. by eapply refersTo_item. }
  apply bind_Err_inv in H; destruct H as [H|(oR & HoR & H)];
    [by apply extractStringMap_known in H|].
  destruct oR as [r|]; [|done]. apply extractStringMap_inv in HoR.
  apply bind_Err_inv in H; destruct H as [H|(? & _ & ?)]; [|done].
  unfold fillResponseItem in H.
  apply bind_Err_inv in H; destruct H as [H|(? & _ & ?)]; [|done].
  apply createResponse_unknown in H. by eapply refersTo_field.
Qed.



